(** * MaiBot LPMM tooling: a shallow embedding and its properties

    The development follows four source files:
    - [scripts/delete_lpmm_items.py]            (module [DeleteLpmmItems])
    - [src/chat/knowledge/ie_process.py]        (module [IeProcess])
    - [src/bw_learner/message_recorder.py]      (module [MessageRecorder])
    - [src/llm_models/model_performance_cache.py] (module [ModelPerformanceCache])

    Python strings are sequences of Unicode code points, JSON objects are
    finite maps, exceptions are an explicit error result, and calls that
    leave the process (the language model, the disk, the console) are
    recorded as events of a trace. *)

From Stdlib Require Import ZArith NArith QArith Lia String Ascii.
From stdpp Require Import gmap list fin_maps.

Local Open Scope Z_scope.

(** ** Python values and the [str] builtins the sources use *)

Module Py.

(** A Python [str]: its code points, in order. *)
Definition pystr := list N.

(** Literals are written as UTF-8 text and decoded once. *)
Fixpoint utf8 (bs : list N) : pystr :=
  match bs with
  | [] => []
  | b0 :: t0 =>
    if (b0 <? 128)%N then b0 :: utf8 t0
    else
      match t0 with
      | [] => []
      | b1 :: t1 =>
        if (b0 <? 224)%N then ((b0 - 192) * 64 + (b1 - 128))%N :: utf8 t1
        else
          match t1 with
          | [] => []
          | b2 :: t2 =>
            if (b0 <? 240)%N
            then ((b0 - 224) * 4096 + (b1 - 128) * 64 + (b2 - 128))%N :: utf8 t2
            else
              match t2 with
              | [] => []
              | b3 :: t3 =>
                ((b0 - 240) * 262144 + (b1 - 128) * 4096
                 + (b2 - 128) * 64 + (b3 - 128))%N :: utf8 t3
              end
          end
      end
  end.

Definition u (s : string) : pystr :=
  utf8 (map N_of_ascii (list_ascii_of_string s)).

(** [len(s)] *)
Definition len {A} (s : list A) : Z := Z.of_nat (length s).

(** [s.startswith(p)] *)
Fixpoint startswith (p s : pystr) : bool :=
  match p, s with
  | [], _ => true
  | _ :: _, [] => false
  | a :: p', b :: s' => if (a =? b)%N then startswith p' s' else false
  end.

(** The least index at which [sub] occurs in [s], counted from [i]. *)
Fixpoint find_from (i : nat) (sub s : pystr) : option nat :=
  if startswith sub s then Some i
  else match s with
       | [] => None
       | _ :: s' => find_from (S i) sub s'
       end.

(** [s.find(sub)]: the index of the first occurrence, [-1] when there is none. *)
Definition find (sub s : pystr) : Z :=
  match find_from 0 sub s with
  | Some i => Z.of_nat i
  | None => -1
  end.

(** [sub in s] *)
Definition contains (sub s : pystr) : bool :=
  match find_from 0 sub s with Some _ => true | None => false end.

(** [s[i:]], with Python's treatment of a negative start. *)
Definition slice_from (i : Z) (s : pystr) : pystr :=
  let start := if i <? 0 then Z.max 0 (len s + i) else i in
  drop (Z.to_nat start) s.

(** [s[:n]] for a non-negative [n]. *)
Definition slice_to (n : nat) (s : pystr) : pystr := take n s.

(** [s.replace(old, new, count)] for a non-empty [old]; a negative [count]
    replaces every occurrence.  Occurrences are found left to right and do
    not overlap; each one consumes at least one character of [s], which
    bounds the number of rounds by [length s]. *)
Fixpoint replace_rounds (rounds : nat) (old new : pystr) (count : Z) (s : pystr)
  : pystr :=
  match rounds with
  | O => s
  | S r =>
    if count =? 0 then s
    else match find_from 0 old s with
         | None => s
         | Some i =>
           take i s ++ new
             ++ replace_rounds r old new (count - 1) (drop (i + length old) s)
         end
  end.

Definition replace (old new : pystr) (count : Z) (s : pystr) : pystr :=
  replace_rounds (length s) old new count s.

Definition mem (c : N) (cs : list N) : bool := existsb (N.eqb c) cs.

(** [s.lstrip(chars)], [s.rstrip(chars)], [s.strip(chars)] *)
Fixpoint lstrip_chars (cs : list N) (s : pystr) : pystr :=
  match s with
  | [] => []
  | c :: s' => if mem c cs then lstrip_chars cs s' else s
  end.

Definition rstrip_chars (cs : list N) (s : pystr) : pystr :=
  rev (lstrip_chars cs (rev s)).

Definition strip_chars (cs : list N) (s : pystr) : pystr :=
  rstrip_chars cs (lstrip_chars cs s).

(** The code points for which [str.isspace] holds. *)
Definition whitespace : list N :=
  [9; 10; 11; 12; 13; 28; 29; 30; 31; 32; 133; 160; 5760;
   8192; 8193; 8194; 8195; 8196; 8197; 8198; 8199; 8200; 8201; 8202;
   8232; 8233; 8239; 8287; 12288]%N.

(** [s.strip()] *)
Definition strip (s : pystr) : pystr := strip_chars whitespace s.

Definition is_empty {A} (s : list A) : bool :=
  match s with [] => true | _ :: _ => false end.

(** The line boundaries of [str.splitlines]. *)
Definition line_breaks : list N :=
  [10; 11; 12; 13; 28; 29; 30; 133; 8232; 8233]%N.

(** [s.splitlines()]: [cur] is the line being read; a carriage return
    followed by a line feed is one boundary, and no empty last line is
    reported. *)
Fixpoint splitlines_from (cur s : pystr) : list pystr :=
  match s with
  | [] => if is_empty cur then [] else [cur]
  | c :: s' =>
    if (c =? 13)%N then
      match s' with
      | c' :: s'' =>
        if (c' =? 10)%N then cur :: splitlines_from [] s''
        else cur :: splitlines_from [] s'
      | [] => cur :: splitlines_from [] s'
      end
    else if mem c line_breaks then cur :: splitlines_from [] s'
    else splitlines_from (cur ++ [c]) s'
  end.

Definition splitlines (s : pystr) : list pystr := splitlines_from [] s.

(** [s.split(sep)] for a separator of one character. *)
Fixpoint split_char_from (sep : N) (cur s : pystr) : list pystr :=
  match s with
  | [] => [cur]
  | c :: s' =>
    if (c =? sep)%N then cur :: split_char_from sep [] s'
    else split_char_from sep (cur ++ [c]) s'
  end.

Definition split_char (sep : N) (s : pystr) : list pystr :=
  split_char_from sep [] s.

(** [s.split(sep, 1)] for a non-empty separator. *)
Definition split_once (sep s : pystr) : list pystr :=
  match find_from 0 sep s with
  | Some i => [take i s; drop (i + length sep) s]
  | None => [s]
  end.

(** [sep.join(parts)] *)
Fixpoint join (sep : pystr) (parts : list pystr) : pystr :=
  match parts with
  | [] => []
  | [x] => x
  | x :: rest => x ++ sep ++ join sep rest
  end.

(** JSON documents as Python holds them after [json.loads]. *)
#[warnings="-register-all"]
Inductive json : Type :=
  | JNull
  | JBool (b : bool)
  | JInt (z : Z)
  | JFloat (q : Q)
  | JStr (s : pystr)
  | JList (l : list json)
  | JDict (d : gmap pystr json).

Definition is_list (v : json) : bool :=
  match v with JList _ => true | _ => false end.

Definition is_dict (v : json) : bool :=
  match v with JDict _ => true | _ => false end.

(** A raised exception, with the name of its class. *)
Inductive exn : Type :=
  | ValueError
  | TypeError
  | IndexError
  | RuntimeError
  | StopIteration
  | OtherError (name : pystr).

(** The result of a call that may raise. *)
Inductive result (A : Type) : Type :=
  | Ok (a : A)
  | Raise (e : exn).
Arguments Ok {A} a.
Arguments Raise {A} e.

Definition is_ok {A} (r : result A) : bool :=
  match r with Ok _ => true | Raise _ => false end.

(** [try: r  except Exception as e: h e] on a step without effects. *)
Definition except {A} (r : result A) (h : exn → result A) : result A :=
  match r with Ok a => Ok a | Raise e => h e end.

#[global] Instance result_ret : MRet result := λ A, @Ok A.
#[global] Instance result_bind : MBind result :=
  λ A B f r, match r with Ok a => f a | Raise e => Raise e end.

(** [for x in v]: the items a [for] loop visits; a dict yields its keys,
    a string its characters, and the other JSON values are not iterable. *)
Definition iterate (v : json) : result (list json) :=
  match v with
  | JList l => Ok l
  | JDict d => Ok ((λ kv, JStr kv.1) <$> map_to_list d)
  | JStr s => Ok ((λ c, JStr [c]) <$> s)
  | _ => Raise TypeError
  end.

(** [v.get(key, default)] on a dict. *)
Definition dict_get (d : gmap pystr json) (key : pystr) (default : json) : json :=
  match d !! key with Some v => v | None => default end.

End Py.

Import Py.

(** ** Programs that talk to the outside

    A script is a finite tree: it returns, stops the process, reports
    something that needs no answer (a log line, a pause), or calls out and
    goes on with the answer, which may be a raised exception. *)

Module Prog.

(** How a process ends other than by running to its last line. *)
Inductive outcome : Type :=
  | Returned
  | Exited (code : Z)
  | Crashed (e : exn).

Section Prog.

Context {E : Type → Type} {O : Type}.

Inductive prog (A : Type) : Type :=
  | Ret (a : A)
  | Halt (o : outcome)
  | Tell (o : O) (k : prog A)
  | Vis {X : Type} (e : E X) (k : result X → prog A).
Arguments Ret {A} a.
Arguments Halt {A} o.
Arguments Tell {A} o k.
Arguments Vis {A X} e k.

Fixpoint bind {A B} (p : prog A) (f : A → prog B) : prog B :=
  match p with
  | Ret a => f a
  | Halt o => Halt o
  | Tell o k => Tell o (bind k f)
  | Vis e k => Vis e (λ r, bind (k r) f)
  end.

(** A report. *)
Definition tell (o : O) : prog unit := Tell o (Ret tt).

(** A call inside [try]: the caller sees the exception. *)
Definition attempt {X} (e : E X) : prog (result X) := Vis e Ret.

(** A call outside any [try]: an exception ends the process. *)
Definition call {X} (e : E X) : prog X :=
  Vis e (λ r, match r with Ok x => Ret x | Raise err => Halt (Crashed err) end).

(** A pure step that may raise outside any [try]. *)
Definition lift {A} (r : result A) : prog A :=
  match r with Ok a => Ret a | Raise err => Halt (Crashed err) end.

(** [raise e] *)
Definition raise {A} (err : exn) : prog A := Halt (Crashed err).

(** [try: p  except Exception as e: h e].  Leaving the process with
    [sys.exit] is not an [Exception] and passes through. *)
Fixpoint catch {A} (p : prog A) (h : exn → prog A) : prog A :=
  match p with
  | Ret a => Ret a
  | Halt (Crashed err) => h err
  | Halt o => Halt o
  | Tell o k => Tell o (catch k h)
  | Vis e k => Vis e (λ r, catch (k r) h)
  end.

(** [for x in l: s = body x s] *)
Fixpoint for_each {A S} (l : list A) (body : A → S → prog S) (s : S) : prog S :=
  match l with
  | [] => Ret s
  | x :: rest => bind (body x s) (for_each rest body)
  end.

(** What a run leaves behind, in order. *)
Inductive entry : Type :=
  | Told (o : O)
  | Called {X : Type} (e : E X) (r : result X).

(** The outside: a state and its answer to every call. *)
Context {W : Type} (answer : ∀ X, E X → W → result X * W).

Fixpoint run {A} (p : prog A) (w : W) : (A + outcome) * list entry * W :=
  match p with
  | Ret a => (inl a, [], w)
  | Halt o => (inr o, [], w)
  | Tell o k =>
    let '(res, tr, w') := run k w in (res, Told o :: tr, w')
  | Vis e k =>
    let '(r, w1) := answer _ e w in
    let '(res, tr, w') := run (k r) w1 in (res, Called e r :: tr, w')
  end.

End Prog.

Arguments prog : clear implicits.
Arguments entry : clear implicits.
Arguments Ret {E O A} a.
Arguments Halt {E O A} o.
Arguments Tell {E O A} o k.
Arguments Vis {E O A X} e k.
Arguments Told {E O} o.
Arguments Called {E O X} e r.

#[global] Instance prog_ret {E O} : MRet (prog E O) := λ A, @Ret E O A.
#[global] Instance prog_bind {E O} : MBind (prog E O) := λ A B f p, bind p f.

End Prog.

Import Prog.

(** ** [scripts/delete_lpmm_items.py] *)

Module DeleteLpmmItems.

Definition paragraph_prefix : pystr := u "paragraph-".

(** One round of the loop of [normalize_paragraph_keys]: the key and the
    hash appended for the raw identifier [h]. *)
Definition normalize_one (h : pystr) : pystr * pystr :=
  if startswith paragraph_prefix h
  then (h, replace paragraph_prefix [] 1 h)
  else (paragraph_prefix ++ h, h).

(** [normalize_paragraph_keys(raw_hashes)]: both lists grow by one entry
    per raw identifier, in input order. *)
Fixpoint normalize_loop (raw_hashes : list pystr) (keys hashes : list pystr)
  : list pystr * list pystr :=
  match raw_hashes with
  | [] => (keys, hashes)
  | h :: rest =>
    let '(k, x) := normalize_one h in
    normalize_loop rest (keys ++ [k]) (hashes ++ [x])
  end.

Definition normalize_paragraph_keys (raw_hashes : list pystr)
  : list pystr * list pystr :=
  normalize_loop raw_hashes [] [].


(** *** The command line and the outside of [main] *)

(** The options as [argparse] hands them over. *)
Record Args : Type := {
  hash_file : option pystr;
  openie_file : option pystr;
  raw_file : option pystr;
  raw_index : option pystr;
  search_text : option pystr;
  search_limit : Z;
  delete_entities : bool;
  delete_relations : bool;
  remove_orphan_entities : bool;
  dry_run : bool;
  yes : bool;
  max_delete_nodes : Z }.

(** Truth of an optional string option: given, and not empty. *)
Definition given (o : option pystr) : bool :=
  match o with Some (_ :: _) => true | _ => false end.

Inductive manager : Type := SearchManager | DeleteManager.
Inductive store : Type := Paragraphs | Entities | Relations.
Inductive prompt : Type := AskChoice | AskConfirm.

(** The five sizes logged before and after a deletion. *)
Record stats : Type := {
  para_vec : Z; ent_vec : Z; rel_vec : Z; kg_nodes : Z; kg_edges : Z }.

(** What [KGManager.delete_paragraphs] reports, a missing key read as 0. *)
Record kg_result : Type := {
  kg_deleted : Z; kg_skipped : Z; kg_orphan_removed : Z }.

(** The calls of [main] into the file system, the console, the embedding
    manager and the graph manager, each with the type of its answer. *)
Inductive event : Type → Type :=
  | PathExists (path : pystr) : event bool
  | ReadText (path : pystr) : event pystr
  | Input (p : prompt) : event pystr
  | NewEmbeddingManager (m : manager) : event unit
  | NewKGManager : event unit
  | LoadEmbeddings (m : manager) : event unit
  | LoadGraph : event unit
  | ParagraphItems : event (list (pystr * pystr))
  | ReadStats : event stats
  | DeleteItems (s : store) (keys : list pystr) : event (Z * Z)
  | SyncStoredHashes : event unit
  | DeleteParagraphs (pg_hashes : list pystr) (ent_hashes : option (list pystr))
      (remove_orphans : bool) : event kg_result
  | RebuildFaissIndex : event unit
  | SaveEmbeddings : event unit
  | SaveGraph : event unit.

Inductive level : Type := Error | Warning | Info | Print.

(** The lines [main] logs or prints, in source order, with the values
    they carry. *)
Inductive report : Type :=
  | NoSource
  | HashFileMissing (path : pystr)
  | OpenieFileMissing (path : pystr)
  | OpenieReadFailed (e : exn)
  | RawFileMissing (path : pystr)
  | RawNoParagraphs (path : pystr)
  | RawIndexNeeded (path : pystr) (n : Z)
  | RawIndexUnparsable (raw_index : pystr)
  | RawIndexInvalid (idx n : Z)
  | RawSelection
  | RawSelected (idx : Z) (h : pystr)
  | SearchTextEmpty
  | Searching (text : pystr)
  | SearchLoadFailed (e : exn)
  | SearchNoMatch
  | SearchCandidates
  | SearchCandidate (i : Z) (key : pystr)
  | ChoiceUnparsable
  | ChoiceIgnored (i : Z)
  | NothingToDelete
  | Preparing
  | BackupAdvice
  | ParagraphCount (n : Z)
  | KeySample (keys : list pystr)
  | EntityCount (n : Z)
  | RelationCount (n : Z)
  | TotalNodes (n : Z)
  | DryRunDone
  | ThresholdExceeded (total threshold : Z)
  | Cancelled
  | LoadFailed (e : exn)
  | StatsBefore (s : stats)
  | ParagraphVectorsDeleted (deleted skipped : Z)
  | EntityVectorsDeleted (deleted skipped : Z)
  | RelationVectorsDeleted (deleted skipped : Z)
  | GraphDeleted (r : kg_result)
  | Rebuilding
  | SavingGraph
  | StatsAfter (after before : stats)
  | Finished
  | NoticeRestart
  | NoticeHint.

Abbreviation script := (prog event (level * report)).

Definition log (l : level) (r : report) : script unit := tell (l, r).

(** [sys.exit(code)] *)
Definition exit {A} (code : Z) : script A := Halt (Exited code).

(** *** [main] *)

Section Main.

(** [get_sha256] of [src/chat/knowledge/utils/hash.py], [json.loads],
    [str(tuple(t))] and [int(s)] ([None] for a [ValueError]) are taken as
    given. *)
Variable get_sha256 : pystr → pystr.
Variable json_loads : pystr → result json.
Variable str_of_tuple : list json → pystr.
Variable int_of_str : pystr → option Z.

Definition non_empty (l : list pystr) : list pystr :=
  List.filter (λ x, negb (is_empty x)) l.

(** [read_hashes(file_path)] *)
Definition read_hashes (file_path : pystr) : script (list pystr) :=
  text ← call (ReadText file_path);
  mret (non_empty (strip <$> splitlines text)).

(** [data.get("docs", []) if isinstance(data, dict) else []] *)
Definition docs_of (data : json) : json :=
  match data with
  | JDict d => dict_get d (u "docs") (JList [])
  | _ => JList []
  end.

Definition doc_idx (doc : json) : option pystr :=
  match doc with
  | JDict d =>
    match d !! u "idx" with
    | Some (JStr idx) => if is_empty (strip idx) then None else Some (strip idx)
    | _ => None
    end
  | _ => None
  end.

(** [read_openie_hashes(file_path)] *)
Definition read_openie_hashes (file_path : pystr) : script (list pystr) :=
  text ← call (ReadText file_path);
  data ← lift (json_loads text);
  docs ← lift (iterate (docs_of data));
  mret (omap doc_idx (docs : list json)).

Definition str_items (l : list json) : list pystr :=
  omap (λ e, match e with JStr s => Some s | _ => None end) l.

(** The entities and relations one triple of an OpenIE document adds. *)
Definition triple_items (acc : list pystr * list pystr) (t : json)
  : list pystr * list pystr :=
  match t with
  | JList [subj; pred; obj] =>
    (acc.1 ++ str_items [subj] ++ str_items [obj],
     acc.2 ++ [str_of_tuple [subj; pred; obj]])
  | _ => acc
  end.

(** The entities and relations one OpenIE document adds. *)
Definition doc_items (acc : list pystr * list pystr) (doc : json)
  : list pystr * list pystr :=
  match doc with
  | JDict d =>
    let acc1 :=
      match dict_get d (u "extracted_entities") (JList []) with
      | JList ents => (acc.1 ++ str_items ents, acc.2)
      | _ => acc
      end in
    match dict_get d (u "extracted_triples") (JList []) with
    | JList triples => foldl triple_items acc1 triples
    | _ => acc1
    end
  | _ => acc
  end.

(** The body of the [try] that reads entities and relations. *)
Definition openie_items (text : result pystr) : result (list pystr * list pystr) :=
  t ← text;
  data ← json_loads t;
  docs ← iterate (docs_of data);
  mret (foldl doc_items ([], []) docs).

(** The paragraphs of a raw corpus: runs of lines between blank lines. *)
Definition close_paragraph (buf paragraphs : list pystr) : list pystr :=
  paragraphs ++ [strip (join [10%N] buf)].

Fixpoint split_paragraphs_from (lines buf paragraphs : list pystr) : list pystr :=
  match lines with
  | [] => if is_empty buf then paragraphs else close_paragraph buf paragraphs
  | line :: rest =>
    if is_empty (strip line) then
      if is_empty buf then split_paragraphs_from rest buf paragraphs
      else split_paragraphs_from rest [] (close_paragraph buf paragraphs)
    else split_paragraphs_from rest (buf ++ [line]) paragraphs
  end.

(** [[int(x.strip()) for x in s.split(",") if x.strip()]] *)
Definition parse_indices (s : pystr) : option (list Z) :=
  mapM int_of_str (non_empty (strip <$> split_char 44%N s)).

(** The candidates of [--search-text]: the loop stops as soon as the
    candidate list has reached the limit, tested after every item. *)
Fixpoint search_candidates (text : pystr) (limit : Z)
    (items candidates : list (pystr * pystr)) : list (pystr * pystr) :=
  match items with
  | [] => candidates
  | (key, str) :: rest =>
    let candidates' :=
      if contains text str then candidates ++ [(key, str)] else candidates in
    if len candidates' >=? limit then candidates'
    else search_candidates text limit rest candidates'
  end.

(** [enumerate(l, start=1)] *)
Definition enumerate1 {A} (l : list A) : list (Z * A) :=
  imap (λ i x, (Z.of_nat i + 1, x)) l.

(** [l[i]] for a non-negative [i], outside any [try]. *)
Definition item {A} (l : list A) (i : Z) : script A :=
  match l !! Z.to_nat i with
  | Some x => mret x
  | None => Halt (Crashed IndexError)
  end.

(** Lines 103 to 108: [--hash-file]. *)
Definition from_hash_file (args : Args) (raw_hashes : list pystr)
  : script (list pystr) :=
  if given (hash_file args) then
    let hash_file := default [] (hash_file args) in
    present ← call (PathExists hash_file);
    if negb present then log Error (HashFileMissing hash_file);; exit 1
    else hs ← read_hashes hash_file; mret (raw_hashes ++ hs)
  else mret raw_hashes.

(** Lines 110 to 139: [--openie-file]; the file is read once for the
    paragraphs and once more, inside [try], for entities and relations. *)
Definition from_openie_file (args : Args) (raw_hashes : list pystr)
  : script (list pystr * list pystr * list pystr) :=
  if given (openie_file args) then
    let openie_path := default [] (openie_file args) in
    present ← call (PathExists openie_path);
    if negb present then log Error (OpenieFileMissing openie_path);; exit 1
    else
      hs ← read_openie_hashes openie_path;
      text ← attempt (ReadText openie_path);
      match openie_items text with
      | Ok (raw_entities, raw_relations) =>
        mret (raw_hashes ++ hs, raw_entities, raw_relations)
      | Raise e => log Error (OpenieReadFailed e);; exit 1
      end
  else mret (raw_hashes, [], []).

(** Lines 142 to 185: [--raw-file] with [--raw-index]. *)
Definition from_raw_file (args : Args) (raw_hashes : list pystr)
  : script (list pystr) :=
  if given (raw_file args) then
    let raw_path := default [] (raw_file args) in
    present ← call (PathExists raw_path);
    if negb present then log Error (RawFileMissing raw_path);; exit 1
    else
      text ← call (ReadText raw_path);
      let paragraphs := split_paragraphs_from (splitlines text) [] [] in
      if is_empty paragraphs then log Error (RawNoParagraphs raw_path);; exit 1
      else if negb (given (raw_index args)) then
        log Info (RawIndexNeeded raw_path (len paragraphs));; exit 1
      else
        match parse_indices (default [] (raw_index args)) with
        | None =>
          log Error (RawIndexUnparsable (default [] (raw_index args)));; exit 1
        | Some idx_list =>
          for_each idx_list (λ idx _,
            if (idx <? 1) || (idx >? len paragraphs)
            then log Error (RawIndexInvalid idx (len paragraphs));; exit 1
            else mret tt) tt;;
          log Info RawSelection;;
          for_each idx_list (λ idx hs,
            para ← item paragraphs (idx - 1);
            let h := get_sha256 para in
            log Info (RawSelected idx h);;
            mret (hs ++ [h])) raw_hashes
        end
  else mret raw_hashes.

(** Lines 188 to 228: [--search-text], with a manager of its own. *)
Definition from_search_text (args : Args) (raw_hashes : list pystr)
  : script (list pystr) :=
  if given (search_text args) then
    let search_text := strip (default [] (search_text args)) in
    if is_empty search_text then log Error SearchTextEmpty;; exit 1
    else
      log Info (Searching search_text);;
      call (NewEmbeddingManager SearchManager);;
      loaded ← attempt (LoadEmbeddings SearchManager);
      match loaded with
      | Raise e => log Error (SearchLoadFailed e);; exit 1
      | Ok _ =>
        items ← call ParagraphItems;
        let candidates := search_candidates search_text (search_limit args) items [] in
        if is_empty candidates then log Info SearchNoMatch;; mret raw_hashes
        else
          log Info SearchCandidates;;
          for_each (enumerate1 candidates) (λ c _,
            log Info (SearchCandidate c.1 c.2.1)) tt;;
          answer ← call (Input AskChoice);
          let choice := strip answer in
          if is_empty choice then mret raw_hashes
          else
            match parse_indices choice with
            | None => log Error ChoiceUnparsable;; mret raw_hashes
            | Some idxs =>
              for_each idxs (λ i hs,
                if (1 <=? i) && (i <=? len candidates) then
                  c ← item candidates (i - 1);
                  if startswith paragraph_prefix c.1 then
                    h ← item (split_once paragraph_prefix c.1) 1;
                    mret (hs ++ [h])
                  else mret hs
                else log Warning (ChoiceIgnored i);; mret hs) raw_hashes
            end
      end
  else mret raw_hashes.

(** Lines 94 to 228: the identifiers read from the sources given. *)
Definition gather (args : Args) : script (list pystr * list pystr * list pystr) :=
  if negb (given (hash_file args) || given (openie_file args)
           || given (raw_file args) || given (search_text args))
  then log Error NoSource;; exit 1
  else
    raw_hashes ← from_hash_file args [];
    '(raw_hashes, raw_entities, raw_relations) ← from_openie_file args raw_hashes;
    raw_hashes ← from_raw_file args raw_hashes;
    raw_hashes ← from_search_text args raw_hashes;
    mret (raw_hashes, raw_entities, raw_relations).

(** Duplicates dropped, first occurrences kept, with the set [seen]. *)
Fixpoint dedup_from (seen : gset pystr) (l : list pystr) : list pystr :=
  match l with
  | [] => []
  | h :: rest =>
    if decide (h ∈ seen) then dedup_from seen rest
    else h :: dedup_from ({[h]} ∪ seen) rest
  end.

Definition ent_hashes_of (args : Args) (raw_entities : list pystr) : list pystr :=
  if delete_entities args && negb (is_empty raw_entities)
  then get_sha256 <$> raw_entities else [].

Definition rel_hashes_of (args : Args) (raw_relations : list pystr) : list pystr :=
  if delete_relations args && negb (is_empty raw_relations)
  then get_sha256 <$> raw_relations else [].

(** [total_nodes_to_delete] of line 256. *)
Definition total_nodes_to_delete (args : Args) (pg_hashes ent_hashes : list pystr) : Z :=
  len pg_hashes + (if delete_entities args then len ent_hashes else 0).

Definition when (b : bool) (p : script unit) : script unit :=
  if b then p else mret tt.

(** Lines 230 to 361: the count, the guards and the deletion. *)
Definition execute (args : Args) (raw : list pystr * list pystr * list pystr)
  : script unit :=
  let '(raw_hashes, raw_entities, raw_relations) := raw in
  let raw_hashes := dedup_from ∅ raw_hashes in
  if is_empty raw_hashes then log Error NothingToDelete;; exit 1
  else
    let '(keys, pg_hashes) := normalize_paragraph_keys raw_hashes in
    let ent_hashes := ent_hashes_of args raw_entities in
    let rel_hashes := rel_hashes_of args raw_relations in
    log Info Preparing;;
    log Info BackupAdvice;;
    log Info (ParagraphCount (len keys));;
    log Info (KeySample (take 5 keys));;
    when (negb (is_empty ent_hashes)) (log Info (EntityCount (len ent_hashes)));;
    when (negb (is_empty rel_hashes)) (log Info (RelationCount (len rel_hashes)));;
    let total := total_nodes_to_delete args pg_hashes ent_hashes in
    log Info (TotalNodes total);;
    if dry_run args then log Info DryRunDone;; Halt Returned
    else if (total >? max_delete_nodes args) && negb (yes args) then
      log Error (ThresholdExceeded total (max_delete_nodes args));; exit 1
    else
      (if negb (yes args) then
         answer ← call (Input AskConfirm);
         if decide (strip answer = u "YES") then mret tt
         else log Info Cancelled;; Halt Returned
       else mret tt);;
      call (NewEmbeddingManager DeleteManager);;
      call NewKGManager;;
      loaded ← (r ← attempt (LoadEmbeddings DeleteManager);
                match r with
                | Ok _ => attempt LoadGraph
                | Raise e => mret (Raise e)
                end);
      match loaded with
      | Raise e => log Error (LoadFailed e);; exit 1
      | Ok _ =>
        before ← call ReadStats;
        log Info (StatsBefore before);;
        counts ← call (DeleteItems Paragraphs keys);
        call SyncStoredHashes;;
        log Info (ParagraphVectorsDeleted counts.1 counts.2);;
        when (negb (is_empty ent_hashes))
          (counts ← call (DeleteItems Entities ((u "entity-" ++.) <$> ent_hashes));
           log Info (EntityVectorsDeleted counts.1 counts.2));;
        when (negb (is_empty rel_hashes))
          (counts ← call (DeleteItems Relations ((u "relation-" ++.) <$> rel_hashes));
           log Info (RelationVectorsDeleted counts.1 counts.2));;
        kg ← call (DeleteParagraphs pg_hashes
                     (if delete_entities args then Some ent_hashes else None)
                     (remove_orphan_entities args));
        log Info (GraphDeleted kg);;
        log Info Rebuilding;;
        call RebuildFaissIndex;;
        call SaveEmbeddings;;
        log Info SavingGraph;;
        call SaveGraph;;
        after ← call ReadStats;
        log Info (StatsAfter after before);;
        log Info Finished;;
        log Print NoticeRestart;;
        log Print NoticeHint
      end.

(** [main()], after [parser.parse_args()]. *)
Definition main (args : Args) : script unit :=
  raw ← gather args;
  execute args raw.

End Main.

End DeleteLpmmItems.

(** ** [src/chat/knowledge/ie_process.py]

    The logger calls are left out; the pause between two attempts is
    reported to the trace. *)

Module IeProcess.

(** One model request of an [LLMRequest] client.  The source first asks
    for the running event loop and submits the request to it, and falls
    back to [asyncio.run] on a [RuntimeError]. *)
Inductive event {LLMRequest : Type} : Type → Type :=
  | GetRunningLoop : event unit
  | SubmitToLoop (llm_req : LLMRequest) (prompt : pystr) : event (option pystr)
  | AsyncioRun (llm_req : LLMRequest) (prompt : pystr) : event (option pystr).
Arguments event : clear implicits.

(** [time.sleep(seconds)] *)
Inductive pause : Type := Sleep (seconds : Z).

Section IeProcess.

Variable LLMRequest : Type.

(** [issubclass(cls, RuntimeError)] for the class named [name]: which of
    the exception classes of the event loop and of the client derive from
    [RuntimeError] is taken as given. *)
Variable runtime_error_subclass : pystr → bool.

(** Modelled from the spec: the denylist [INVALID_ENTITY] is declared in
    the package's [__init__], which is not among the sources; it is taken
    as a list of placeholder entity strings. *)
Variable INVALID_ENTITY : list pystr.

(** [repair_json] of the [json_repair] package answers with a string or an
    object; [json.loads], [json.dumps] and the two prompt builders of
    [prompt_template] are taken as given. *)
Variable repair_json : pystr → result (pystr + json).
Variable json_loads : pystr → result json.
Variable json_dumps : list json → pystr.
Variable build_entity_extract_context : pystr → pystr.
Variable build_rdf_triple_extract_context : pystr → pystr → pystr.

Abbreviation job := (prog (event LLMRequest) pause).

(** The first steps of [_extract_json_from_text]: the repaired text,
    parsed when [repair_json] answered with a string. *)
Definition parse_repaired (text : pystr) : result json :=
  fixed_json ← repair_json text;
  match fixed_json with
  | inl s => json_loads s
  | inr v => Ok v
  end.

(** [_extract_json_from_text(text)] *)
Definition _extract_json_from_text (text : option pystr) : result json :=
  match text with
  | None => Ok (JList [])
  | Some text =>
    except
      (parsed_json ← parse_repaired text;
       match parsed_json with
       | JList l => Ok (JList l)
       | JDict d =>
         if (size d =? 1)%nat then
           match map_to_list d with
           | (_, value) :: _ =>
             if is_list value then Ok value else Ok (JDict d)
           | [] => Raise IndexError
           end
         else Ok (JDict d)
       | _ => Ok (JList [])
       end)
      (λ _, Ok (JList []))
  end.

(** [isinstance(e, RuntimeError)], the test of [except RuntimeError]: it
    holds of an instance of the class and of an instance of a subclass. *)
Definition is_runtime_error (e : exn) : bool :=
  match e with
  | RuntimeError => true
  | OtherError name => runtime_error_subclass name
  | _ => false
  end.

(** The request both extraction steps start with. *)
Definition generate (llm_req : LLMRequest) (prompt : pystr) : job (option pystr) :=
  catch (call GetRunningLoop;; call (SubmitToLoop llm_req prompt))
        (λ e, if is_runtime_error e then call (AsyncioRun llm_req prompt)
              else raise e).

(** A parsed answer that is no list: the first of [keys] under which a
    dict holds a list, [ValueError] otherwise. *)
Fixpoint list_under (keys : list pystr) (d : gmap pystr json) : result (list json) :=
  match keys with
  | [] => Raise ValueError
  | key :: rest =>
    match d !! key with
    | Some (JList l) => Ok l
    | _ => list_under rest d
    end
  end.

Definition as_list (keys : list pystr) (v : json) : result (list json) :=
  match v with
  | JList l => Ok l
  | JDict d => list_under keys d
  | _ => Raise ValueError
  end.

(** [(entity is not None) and (entity != "") and (entity not in INVALID_ENTITY)] *)
Definition valid_entity (entity : json) : bool :=
  match entity with
  | JNull => false
  | JStr s => negb (is_empty s) && negb (bool_decide (s ∈ INVALID_ENTITY))
  | _ => true
  end.

Definition entity_keys : list pystr :=
  [u "entities"; u "result"; u "data"; u "items"].

(** [_entity_extract] after the model has answered: parse, find the
    list, filter, and refuse an empty list. *)
Definition entities_of_response (response : option pystr) : result (list json) :=
  entity_extract_result ← _extract_json_from_text response;
  entity_extract_result ← as_list entity_keys entity_extract_result;
  let entity_extract_result := List.filter valid_entity entity_extract_result in
  if is_empty entity_extract_result then Raise ValueError
  else Ok entity_extract_result.

(** [_entity_extract(llm_req, paragraph)] *)
Definition _entity_extract (llm_req : LLMRequest) (paragraph : pystr)
  : job (list json) :=
  let entity_extract_context := build_entity_extract_context paragraph in
  response ← generate llm_req entity_extract_context;
  lift (entities_of_response response).

(** [next((entity for entity in entities if test(entity)), None)] for a
    test on strings, which raises on an entity that is no string. *)
Fixpoint first_entity (test : pystr → bool) (entities : list json)
  : result (option pystr) :=
  match entities with
  | [] => Ok None
  | JStr s :: rest => if test s then Ok (Some s) else first_entity test rest
  | _ :: _ => Raise TypeError
  end.

Definition relation_candidates : list pystr :=
  [u "是"; u "意味着"; u "代表"; u "属于"; u "指"; u "体现"].

(** The relation word the remainder starts with and what follows it;
    [relation] when no candidate matches. *)
Fixpoint pick_relation (candidates : list pystr) (relation remainder : pystr)
  : pystr * pystr :=
  match candidates with
  | [] => (relation, remainder)
  | rel :: rest =>
    if startswith rel remainder
    then (rel, slice_from (len rel) remainder)
    else pick_relation rest relation remainder
  end.

(** [re.split(r"[...]", s, maxsplit=1)] for a class of characters. *)
Fixpoint re_split_once_from (class : list N) (cur s : pystr) : list pystr :=
  match s with
  | [] => [cur]
  | c :: s' =>
    if mem c class then [cur; s'] else re_split_once_from class (cur ++ [c]) s'
  end.

Definition subject_separators : list N := u "：: ，, 、" ++ [12288%N].
Definition sentence_terminators : list N := u "。；;！!".
Definition object_trim : list N := u "：: ，, 「」『』“”'" ++ [34%N].
Definition object_tail_trim : list N := u "，, 的".
Definition max_object_len : nat := 120.

(** [_fallback_rdf_triples(paragraph, entities)] *)
Definition _fallback_rdf_triples (paragraph : pystr) (entities : list json)
  : result (list json) :=
  let text := strip (replace [65279%N] [] (-1) paragraph) in
  if is_empty text || is_empty entities then Ok []
  else
    subject ← first_entity (λ entity, startswith entity text) entities;
    subject ← match subject with
              | None => first_entity (λ entity, contains entity text) entities
              | Some _ => Ok subject
              end;
    match subject with
    | None => Ok []
    | Some subject =>
      let subject_index := find subject text in
      let remainder :=
        lstrip_chars subject_separators
          (slice_from (subject_index + len subject) text) in
      if is_empty remainder then Ok []
      else
        let '(relation, remainder) :=
          pick_relation relation_candidates (u "是") remainder in
        let sentence_split := re_split_once_from sentence_terminators [] remainder in
        let object_text := strip_chars object_trim (default [] (head sentence_split)) in
        if is_empty object_text then Ok []
        else
          let object_text :=
            if len object_text >? Z.of_nat max_object_len
            then rstrip_chars object_tail_trim (slice_to max_object_len object_text)
            else object_text in
          Ok [JList [JStr subject; JStr relation; JStr object_text]]
    end.

(** The test of the validation loop of [_rdf_triple_extract]: a list of 3
    items, none of them [None], none of them equal to [""]. *)
Definition not_none (v : json) : bool :=
  match v with JNull => false | _ => true end.

Definition is_empty_str (v : json) : bool :=
  match v with JStr [] => true | _ => false end.

Definition valid_triple (triple : json) : bool :=
  match triple with
  | JList [s; p; o] =>
    not_none s && not_none p && not_none o
    && negb (existsb is_empty_str [s; p; o])
  | _ => false
  end.

Definition triple_keys : list pystr :=
  [u "triples"; u "result"; u "data"; u "items"].

(** [_rdf_triple_extract] after the model has answered: parse, find the
    list, fall back on the rule when it is empty, and validate. *)
Definition triples_of_response (paragraph : pystr) (entities : list json)
    (response : option pystr) : result (list json) :=
  rdf_triple_result ← _extract_json_from_text response;
  rdf_triple_result ← as_list triple_keys rdf_triple_result;
  rdf_triple_result ←
    (if is_empty rdf_triple_result then
       fallback_triples ← _fallback_rdf_triples paragraph entities;
       if is_empty fallback_triples then Raise ValueError
       else Ok fallback_triples
     else Ok rdf_triple_result);
  if forallb valid_triple rdf_triple_result then Ok rdf_triple_result
  else Raise ValueError.

(** [_rdf_triple_extract(llm_req, paragraph, entities)] *)
Definition _rdf_triple_extract (llm_req : LLMRequest) (paragraph : pystr)
    (entities : list json) : job (list json) :=
  let rdf_extract_context :=
    build_rdf_triple_extract_context paragraph (json_dumps entities) in
  response ← generate llm_req rdf_extract_context;
  lift (triples_of_response paragraph entities response).

(** One [while True] loop of [info_extract_from_str], entered with
    [try_count]: [Some x] when an attempt succeeded with [x], [None] when
    the loop gave up.  The outer [None] is a loop cut short by [fuel]. *)
Fixpoint retry_loop {A} (fuel : nat) (try_count : Z) (attempt_once : job A)
  : job (option (option A)) :=
  match fuel with
  | O => mret None
  | S fuel' =>
    r ← catch (x ← attempt_once; mret (Some x)) (λ _, mret None);
    match r with
    | Some x => mret (Some (Some x))
    | None =>
      let try_count := try_count + 1 in
      if try_count <? 3 then
        tell (Sleep 5);; retry_loop fuel' try_count attempt_once
      else mret (Some None)
    end
  end.

(** [info_extract_from_str(llm_client_for_ner, llm_client_for_rdf, paragraph)];
    the result is the returned pair, [None] when [fuel] was too small. *)
Definition info_extract_from_str (fuel : nat)
    (llm_client_for_ner llm_client_for_rdf : LLMRequest) (paragraph : pystr)
  : job (option (option (list json) * option (list json))) :=
  ner ← retry_loop fuel 0 (_entity_extract llm_client_for_ner paragraph);
  match ner with
  | None => mret None
  | Some None => mret (Some (None, None))
  | Some (Some entity_extract_result) =>
    rdf ← retry_loop fuel 0
            (_rdf_triple_extract llm_client_for_rdf paragraph entity_extract_result);
    match rdf with
    | None => mret None
    | Some None => mret (Some (None, None))
    | Some (Some rdf_triple_extract_result) =>
      mret (Some (Some entity_extract_result, Some rdf_triple_extract_result))
    end
  end.

End IeProcess.

End IeProcess.

(** ** [src/bw_learner/message_recorder.py] *)

Module MessageRecorder.

Section Recorder.

(** Timestamps are floats the recorder only stores. *)
Variable Time : Type.

(** [time.time()], read when a message carries no [time]. *)
Variable now : Time.

(** [Person(platform, user_id).person_name]: the constructor of
    [src/person_info/person_info.py] may raise, and the name may be
    [None]. *)
Variable Person : pystr → pystr → result (option pystr).

Record PersonInfo : Type := {
  user_id : pystr;
  user_platform : pystr;
  user_nickname : pystr;
  user_cardname : option pystr;
  person_name : pystr;
  last_seen_time : Time }.

(** The sender attributes of a [user_info] object or of a flat message;
    [None] stands for a missing attribute as for [None]. *)
Record Sender : Type := {
  sender_id : option pystr;
  sender_platform : option pystr;
  sender_nickname : option pystr;
  sender_cardname : option pystr }.

(** A message either has a [user_info] attribute or carries the sender
    attributes itself (there the platform is [user_platform]). *)
Inductive Message : Type :=
  | DatabaseMessages (user_info : Sender) (time : option Time)
  | FlatMessage (sender : Sender) (time : option Time).

Definition sender_of (msg : Message) : Sender :=
  match msg with
  | DatabaseMessages user_info _ => user_info
  | FlatMessage sender _ => sender
  end.

Definition time_of (msg : Message) : Time :=
  match msg with
  | DatabaseMessages _ time | FlatMessage _ time => default now time
  end.

(** [a or b] on strings *)
Definition or_str (a b : pystr) : pystr := if is_empty a then b else a.

(** [user_cardname if user_cardname else "未知用户"] *)
Definition cardname_or_unknown (user_cardname : option pystr) : pystr :=
  match user_cardname with
  | Some (c :: s) => c :: s
  | _ => u "未知用户"
  end.

(** The [OrderedDict] of participants: keys in order, oldest first, each
    key at most once. *)
Definition person_dict : Type := list (pystr * PersonInfo).

(** The recorder, reduced to the two fields [_update_person_list] uses. *)
Record recorder : Type := {
  _person_list : person_dict;
  _max_person_count : Z }.

(** [__init__]: no participant, room for 30. *)
Definition init : recorder :=
  {| _person_list := []; _max_person_count := 30 |}.

(** [key in d] *)
Definition has_key (key : pystr) (d : person_dict) : bool :=
  bool_decide (key ∈ d.*1).

(** [d[key].last_seen_time = t] *)
Definition touch (key : pystr) (t : Time) (d : person_dict) : person_dict :=
  (λ kv : pystr * PersonInfo,
     if decide (kv.1 = key)
     then (kv.1, {| user_id := user_id kv.2;
                    user_platform := user_platform kv.2;
                    user_nickname := user_nickname kv.2;
                    user_cardname := user_cardname kv.2;
                    person_name := person_name kv.2;
                    last_seen_time := t |})
     else kv) <$> d.

(** [del d[key]] *)
Fixpoint del (key : pystr) (d : person_dict) : person_dict :=
  match d with
  | [] => []
  | kv :: rest => if decide (kv.1 = key) then rest else kv :: del key rest
  end.

(** The value under [key]. *)
Fixpoint get (key : pystr) (d : person_dict) : option PersonInfo :=
  match d with
  | [] => None
  | kv :: rest => if decide (kv.1 = key) then Some kv.2 else get key rest
  end.

(** [d.move_to_end(key)] for a key of [d] *)
Definition move_to_end (key : pystr) (d : person_dict) : person_dict :=
  match get key d with
  | Some v => del key d ++ [(key, v)]
  | None => d
  end.

(** The body of the loop of [_update_person_list] for one message. *)
Definition update_person (self : recorder) (msg : Message) : result recorder :=
  let sender := sender_of msg in
  let user_id := default [] (sender_id sender) in
  let user_platform := default [] (sender_platform sender) in
  let user_nickname := default [] (sender_nickname sender) in
  let user_cardname := sender_cardname sender in
  let msg_time := time_of msg in
  if is_empty user_id || is_empty user_platform then Ok self
  else
    let person_name :=
      match Person user_platform user_id with
      | Ok name =>
        or_str (default [] name)
          (or_str user_nickname (cardname_or_unknown user_cardname))
      | Raise _ => or_str user_nickname (cardname_or_unknown user_cardname)
      end in
    let unique_key := user_platform ++ u ":" ++ user_id in
    let d := _person_list self in
    if has_key unique_key d then
      Ok {| _person_list := move_to_end unique_key (touch unique_key msg_time d);
            _max_person_count := _max_person_count self |}
    else
      d ← (if len d >=? _max_person_count self then
             match d with
             | (oldest_key, _) :: _ => Ok (del oldest_key d)
             | [] => Raise StopIteration
             end
           else Ok d);
      let person_info :=
        {| user_id := user_id;
           user_platform := user_platform;
           user_nickname := or_str user_nickname [];
           user_cardname := user_cardname;
           person_name := person_name;
           last_seen_time := msg_time |} in
      Ok {| _person_list := d ++ [(unique_key, person_info)];
            _max_person_count := _max_person_count self |}.

(** [_update_person_list(messages)] *)
Fixpoint _update_person_list (self : recorder) (messages : list Message)
  : result recorder :=
  match messages with
  | [] => Ok self
  | msg :: rest =>
    self ← update_person self msg;
    _update_person_list self rest
  end.

(** The recorder after a sequence of batches, starting from [__init__]. *)
Fixpoint after_batches (self : recorder) (batches : list (list Message))
  : result recorder :=
  match batches with
  | [] => Ok self
  | messages :: rest =>
    self ← _update_person_list self messages;
    after_batches self rest
  end.

End Recorder.

Section Names.

Context {Time : Type}.

(** [str.lower], taken as given. *)
Variable lower : pystr → pystr.

(** One of the three tests of the loop of [contains_person_name]: the
    name is there, and what [name.strip().lower()] gives is not empty and
    occurs in [content_lower]. *)
Definition name_in (content_lower name : pystr) : bool :=
  negb (is_empty name)
  && (let name_lower := lower (strip name) in
      negb (is_empty name_lower) && contains name_lower content_lower).

(** The body of the loop for one participant: [person_name], then
    [user_nickname], then [user_cardname]. *)
Definition mentions (content_lower : pystr) (person_info : PersonInfo Time)
  : bool :=
  name_in content_lower (person_name Time person_info)
  || name_in content_lower (user_nickname Time person_info)
  || match user_cardname Time person_info with
     | Some cardname => name_in content_lower cardname
     | None => false
     end.

(** [contains_person_name(content)] *)
Definition contains_person_name (self : recorder Time) (content : pystr) : bool :=
  if is_empty content || is_empty (_person_list Time self) then false
  else
    let content_lower := lower (strip content) in
    if is_empty content_lower then false
    else existsb (λ kv, mentions content_lower kv.2) (_person_list Time self).

End Names.

End MessageRecorder.

(** ** [src/llm_models/model_performance_cache.py] *)

Module ModelPerformanceCache.

Section Load.

(** [json.load] on the text of the opened file. *)
Variable json_load : pystr → result json.

(** The disk as [_load] sees it: [os.path.exists] and the outcome of
    opening and reading a path. *)
Record disk : Type := {
  exists_ : pystr → bool;
  read : pystr → result pystr }.

(** The inner loop of [_load]: the models of one cache key whose
    metrics are a dict. *)
Definition convert_models (cache_value : gmap pystr json)
  : gmap pystr (gmap pystr json) :=
  map_fold (λ model_name metrics converted,
              match metrics with
              | JDict m => <[model_name := m]> converted
              | _ => converted
              end) ∅ cache_value.

(** The outer loop of [_load]. *)
Definition convert (data : gmap pystr json)
  : gmap pystr (gmap pystr (gmap pystr json)) :=
  map_fold (λ cache_key cache_value converted,
              match cache_value with
              | JDict d => <[cache_key := convert_models d]> converted
              | _ => converted
              end) ∅ data.

(** [ModelPerformanceCache._load] for the cache at [cache_path]. *)
Definition _load (fs : disk) (cache_path : pystr)
  : result (gmap pystr (gmap pystr (gmap pystr json))) :=
  if negb (exists_ fs cache_path) then Ok ∅
  else
    except
      (text ← read fs cache_path;
       data ← json_load text;
       match data with
       | JDict d => Ok (convert d)
       | _ => Ok ∅
       end)
      (λ _, Ok ∅).

End Load.

(** The calls of [_flush_locked] and [_mark_dirty_locked] into the file
    system and the clock: [open(path, "w")], [json.dump] into the opened
    file, leaving the [with] block, [os.replace], [os.path.exists],
    [os.remove] and [time.time()]. *)
Inductive event {Time : Type} : Type → Type :=
  | OpenWrite (path : pystr) : event unit
  | JsonDump (data : gmap pystr (gmap pystr (gmap pystr json))) : event unit
  | CloseFile : event unit
  | Replace (src dst : pystr) : event unit
  | PathExists (path : pystr) : event bool
  | Remove (path : pystr) : event unit
  | TimeNow : event Time.
Arguments event : clear implicits.

Section Flush.

(** Timestamps are floats the cache stores and compares. *)
Variable Time : Type.

(** [now - last_dump_ts >= 5] *)
Variable due : Time → Time → bool.

(** [isinstance(e, OSError)] *)
Variable is_oserror : exn → bool.

(** The fields of a [ModelPerformanceCache]. *)
Record cache : Type := {
  cache_path : pystr;
  _data : gmap pystr (gmap pystr (gmap pystr json));
  _last_dump_ts : Time;
  _dirty : bool }.

Abbreviation io := (prog (event Time) Empty_set).

(** The [except Exception] of [_flush_locked]: the temporary file is
    removed when it is there, an [OSError] of the removal is passed
    over. *)
Definition cleanup (tmp_path : pystr) (self : cache) : io cache :=
  present ← call (PathExists tmp_path);
  if present : bool then
    removed ← attempt (Remove tmp_path);
    match removed with
    | Ok _ => mret self
    | Raise e => if is_oserror e then mret self else raise e
    end
  else mret self.

(** [_flush_locked()]: the cache after the call.  An exception inside the
    [with] block is raised after the file has been closed. *)
Definition _flush_locked (self : cache) : io cache :=
  if negb (_dirty self) then mret self
  else
    let tmp_path := cache_path self ++ u ".tmp" in
    opened ← attempt (OpenWrite tmp_path);
    match opened with
    | Raise _ => cleanup tmp_path self
    | Ok _ =>
      dumped ← attempt (JsonDump (_data self));
      closed ← attempt CloseFile;
      match dumped, closed with
      | Ok _, Ok _ =>
        replaced ← attempt (Replace tmp_path (cache_path self));
        match replaced with
        | Raise _ => cleanup tmp_path self
        | Ok _ =>
          let self := {| cache_path := cache_path self; _data := _data self;
                         _last_dump_ts := _last_dump_ts self;
                         _dirty := false |} in
          stamp ← attempt TimeNow;
          match stamp with
          | Raise _ => cleanup tmp_path self
          | Ok t =>
            mret {| cache_path := cache_path self; _data := _data self;
                    _last_dump_ts := t; _dirty := _dirty self |}
          end
        end
      | _, _ => cleanup tmp_path self
      end
    end.

(** [flush()], the lock left out. *)
Definition flush (self : cache) : io cache := _flush_locked self.

(** [_mark_dirty_locked()] *)
Definition _mark_dirty_locked (self : cache) : io cache :=
  let self := {| cache_path := cache_path self; _data := _data self;
                 _last_dump_ts := _last_dump_ts self; _dirty := true |} in
  now ← call TimeNow;
  if due now (_last_dump_ts self) then _flush_locked self else mret self.

End Flush.

(** The entry [_get_or_create_entry] creates. *)
Definition new_entry : gmap pystr json :=
  {[ u "avg_latency" := JFloat 0; u "last_latency" := JFloat 0;
     u "success_count" := JInt 0; u "fail_count" := JInt 0;
     u "consecutive_failures" := JInt 0; u "last_call_ts" := JFloat 0;
     u "last_success_ts" := JFloat 0; u "last_fail_ts" := JFloat 0;
     u "last_error" := JStr [] ]}.

(** [_get_or_create_entry(cache_key, model_name)]: the data after the
    call and the entry returned. *)
Definition _get_or_create_entry (data : gmap pystr (gmap pystr (gmap pystr json)))
    (cache_key model_name : pystr)
  : gmap pystr (gmap pystr (gmap pystr json)) * gmap pystr json :=
  let stats := default ∅ (data !! cache_key) in
  match stats !! model_name with
  | Some entry => (<[cache_key := stats]> data, entry)
  | None =>
    (<[cache_key := <[model_name := new_entry]> stats]> data, new_entry)
  end.

(** [get_stats(cache_key)] *)
Definition get_stats (data : gmap pystr (gmap pystr (gmap pystr json)))
    (cache_key : pystr) : gmap pystr (gmap pystr json) :=
  default ∅ (data !! cache_key).

End ModelPerformanceCache.

(** ** A sample outside

    Concrete collaborators on which the statements below are exercised:
    a model client that answers from a script, and a repairing parser that
    knows a handful of texts. *)

Module Sample.

Definition cat : pystr := u "猫".
Definition animal : pystr := u "动物".

(** The paragraph, the entities and the triple of the fallback example. *)
Definition cat_paragraph : pystr := u "猫：是一种常见的宠物动物。".
Definition cat_entities : list json := [JStr cat; JStr animal].
Definition cat_triples : list json :=
  [JList [JStr cat; JStr (u "是"); JStr (u "一种常见的宠物动物")]].

(** The parser: a few answers it recovers an object from; from anything
    else it recovers nothing and hands back the empty string. *)
Definition repair_json (s : pystr) : result (pystr + json) :=
  if decide (s = u "[猫, 动物]") then Ok (inr (JList [JStr cat; JStr animal]))
  else if decide (s = u "[[猫, 是, 动物]]")
  then Ok (inr (JList [JList [JStr cat; JStr (u "是"); JStr animal]]))
  else if decide (s = u "[[猫, 是, 动物], [猫, 是]]")
  then Ok (inr (JList [JList [JStr cat; JStr (u "是"); JStr animal];
                       JList [JStr cat; JStr (u "是")]]))
  else if decide (s = u "[[1, 2, 3]]")
  then Ok (inr (JList [JList [JInt 1; JInt 2; JInt 3]]))
  else if decide (s = u "[]") then Ok (inr (JList []))
  else if decide (s = u "[猫, 它, null]")
  then Ok (inr (JList [JStr cat; JStr (u "它"); JNull]))
  else if decide (s = u "[它, null]")
  then Ok (inr (JList [JStr (u "它"); JNull]))
  else if decide (s = u "{entities: [猫]}")
  then Ok (inr (JDict {[ u "entities" := JList [JStr cat] ]}))
  else Ok (inl []).

(** [json.loads] on what is left: the empty string does not parse. *)
Definition json_loads (s : pystr) : result json := Raise ValueError.

Definition json_dumps (l : list json) : pystr := u "entities".
Definition entity_prompt (paragraph : pystr) : pystr := u "ner: " ++ paragraph.
Definition rdf_prompt (paragraph entities : pystr) : pystr :=
  u "rdf: " ++ paragraph ++ entities.

Definition INVALID_ENTITY : list pystr := [u "它"; u "他"; u "她"].

(** The subclasses of [RuntimeError] among the built-in exceptions. *)
Definition runtime_error_subclass (name : pystr) : bool :=
  bool_decide (name ∈ [u "NotImplementedError"; u "RecursionError"]).

(** The scripted client: no event loop is running, and each request takes
    the next answer of the script; a finished script times out. *)
Definition llm_script : Type := list (result (option pystr)).

Definition llm_answer (X : Type) (e : IeProcess.event unit X) (w : llm_script)
  : result X * llm_script :=
  match e in IeProcess.event _ X return result X * llm_script with
  | IeProcess.GetRunningLoop => (Raise RuntimeError, w)
  | IeProcess.SubmitToLoop _ _ => (Raise RuntimeError, w)
  | IeProcess.AsyncioRun _ _ =>
    match w with
    | r :: w' => (r, w')
    | [] => (Raise (OtherError (u "TimeoutError")), [])
    end
  end.

Definition says (s : string) : result (option pystr) := Ok (Some (u s)).

Definition garbage : result (option pystr) := says "garbage".

(** The calls of one attempt that was answered with [r]. *)
Definition attempt_trace (prompt : pystr) (r : result (option pystr))
  : list (entry (IeProcess.event unit) IeProcess.pause) :=
  [Called IeProcess.GetRunningLoop (Raise RuntimeError);
   Called (IeProcess.AsyncioRun tt prompt) r].

Definition cat_is_animal : json := JList [JStr cat; JStr (u "是"); JStr animal].

(** A cache file with one well-formed entry and one entry that is no
    dict, a file that does not parse, and a file that holds a list. *)
Definition metrics : gmap pystr json := {[ u "success_count" := JInt 2 ]}.

Definition cache_document : json :=
  JDict {[ u "chat" := JDict {[ u "model-a" := JDict metrics;
                                 u "model-b" := JInt 7 ]};
           u "stale" := JStr (u "n/a") ]}.

Definition json_load (text : pystr) : result json :=
  if decide (text = u "cache") then Ok cache_document
  else if decide (text = u "list") then Ok (JList [])
  else Raise ValueError.

Definition disk_with (text : option pystr) : ModelPerformanceCache.disk :=
  {| ModelPerformanceCache.exists_ := λ _, bool_decide (is_Some text);
     ModelPerformanceCache.read := λ _,
       match text with
       | Some t => Ok t
       | None => Raise (OtherError (u "FileNotFoundError"))
       end |}.

(** A chat whose participants are numbered: participant [i] writes at
    time [i]; nobody has a stored name. *)
Definition no_person (platform user_id : pystr) : result (option pystr) := Ok None.

Definition user (i : nat) : pystr := [N.of_nat (1000 + i)].

Definition key (i : nat) : pystr := u "qq:" ++ user i.

Definition message (i : nat) : MessageRecorder.Message Z :=
  MessageRecorder.FlatMessage Z
    {| MessageRecorder.sender_id := Some (user i);
       MessageRecorder.sender_platform := Some (u "qq");
       MessageRecorder.sender_nickname := Some (u "nick");
       MessageRecorder.sender_cardname := None |}
    (Some (Z.of_nat i)).

Definition person (i : nat) (seen_at : Z) : MessageRecorder.PersonInfo Z :=
  {| MessageRecorder.user_id := user i;
     MessageRecorder.user_platform := u "qq";
     MessageRecorder.user_nickname := u "nick";
     MessageRecorder.user_cardname := None;
     MessageRecorder.person_name := u "nick";
     MessageRecorder.last_seen_time := seen_at |}.

(** The recorder after participants 0 to 29 have written, in order. *)
Definition full_house : MessageRecorder.recorder Z :=
  {| MessageRecorder._person_list := (λ i, (key i, person i (Z.of_nat i))) <$> seq 0 30;
     MessageRecorder._max_person_count := 30 |}.

(** A disk, a console and a store of paragraphs for [main]; stand-ins for
    the hash and for [int] on decimal digits. *)
Record outside : Type := {
  files : list (pystr * pystr);
  console : list pystr;
  stored : list (pystr * pystr) }.

Definition sha (s : pystr) : pystr := u "sha:" ++ s.
Definition no_json (s : pystr) : result json := Raise ValueError.
Definition tuple_text (t : list json) : pystr := u "(...)".

Fixpoint decimal (acc : Z) (s : pystr) : option Z :=
  match s with
  | [] => Some acc
  | c :: s' =>
    if ((48 <=? c) && (c <=? 57))%N
    then decimal (10 * acc + Z.of_N (c - 48)) s'
    else None
  end.

Definition int_of_str (s : pystr) : option Z :=
  if is_empty s then None else decimal 0 s.

Fixpoint file_text (path : pystr) (fs : list (pystr * pystr)) : option pystr :=
  match fs with
  | [] => None
  | (p, text) :: rest => if decide (p = path) then Some text else file_text path rest
  end.

Definition no_stats : DeleteLpmmItems.stats :=
  {| DeleteLpmmItems.para_vec := 0; DeleteLpmmItems.ent_vec := 0;
     DeleteLpmmItems.rel_vec := 0; DeleteLpmmItems.kg_nodes := 0;
     DeleteLpmmItems.kg_edges := 0 |}.

Definition main_answer (X : Type) (e : DeleteLpmmItems.event X) (w : outside)
  : result X * outside :=
  match e in DeleteLpmmItems.event X return result X * outside with
  | DeleteLpmmItems.PathExists path =>
    (Ok (bool_decide (is_Some (file_text path (files w)))), w)
  | DeleteLpmmItems.ReadText path =>
    (match file_text path (files w) with
     | Some text => Ok text
     | None => Raise (OtherError (u "FileNotFoundError"))
     end, w)
  | DeleteLpmmItems.Input _ =>
    match console w with
    | line :: rest =>
      (Ok line, {| files := files w; console := rest; stored := stored w |})
    | [] => (Raise (OtherError (u "EOFError")), w)
    end
  | DeleteLpmmItems.NewEmbeddingManager _ => (Ok tt, w)
  | DeleteLpmmItems.NewKGManager => (Ok tt, w)
  | DeleteLpmmItems.LoadEmbeddings _ => (Ok tt, w)
  | DeleteLpmmItems.LoadGraph => (Ok tt, w)
  | DeleteLpmmItems.ParagraphItems => (Ok (stored w), w)
  | DeleteLpmmItems.ReadStats => (Ok no_stats, w)
  | DeleteLpmmItems.DeleteItems _ keys =>
    (Ok (0, len keys),
     {| files := files w; console := console w;
        stored := List.filter (λ kv, negb (bool_decide (kv.1 ∈ keys))) (stored w) |})
  | DeleteLpmmItems.SyncStoredHashes => (Ok tt, w)
  | DeleteLpmmItems.DeleteParagraphs pg_hashes _ _ =>
    (Ok {| DeleteLpmmItems.kg_deleted := 0;
           DeleteLpmmItems.kg_skipped := len pg_hashes;
           DeleteLpmmItems.kg_orphan_removed := 0 |}, w)
  | DeleteLpmmItems.RebuildFaissIndex => (Ok tt, w)
  | DeleteLpmmItems.SaveEmbeddings => (Ok tt, w)
  | DeleteLpmmItems.SaveGraph => (Ok tt, w)
  end.

(** Three identifiers in a file, three paragraphs about cats in the
    store, and a user who picks all three. *)
Definition three_ids : pystr := u "a" ++ [10%N] ++ u "b" ++ [10%N] ++ u "paragraph-c".

Definition house : outside :=
  {| files := [(u "ids.txt", three_ids)];
     console := [u "1,2,3"];
     stored := [(u "paragraph-1", u "猫是动物"); (u "paragraph-2", u "猫吃鱼");
                (u "paragraph-3", u "黑猫")] |}.

(** What gathering from [ids.txt] leaves in the trace. *)
Definition reads_ids
  : list (entry DeleteLpmmItems.event (DeleteLpmmItems.level * DeleteLpmmItems.report)) :=
  [Called (DeleteLpmmItems.PathExists (u "ids.txt")) (Ok true);
   Called (DeleteLpmmItems.ReadText (u "ids.txt")) (Ok three_ids)].

(** [--hash-file ids.txt --max-delete-nodes 2], then the same as a dry
    run, and [--search-text 猫 --max-delete-nodes 2]. *)
Definition by_file : DeleteLpmmItems.Args :=
  {| DeleteLpmmItems.hash_file := Some (u "ids.txt");
     DeleteLpmmItems.openie_file := None;
     DeleteLpmmItems.raw_file := None;
     DeleteLpmmItems.raw_index := None;
     DeleteLpmmItems.search_text := None;
     DeleteLpmmItems.search_limit := 10;
     DeleteLpmmItems.delete_entities := false;
     DeleteLpmmItems.delete_relations := false;
     DeleteLpmmItems.remove_orphan_entities := false;
     DeleteLpmmItems.dry_run := false;
     DeleteLpmmItems.yes := false;
     DeleteLpmmItems.max_delete_nodes := 2 |}.

Definition by_file_dry : DeleteLpmmItems.Args :=
  {| DeleteLpmmItems.hash_file := Some (u "ids.txt");
     DeleteLpmmItems.openie_file := None;
     DeleteLpmmItems.raw_file := None;
     DeleteLpmmItems.raw_index := None;
     DeleteLpmmItems.search_text := None;
     DeleteLpmmItems.search_limit := 10;
     DeleteLpmmItems.delete_entities := false;
     DeleteLpmmItems.delete_relations := false;
     DeleteLpmmItems.remove_orphan_entities := false;
     DeleteLpmmItems.dry_run := true;
     DeleteLpmmItems.yes := false;
     DeleteLpmmItems.max_delete_nodes := 2 |}.

Definition by_search : DeleteLpmmItems.Args :=
  {| DeleteLpmmItems.hash_file := None;
     DeleteLpmmItems.openie_file := None;
     DeleteLpmmItems.raw_file := None;
     DeleteLpmmItems.raw_index := None;
     DeleteLpmmItems.search_text := Some cat;
     DeleteLpmmItems.search_limit := 10;
     DeleteLpmmItems.delete_entities := false;
     DeleteLpmmItems.delete_relations := false;
     DeleteLpmmItems.remove_orphan_entities := false;
     DeleteLpmmItems.dry_run := false;
     DeleteLpmmItems.yes := false;
     DeleteLpmmItems.max_delete_nodes := 2 |}.

End Sample.

(** Further runs: a wide threshold and a user who agrees, a raw corpus of
    two paragraphs, a participant who writes again under another
    nickname, and the data of a cache. *)
Module MoreSample.

Import Sample.

Definition by_file_wide : DeleteLpmmItems.Args :=
  {| DeleteLpmmItems.hash_file := Some (u "ids.txt");
     DeleteLpmmItems.openie_file := None;
     DeleteLpmmItems.raw_file := None;
     DeleteLpmmItems.raw_index := None;
     DeleteLpmmItems.search_text := None;
     DeleteLpmmItems.search_limit := 10;
     DeleteLpmmItems.delete_entities := false;
     DeleteLpmmItems.delete_relations := false;
     DeleteLpmmItems.remove_orphan_entities := false;
     DeleteLpmmItems.dry_run := false;
     DeleteLpmmItems.yes := false;
     DeleteLpmmItems.max_delete_nodes := 2000 |}.

Definition willing_house : outside :=
  {| files := files house; console := [u " YES "]; stored := stored house |}.

(** The user picks the second candidate, a ninth that is not there, and
    the first. *)
Definition choosy_house : outside :=
  {| files := files house; console := [u "2, 9, 1"]; stored := stored house |}.

Definition quiet_house : outside :=
  {| files := files house; console := []; stored := stored house |}.

Definition corpus : pystr :=
  u "猫是动物" ++ [10%N] ++ [10%N] ++ u "猫吃鱼" ++ [10%N] ++ u "黑猫" ++ [10%N].

Definition library : outside :=
  {| files := [(u "corpus.txt", corpus)]; console := []; stored := [] |}.

Definition by_raw : DeleteLpmmItems.Args :=
  {| DeleteLpmmItems.hash_file := None;
     DeleteLpmmItems.openie_file := None;
     DeleteLpmmItems.raw_file := Some (u "corpus.txt");
     DeleteLpmmItems.raw_index := Some (u "2, 1");
     DeleteLpmmItems.search_text := None;
     DeleteLpmmItems.search_limit := 10;
     DeleteLpmmItems.delete_entities := false;
     DeleteLpmmItems.delete_relations := false;
     DeleteLpmmItems.remove_orphan_entities := false;
     DeleteLpmmItems.dry_run := false;
     DeleteLpmmItems.yes := false;
     DeleteLpmmItems.max_delete_nodes := 2000 |}.

(** [str.lower] on the letters A to Z. *)
Definition lower (s : pystr) : pystr :=
  (λ c, if ((65 <=? c) && (c <=? 90))%N then (c + 32)%N else c) <$> s.

(** Participant 5 under the nickname [Tom]. *)
Definition renamed : MessageRecorder.Message Z :=
  MessageRecorder.FlatMessage Z
    {| MessageRecorder.sender_id := Some (user 5);
       MessageRecorder.sender_platform := Some (u "qq");
       MessageRecorder.sender_nickname := Some (u "Tom");
       MessageRecorder.sender_cardname := None |}
    (Some 99).

(** A newcomer with the nickname [Tom]. *)
Definition newcomer : MessageRecorder.Message Z :=
  MessageRecorder.FlatMessage Z
    {| MessageRecorder.sender_id := Some (user 40);
       MessageRecorder.sender_platform := Some (u "qq");
       MessageRecorder.sender_nickname := Some (u " Tom ");
       MessageRecorder.sender_cardname := None |}
    (Some 99).

Definition chat_data : gmap pystr (gmap pystr (gmap pystr json)) :=
  {[ u "chat" := {[ u "model-a" := metrics ]} ]}.

(** An OpenIE file with one document and a stray number, and [json.loads]
    for it; any other text does not parse. *)
Definition openie_docs : list json :=
  [JDict {[ u "idx" := JStr (u " h1 ");
            u "extracted_entities" := JList [JStr cat];
            u "extracted_triples" := JList [cat_is_animal] ]};
   JInt 3].

Definition openie_loads (s : pystr) : result json :=
  if decide (s = u "openie") then Ok (JDict {[ u "docs" := JList openie_docs ]})
  else Raise ValueError.

Definition desk (text : pystr) : outside :=
  {| files := [(u "openie.json", text)]; console := []; stored := [] |}.

Definition by_openie : DeleteLpmmItems.Args :=
  {| DeleteLpmmItems.hash_file := None;
     DeleteLpmmItems.openie_file := Some (u "openie.json");
     DeleteLpmmItems.raw_file := None;
     DeleteLpmmItems.raw_index := None;
     DeleteLpmmItems.search_text := None;
     DeleteLpmmItems.search_limit := 10;
     DeleteLpmmItems.delete_entities := true;
     DeleteLpmmItems.delete_relations := true;
     DeleteLpmmItems.remove_orphan_entities := false;
     DeleteLpmmItems.dry_run := false;
     DeleteLpmmItems.yes := false;
     DeleteLpmmItems.max_delete_nodes := 2000 |}.

End MoreSample.

(** * Properties *)

(** ** Strings *)

Section StringFacts.

Lemma startswith_app (p r : pystr) : startswith p (p ++ r) = true.
Proof.
  induction p as [|a p IH]; simpl; [done|].
  by rewrite N.eqb_refl.
Qed.

Lemma startswith_inv (p s : pystr) :
  startswith p s = true → s = p ++ drop (length p) s.
Proof.
  revert s. induction p as [|a p IH]; intros s H; simpl in *; [done|].
  destruct s as [|b s]; [done|].
  destruct (N.eqb_spec a b) as [->|]; [|done].
  simpl. f_equal. by apply IH.
Qed.

Lemma find_from_prefix (i : nat) (p s : pystr) :
  startswith p s = true → find_from i p s = Some i.
Proof. intros H. destruct s; simpl in *; by rewrite H. Qed.

(** Replacing at most one occurrence of a prefix removes that prefix. *)
Lemma replace_prefix_once (p s : pystr) :
  p ≠ [] → startswith p s = true → replace p [] 1 s = drop (length p) s.
Proof.
  intros Hp H. unfold replace.
  destruct s as [|b s]; [by destruct p|].
  cbn [length replace_rounds]. change (1 =? 0) with false. cbv iota.
  rewrite (find_from_prefix 0 p (b :: s) H).
  change (1 - 1) with 0.
  rewrite take_0, !app_nil_l, Nat.add_0_l.
  by destruct (length s).
Qed.

End StringFacts.

(** ** [delete_lpmm_items.py]: the keys of the paragraphs to delete *)

Section NormalizeFacts.

Import DeleteLpmmItems.

Lemma normalize_loop_eq (raw keys hashes : list pystr) :
  normalize_loop raw keys hashes
  = (keys ++ ((λ h, (normalize_one h).1) <$> raw),
     hashes ++ ((λ h, (normalize_one h).2) <$> raw)).
Proof.
  revert keys hashes. induction raw as [|h raw IH]; intros keys hashes; simpl.
  - by rewrite !app_nil_r.
  - destruct (normalize_one h) as [k x] eqn:E. rewrite IH.
    by rewrite <- !app_assoc.
Qed.

Lemma normalize_one_key (h : pystr) :
  (normalize_one h).1 = paragraph_prefix ++ (normalize_one h).2.
Proof.
  unfold normalize_one.
  destruct (startswith paragraph_prefix h) eqn:E; cbn [fst snd]; [|done].
  rewrite replace_prefix_once by done.
  by apply startswith_inv.
Qed.

(** C10. [normalize_paragraph_keys] returns two lists as long as its
    input; at every index the key is ["paragraph-"] followed by the hash;
    an identifier that starts with ["paragraph-"] is its own key and
    loses that one leading prefix in the hash, and any other identifier
    is its own hash and gains the prefix in the key. *)
Theorem normalize_paragraph_keys_spec (raw_hashes : list pystr) :
  let keys := (normalize_paragraph_keys raw_hashes).1 in
  let hashes := (normalize_paragraph_keys raw_hashes).2 in
  length keys = length raw_hashes
  ∧ length hashes = length keys
  ∧ (∀ i k h, keys !! i = Some k → hashes !! i = Some h →
       k = paragraph_prefix ++ h)
  ∧ (∀ i r, raw_hashes !! i = Some r →
       if startswith paragraph_prefix r
       then keys !! i = Some r
            ∧ hashes !! i = Some (drop (length paragraph_prefix) r)
       else keys !! i = Some (paragraph_prefix ++ r)
            ∧ hashes !! i = Some r).
Proof.
  unfold normalize_paragraph_keys. rewrite normalize_loop_eq.
  cbn [fst snd app]. repeat split.
  - by rewrite length_fmap.
  - by rewrite !length_fmap.
  - intros i k h Hk Hh.
    rewrite list_lookup_fmap in Hk, Hh.
    destruct (raw_hashes !! i) as [r|]; simplify_eq/=.
    apply normalize_one_key.
  - intros i r Hr. rewrite !list_lookup_fmap, Hr. cbn [fmap option_fmap option_map].
    unfold normalize_one.
    destruct (startswith paragraph_prefix r) eqn:E; cbn [fst snd]; [|done].
    by rewrite replace_prefix_once.
Qed.

End NormalizeFacts.

(** ** Runs of programs *)

Section ProgFacts.

Context {E : Type → Type} {O W : Type}.
Variable answer : ∀ X, E X → W → result X * W.

Lemma run_bind {A B} (p : prog E O A) (f : A → prog E O B) (w : W) :
  run answer (p ≫= f) w
  = match run answer p w with
    | (inl a, t1, w1) =>
      let '(r, t2, w2) := run answer (f a) w1 in (r, t1 ++ t2, w2)
    | (inr o, t1, w1) => (inr o, t1, w1)
    end.
Proof.
  unfold mbind, prog_bind. revert w.
  induction p as [a|o|o k IH|X e k IH]; intros w; simpl.
  - by destruct (run answer (f a) w) as [[r t2] w2].
  - done.
  - rewrite IH. destruct (run answer k w) as [[[a|o'] t1] w1]; [|done].
    by destruct (run answer (f a) w1) as [[r t2] w2].
  - destruct (answer X e w) as [r w1]. rewrite IH.
    destruct (run answer (k r) w1) as [[[a|o'] t1] w2]; [|done].
    by destruct (run answer (f a) w2) as [[r' t2] w3].
Qed.

Lemma run_catch {A} (p : prog E O A) (h : exn → prog E O A) (w : W) :
  run answer (catch p h) w
  = match run answer p w with
    | (inr (Crashed err), t1, w1) =>
      let '(r, t2, w2) := run answer (h err) w1 in (r, t1 ++ t2, w2)
    | other => other
    end.
Proof.
  revert w. induction p as [a|o|o k IH|X e k IH]; intros w; simpl.
  - done.
  - destruct o; [done..|].
    by destruct (run answer (h e) w) as [[r t2] w2].
  - rewrite IH. destruct (run answer k w) as [[[a|[| |err]] t1] w1]; try done.
    by destruct (run answer (h err) w1) as [[r t2] w2].
  - destruct (answer X e w) as [r w1]. rewrite IH.
    destruct (run answer (k r) w1) as [[[a|[| |err]] t1] w2]; try done.
    by destruct (run answer (h err) w2) as [[r' t2] w3].
Qed.

(** [meets p T Φ Ψ]: whatever the outside answers, every entry of the
    trace of [p] satisfies [T], a returned value satisfies [Φ] and any
    other ending satisfies [Ψ]. *)
Definition meets {A} (p : prog E O A) (T : entry E O → Prop)
    (Φ : A → Prop) (Ψ : outcome → Prop) : Prop :=
  ∀ w, Forall T (run answer p w).1.2
       ∧ match (run answer p w).1.1 with inl a => Φ a | inr o => Ψ o end.

Lemma meets_ret {A} (a : A) T (Φ : A → Prop) Ψ : Φ a → meets (mret a) T Φ Ψ.
Proof. intros H w. simpl. by split. Qed.

Lemma meets_halt {A} o T (Φ : A → Prop) (Ψ : outcome → Prop) :
  Ψ o → meets (Halt o) T Φ Ψ.
Proof. intros H w. simpl. by split. Qed.

Lemma meets_bind {A B} (p : prog E O A) (f : A → prog E O B) T Φ' Φ Ψ :
  meets p T Φ' Ψ → (∀ a, Φ' a → meets (f a) T Φ Ψ) → meets (p ≫= f) T Φ Ψ.
Proof.
  intros Hp Hf w. rewrite run_bind. specialize (Hp w).
  destruct (run answer p w) as [[[a|o] t1] w1]; simpl in *; [|done].
  destruct Hp as [Ht1 Ha]. specialize (Hf a Ha w1).
  destruct (run answer (f a) w1) as [[r t2] w2]; simpl in *.
  destruct Hf as [Ht2 Hr]. split; [|done]. by apply Forall_app.
Qed.

Lemma meets_catch {A} (p : prog E O A) (h : exn → prog E O A) T Φ Ψ :
  meets p T Φ (λ o, match o with Crashed _ => True | _ => Ψ o end) →
  (∀ err, meets (h err) T Φ Ψ) → meets (catch p h) T Φ Ψ.
Proof.
  intros Hp Hh w. rewrite run_catch. specialize (Hp w).
  destruct (run answer p w) as [[[a|[| |err]] t1] w1]; simpl in *; try done.
  destruct Hp as [Ht1 _]. specialize (Hh err w1).
  destruct (run answer (h err) w1) as [[r t2] w2]; simpl in *.
  destruct Hh as [Ht2 Hr]. split; [|done]. by apply Forall_app.
Qed.

Lemma meets_tell {A} o (k : prog E O A) (T : entry E O → Prop) Φ Ψ :
  T (Told o) → meets k T Φ Ψ → meets (Tell o k) T Φ Ψ.
Proof.
  intros Ho Hk w. specialize (Hk w). simpl.
  destruct (run answer k w) as [[r t] w']; simpl in *.
  destruct Hk. split; [|done]. by constructor.
Qed.

Lemma meets_vis {A X} (e : E X) (k : result X → prog E O A)
    (T : entry E O → Prop) Φ Ψ :
  (∀ r, T (Called e r)) → (∀ r, meets (k r) T Φ Ψ) → meets (Vis e k) T Φ Ψ.
Proof.
  intros He Hk w. simpl. destruct (answer X e w) as [r w1].
  specialize (Hk r w1). destruct (run answer (k r) w1) as [[r' t] w']; simpl in *.
  destruct Hk. split; [|done]. by constructor.
Qed.

Lemma meets_call {X} (e : E X) (T : entry E O → Prop) (Φ : X → Prop) Ψ :
  (∀ r, T (Called e r)) → (∀ x, Φ x) → (∀ err, Ψ (Crashed err)) →
  meets (call e) T Φ Ψ.
Proof.
  intros He HΦ HΨ. apply meets_vis; [done|].
  intros [x|err]; [by apply meets_ret | by apply meets_halt].
Qed.

Lemma meets_attempt {X} (e : E X) (T : entry E O → Prop)
    (Φ : result X → Prop) Ψ :
  (∀ r, T (Called e r)) → (∀ r, Φ r) → meets (attempt e) T Φ Ψ.
Proof. intros He HΦ. apply meets_vis; [done|]. intros r. by apply meets_ret. Qed.

Lemma meets_lift {A} (r : result A) T (Φ : A → Prop) (Ψ : outcome → Prop) :
  (∀ a, r = Ok a → Φ a) → (∀ err, r = Raise err → Ψ (Crashed err)) →
  meets (lift r) T Φ Ψ.
Proof.
  intros HΦ HΨ. destruct r as [a|err]; simpl.
  - apply meets_ret; auto.
  - apply meets_halt; auto.
Qed.

Lemma meets_for_each {A S} (l : list A) (body : A → S → prog E O S) T
    (I : S → Prop) Ψ (s : S) :
  (∀ x s, I s → meets (body x s) T I Ψ) → I s →
  meets (for_each l body s) T I Ψ.
Proof.
  intros Hbody. revert s. induction l as [|x l IH]; intros s Hs; simpl.
  - by apply meets_ret.
  - apply (meets_bind _ _ _ I); [by apply Hbody | done].
Qed.

Lemma meets_weaken {A} (p : prog E O A) T (Φ Φ' : A → Prop) (Ψ Ψ' : outcome → Prop) :
  meets p T Φ Ψ → (∀ a, Φ a → Φ' a) → (∀ o, Ψ o → Ψ' o) → meets p T Φ' Ψ'.
Proof.
  intros Hp HΦ HΨ w. destruct (Hp w) as [Ht Hr]. split; [done|].
  destruct ((run answer p w).1.1); auto.
Qed.

End ProgFacts.

(** ** [ie_process.py]: parsing, filtering and validation *)

Section IeParsingFacts.

Import IeProcess.

Variable INVALID_ENTITY : list pystr.
Variable repair_json : pystr → result (pystr + json).
Variable json_loads : pystr → result json.

Abbreviation parse := (parse_repaired repair_json json_loads).
Abbreviation extract := (_extract_json_from_text repair_json json_loads).
Abbreviation entities_of :=
  (entities_of_response INVALID_ENTITY repair_json json_loads).
Abbreviation triples_of := (triples_of_response repair_json json_loads).

Lemma map_to_list_size_1 (d : gmap pystr json) (key : pystr) (v : json) :
  size d = 1%nat → d !! key = Some v → map_to_list d = [(key, v)].
Proof.
  intros Hsize Hkey.
  apply elem_of_map_to_list in Hkey.
  rewrite <- length_map_to_list in Hsize.
  destruct (map_to_list d) as [|x [|y l]]; simplify_eq/=.
  by apply list_elem_of_singleton in Hkey as ->.
Qed.

Lemma extract_ok (text : option pystr) : ∃ v, extract text = Ok v.
Proof.
  destruct text as [text|]; simpl; [|eauto].
  unfold except.
  match goal with |- ∃ v, match ?r with _ => _ end = _ => destruct r end; eauto.
Qed.

(** C6. [_extract_json_from_text] answers with a value on every input and
    never raises: [None] gives the empty list, and so does any text on
    which repairing or parsing raises; when the repaired text parses to a
    dict with exactly one key whose value is a list, the answer is that
    list. *)
Theorem extract_json_from_text_total :
  (∀ text, ∃ v, extract text = Ok v)
  ∧ extract None = Ok (JList [])
  ∧ (∀ text err, parse text = Raise err → extract (Some text) = Ok (JList []))
  ∧ (∀ text d key l,
       parse text = Ok (JDict d) → size d = 1%nat → d !! key = Some (JList l) →
       extract (Some text) = Ok (JList l)).
Proof.
  split; [apply extract_ok|]. split; [done|]. split.
  - intros text err H. simpl. by rewrite H.
  - intros text d key l Hparse Hsize Hkey. simpl. rewrite Hparse. simpl.
    rewrite Hsize. simpl. by rewrite (map_to_list_size_1 d key (JList l)).
Qed.

Lemma valid_entity_spec (entity : json) :
  valid_entity INVALID_ENTITY entity = true
  ↔ entity ≠ JNull ∧ entity ≠ JStr [] ∧ ∀ s, entity = JStr s → s ∉ INVALID_ENTITY.
Proof.
  destruct entity as [| | | |s| |]; simpl; try (split; [intros _|]; naive_solver).
  - split; [done|]. by intros [? _].
  - rewrite andb_true_iff, !negb_true_iff, bool_decide_eq_false.
    destruct s as [|c s]; simpl.
    + split; [by intros [? _] | by intros (_ & ? & _)].
    + split.
      * intros [_ Hn]. repeat split; try done. by intros s0 [= <-].
      * intros (_ & _ & Hn). split; [done|]. by apply Hn.
Qed.

Lemma filter_nil_is_empty {A} (f : A → bool) (l : list A) :
  is_empty (List.filter f l) = true ↔ List.filter f l = [].
Proof. by destruct (List.filter f l). Qed.

Definition clean_entity (entity : json) : Prop :=
  entity ≠ JNull ∧ entity ≠ JStr [] ∧ ∀ s, entity = JStr s → s ∉ INVALID_ENTITY.

Lemma entities_of_ok (response : option pystr) (entities : list json) :
  entities_of response = Ok entities →
  entities ≠ [] ∧ Forall clean_entity entities.
Proof.
  intros H. unfold entities_of_response in H.
  destruct (extract response) as [v|]; simpl in H; [|done].
  destruct (as_list entity_keys v) as [parsed|]; simpl in H; [|done].
  destruct (is_empty _) eqn:Hne; simplify_eq.
  split; [by intros Hnil; rewrite Hnil in Hne|].
  apply Forall_forall. intros entity Hin.
  apply list_elem_of_In, filter_In in Hin as [_ Hin].
  by apply valid_entity_spec.
Qed.

(** The body of [_entity_extract] after the answer: what is left of the
    parsed list after filtering, and [ValueError] when nothing is. *)
Lemma entities_of_filtered (response : option pystr) (v : json)
    (parsed : list json) :
  extract response = Ok v → as_list entity_keys v = Ok parsed →
  entities_of response
  = if is_empty (List.filter (valid_entity INVALID_ENTITY) parsed)
    then Raise ValueError
    else Ok (List.filter (valid_entity INVALID_ENTITY) parsed).
Proof.
  intros Hv Hparsed. unfold entities_of_response.
  rewrite Hv. cbn [mbind result_bind]. rewrite Hparsed. cbn [mbind result_bind].
  by destruct (is_empty _).
Qed.

(** C3. For the paragraph ["猫：是一种常见的宠物动物。"] and the entities
    [["猫", "动物"]], [_fallback_rdf_triples] returns exactly
    [[["猫", "是", "一种常见的宠物动物"]]]: the subject is the entity the
    paragraph starts with, the relation is ["是"], and the object is the
    text between the relation and the full stop.  That list is what the
    relation step yields whenever the model's list of triples is empty. *)
Theorem fallback_rdf_triples_cat :
  _fallback_rdf_triples Sample.cat_paragraph Sample.cat_entities
  = Ok Sample.cat_triples
  ∧ startswith Sample.cat Sample.cat_paragraph = true
  ∧ Sample.cat_paragraph
    = Sample.cat ++ u "：" ++ u "是" ++ u "一种常见的宠物动物" ++ u "。"
  ∧ (∀ response v,
       extract response = Ok v → as_list triple_keys v = Ok [] →
       triples_of Sample.cat_paragraph Sample.cat_entities response
       = Ok Sample.cat_triples).
Proof.
  assert (_fallback_rdf_triples Sample.cat_paragraph Sample.cat_entities
          = Ok Sample.cat_triples)
    as Hfb by (vm_compute; reflexivity).
  split; [done|]. split; [vm_compute; reflexivity|].
  split; [vm_compute; reflexivity|].
  intros response v Hv Hempty. unfold triples_of_response.
  rewrite Hv. cbn [mbind result_bind]. rewrite Hempty. cbn [mbind result_bind is_empty].
  rewrite Hfb. reflexivity.
Qed.

End IeParsingFacts.

(** ** [ie_process.py]: attempts, retries and the returned pair *)

Section IeRunFacts.

Import IeProcess.

Variable LLMRequest : Type.
Variable runtime_error_subclass : pystr → bool.
Variable INVALID_ENTITY : list pystr.
Variable repair_json : pystr → result (pystr + json).
Variable json_loads : pystr → result json.
Variable json_dumps : list json → pystr.
Variable build_entity_extract_context : pystr → pystr.
Variable build_rdf_triple_extract_context : pystr → pystr → pystr.

Context {W : Type}.
Variable answer : ∀ X, event LLMRequest X → W → result X * W.

Abbreviation entities_of' :=
  (entities_of_response INVALID_ENTITY repair_json json_loads).
Abbreviation triples_of' := (triples_of_response repair_json json_loads).
Abbreviation entity_extract :=
  (_entity_extract LLMRequest runtime_error_subclass INVALID_ENTITY
     repair_json json_loads build_entity_extract_context).
Abbreviation rdf_triple_extract :=
  (_rdf_triple_extract LLMRequest runtime_error_subclass repair_json
     json_loads json_dumps build_rdf_triple_extract_context).
Abbreviation info_extract :=
  (info_extract_from_str LLMRequest runtime_error_subclass INVALID_ENTITY
     repair_json json_loads json_dumps build_entity_extract_context
     build_rdf_triple_extract_context).

(** An attempt pauses nowhere. *)
Definition is_call (en : entry (event LLMRequest) pause) : Prop :=
  match en with Told _ => False | Called _ _ => True end.

Definition raised (o : outcome) : Prop := ∃ err, o = Crashed err.

Lemma meets_generate (llm_req : LLMRequest) (prompt : pystr) :
  meets answer (generate LLMRequest runtime_error_subclass
      llm_req prompt) is_call (λ _, True) raised.
Proof.
  unfold generate. apply meets_catch.
  - eapply meets_bind.
    + apply (meets_call answer _ _ (λ _, True)); done.
    + intros _ _. apply meets_call; done.
  - intros err. destruct (is_runtime_error runtime_error_subclass err);
      [|apply meets_halt; by eexists].
    apply meets_call; try done. intros e. by eexists.
Qed.

Lemma meets_entity_extract (llm_req : LLMRequest) (paragraph : pystr) :
  meets answer (entity_extract llm_req paragraph) is_call
    (λ entities, ∃ response, entities_of' response = Ok entities) raised.
Proof.
  unfold _entity_extract. eapply meets_bind; [apply meets_generate|].
  intros response _. apply meets_lift; [eauto|]. intros err _. by eexists.
Qed.

Lemma meets_rdf_triple_extract (llm_req : LLMRequest) (paragraph : pystr)
    (entities : list json) :
  meets answer (rdf_triple_extract llm_req paragraph entities) is_call
    (λ triples, ∃ response, triples_of' paragraph entities response = Ok triples)
    raised.
Proof.
  unfold _rdf_triple_extract. eapply meets_bind; [apply meets_generate|].
  intros response _. apply meets_lift; [eauto|]. intros err _. by eexists.
Qed.

Lemma run_entity_extract (llm_req : LLMRequest) (paragraph : pystr) (w : W)
    response tr w' :
  run answer
    (generate LLMRequest runtime_error_subclass llm_req
       (build_entity_extract_context paragraph)) w
  = (inl response, tr, w') →
  run answer (entity_extract llm_req paragraph) w
  = (match entities_of' response with
     | Ok entities => inl entities
     | Raise e => inr (Crashed e)
     end, tr, w').
Proof.
  intros Hrun. unfold _entity_extract. rewrite run_bind, Hrun.
  destruct (entities_of' response); cbn; by rewrite app_nil_r.
Qed.

(** C7. A list of entities that a run of [_entity_extract] returns is not
    empty and holds no [None], no empty string and no entry of
    [INVALID_ENTITY].  When the model has answered and the answer parses
    to a list, [_entity_extract] returns what is left of that list after
    filtering, and raises [ValueError] when nothing is left: it never
    returns an empty list. *)
Theorem entity_extract_filtered :
  (∀ llm_req paragraph w entities tr w',
     run answer (entity_extract llm_req paragraph) w = (inl entities, tr, w') →
     entities ≠ []
     ∧ Forall (λ entity, entity ≠ JNull ∧ entity ≠ JStr []
                         ∧ ∀ s, entity = JStr s → s ∉ INVALID_ENTITY) entities)
  ∧ (∀ llm_req paragraph w response tr w' v parsed,
       run answer
         (generate LLMRequest runtime_error_subclass llm_req
            (build_entity_extract_context paragraph)) w
       = (inl response, tr, w') →
       _extract_json_from_text repair_json json_loads response = Ok v →
       as_list entity_keys v = Ok parsed →
       run answer (entity_extract llm_req paragraph) w
       = (if is_empty (List.filter (valid_entity INVALID_ENTITY) parsed)
          then inr (Crashed ValueError)
          else inl (List.filter (valid_entity INVALID_ENTITY) parsed),
          tr, w')).
Proof.
  split.
  - intros llm_req paragraph w entities tr w' Hrun.
    destruct (meets_entity_extract llm_req paragraph w) as [_ H].
    rewrite Hrun in H. destruct H as [response H].
    exact (entities_of_ok INVALID_ENTITY repair_json json_loads response entities H).
  - intros llm_req paragraph w response tr w' v parsed Hrun Hv Hparsed.
    rewrite (run_entity_extract _ _ _ _ _ _ Hrun).
    rewrite (entities_of_filtered INVALID_ENTITY repair_json json_loads
               response v parsed Hv Hparsed).
    by destruct (is_empty _).
Qed.

(** What the validation loop of [_rdf_triple_extract] accepts. *)
Definition checked_triple (triple : json) : Prop :=
  ∃ s p o, triple = JList [s; p; o]
           ∧ s ≠ JNull ∧ p ≠ JNull ∧ o ≠ JNull
           ∧ s ≠ JStr [] ∧ p ≠ JStr [] ∧ o ≠ JStr [].


Lemma not_none_spec (v : json) : not_none v = true ↔ v ≠ JNull.
Proof. destruct v; simpl; split; done. Qed.

Lemma is_empty_str_spec (v : json) : is_empty_str v = false ↔ v ≠ JStr [].
Proof. destruct v as [| | | |[|c s]| |]; simpl; split; done. Qed.

Lemma valid_triple_spec (triple : json) :
  valid_triple triple = true ↔ checked_triple triple.
Proof.
  unfold checked_triple. split.
  - destruct triple as [| | | | |l|]; simpl; try done.
    destruct l as [|s [|p [|o [|x l]]]]; try done.
    rewrite !andb_true_iff, negb_true_iff. cbn [existsb].
    rewrite !orb_false_iff, !not_none_spec, !is_empty_str_spec.
    intros [[[? ?] ?] (? & ? & ? & _)]. exists s, p, o. done.
  - intros (s & p & o & -> & Hs & Hp & Ho & Hs' & Hp' & Ho'). simpl.
    rewrite !andb_true_iff, negb_true_iff, !orb_false_iff.
    rewrite !not_none_spec, !is_empty_str_spec. done.
Qed.

Lemma forallb_valid_triple (l : list json) :
  forallb valid_triple l = true ↔ Forall checked_triple l.
Proof.
  rewrite forallb_forall, Forall_forall.
  split; intros H x Hx.
  - apply valid_triple_spec, H. by apply list_elem_of_In.
  - apply valid_triple_spec, H. by apply list_elem_of_In.
Qed.

Lemma triples_of_ok paragraph entities response triples :
  triples_of' paragraph entities response = Ok triples →
  triples ≠ [] ∧ Forall checked_triple triples.
Proof.
  intros H. unfold triples_of_response in H.
  destruct (_extract_json_from_text _ _ response) as [v|]; simpl in H; [|done].
  destruct (as_list triple_keys v) as [parsed|]; simpl in H; [|done].
  destruct parsed as [|t parsed]; simpl in H.
  - destruct (_fallback_rdf_triples paragraph entities) as [[|t fb]|];
      simpl in H; try done.
    destruct (valid_triple t && forallb valid_triple fb) eqn:Hv; simplify_eq.
    split; [done|]. by apply forallb_valid_triple.
  - destruct (valid_triple t && forallb valid_triple parsed) eqn:Hv; simplify_eq.
    split; [done|]. by apply forallb_valid_triple.
Qed.


(** One guarded attempt: the body of [try] with its [except]. *)
Definition guarded {A} (attempt_once : prog (event LLMRequest) pause A) : prog (event LLMRequest) pause (option A) :=
  catch (x ← attempt_once; mret (Some x)) (λ _, mret None).

Lemma run_guarded_ok {A} (attempt_once : prog (event LLMRequest) pause A) w x a w1 :
  run answer attempt_once w = (inl x, a, w1) →
  run answer (guarded attempt_once) w = (inl (Some x), a, w1).
Proof.
  intros H. unfold guarded. rewrite run_catch, run_bind, H. simpl.
  by rewrite app_nil_r.
Qed.

Lemma run_guarded_fail {A} (attempt_once : prog (event LLMRequest) pause A) w err a w1 :
  run answer attempt_once w = (inr (Crashed err), a, w1) →
  run answer (guarded attempt_once) w = (inl None, a, w1).
Proof.
  intros H. unfold guarded. rewrite run_catch, run_bind, H. simpl.
  by rewrite app_nil_r.
Qed.

Lemma retry_loop_unfold {A} fuel try_count (attempt_once : prog (event LLMRequest) pause A) :
  retry_loop LLMRequest (S fuel) try_count attempt_once
  = (r ← guarded attempt_once;
     match r with
     | Some x => mret (Some (Some x))
     | None =>
       if try_count + 1 <? 3 then
         tell (Sleep 5);; retry_loop LLMRequest fuel (try_count + 1) attempt_once
       else mret (Some None)
     end).
Proof. reflexivity. Qed.

Lemma retry_loop_ok {A} fuel try_count (attempt_once : prog (event LLMRequest) pause A) w x a w1 :
  run answer attempt_once w = (inl x, a, w1) →
  run answer (retry_loop LLMRequest (S fuel) try_count attempt_once) w
  = (inl (Some (Some x)), a, w1).
Proof.
  intros H. rewrite retry_loop_unfold, run_bind, (run_guarded_ok _ _ _ _ _ H).
  simpl. by rewrite app_nil_r.
Qed.

Lemma retry_loop_again {A} fuel try_count (attempt_once : prog (event LLMRequest) pause A)
    w err a w1 :
  run answer attempt_once w = (inr (Crashed err), a, w1) →
  try_count + 1 < 3 →
  run answer (retry_loop LLMRequest (S fuel) try_count attempt_once) w
  = let '(r, t, w') :=
      run answer (retry_loop LLMRequest fuel (try_count + 1) attempt_once) w1 in
    (r, a ++ Told (Sleep 5) :: t, w').
Proof.
  intros H Hlt. rewrite retry_loop_unfold, run_bind, (run_guarded_fail _ _ _ _ _ H).
  apply Z.ltb_lt in Hlt. rewrite Hlt. simpl.
  by destruct (run answer _ w1) as [[r t] w'].
Qed.

Lemma retry_loop_give_up {A} fuel try_count (attempt_once : prog (event LLMRequest) pause A)
    w err a w1 :
  run answer attempt_once w = (inr (Crashed err), a, w1) →
  3 ≤ try_count + 1 →
  run answer (retry_loop LLMRequest (S fuel) try_count attempt_once) w
  = (inl (Some None), a, w1).
Proof.
  intros H Hge. rewrite retry_loop_unfold, run_bind, (run_guarded_fail _ _ _ _ _ H).
  apply Z.ltb_ge in Hge. rewrite Hge. simpl. by rewrite app_nil_r.
Qed.

(** Three failures in a row, from a fresh count: three attempts, a pause
    of 5 between two of them, and the loop gives up, whatever fuel is left
    over. *)
Lemma retry_loop_three_failures {A} (attempt_once : prog (event LLMRequest) pause A)
    (extra : nat) w e1 a1 w1 e2 a2 w2 e3 a3 w3 :
  run answer attempt_once w = (inr (Crashed e1), a1, w1) →
  run answer attempt_once w1 = (inr (Crashed e2), a2, w2) →
  run answer attempt_once w2 = (inr (Crashed e3), a3, w3) →
  run answer (retry_loop LLMRequest (3 + extra) 0 attempt_once) w
  = (inl (Some None), a1 ++ Told (Sleep 5) :: a2 ++ Told (Sleep 5) :: a3, w3).
Proof.
  intros H1 H2 H3. change (3 + extra)%nat with (S (S (S extra))).
  rewrite (retry_loop_again _ _ _ _ _ _ _ H1) by done.
  rewrite (retry_loop_again _ _ _ _ _ _ _ H2) by done.
  by rewrite (retry_loop_give_up _ _ _ _ _ _ _ H3).
Qed.

Lemma meets_guarded {A} (attempt_once : prog (event LLMRequest) pause A) T (Φ : A → Prop) :
  meets answer attempt_once T Φ raised →
  meets answer (guarded attempt_once) T
    (λ r, match r with Some x => Φ x | None => True end) (λ _, False).
Proof.
  intros H. apply meets_catch.
  - eapply meets_bind.
    + eapply meets_weaken; [exact H|done|].
      intros o [err ->]. done.
    + intros x Hx. by apply meets_ret.
  - intros _. by apply meets_ret.
Qed.

(** With enough fuel the loop ends by its own count, with a value of a
    successful attempt or by giving up, and pauses only for 5. *)
Definition calls_and_pauses (en : entry (event LLMRequest) pause) : Prop :=
  match en with Told p => p = Sleep 5 | Called _ _ => True end.

Lemma is_call_pauses en : is_call en → calls_and_pauses en.
Proof. by destruct en. Qed.

Lemma meets_retry_loop {A} (attempt_once : prog (event LLMRequest) pause A) (Φ : A → Prop)
    (fuel : nat) (try_count : Z) :
  meets answer attempt_once is_call Φ raised →
  (1 ≤ fuel)%nat → 3 - try_count ≤ Z.of_nat fuel →
  meets answer (retry_loop LLMRequest fuel try_count attempt_once) calls_and_pauses
    (λ r, r = Some None ∨ ∃ x, r = Some (Some x) ∧ Φ x) (λ _, False).
Proof.
  intros Hbody. revert try_count.
  induction fuel as [|fuel IH]; intros try_count Hpos Hfuel; [lia|].
  rewrite retry_loop_unfold. eapply meets_bind.
  - apply meets_guarded. intros w. destruct (Hbody w) as [Ht Hr]. split; [|exact Hr].
    eapply Forall_impl; [exact Ht|]. apply is_call_pauses.
  - intros [x|] Hx.
    + apply meets_ret. eauto.
    + destruct (Z.ltb_spec (try_count + 1) 3).
      * apply meets_tell; [done|]. apply IH; lia.
      * apply meets_ret. by left.
Qed.

(** C5. [info_extract_from_str] always returns, and what it returns is
    either [(None, None)] or a pair of a non-empty list of entities and a
    non-empty list of triples: never entities without triples, whichever
    step fails.  Three rounds per loop are all the loops ever use. *)
Theorem info_extract_all_or_nothing (extra : nat) (ner rdf : LLMRequest)
    (paragraph : pystr) (w : W) :
  ∃ res,
    (run answer (info_extract (3 + extra) ner rdf paragraph) w).1.1
    = inl (Some res)
    ∧ (res = (None, None)
       ∨ ∃ entities triples,
           res = (Some entities, Some triples) ∧ entities ≠ [] ∧ triples ≠ []).
Proof.
  set (good := λ r : option (option (list json) * option (list json)),
         ∃ res, r = Some res
           ∧ (res = (None, None)
              ∨ ∃ entities triples,
                  res = (Some entities, Some triples)
                  ∧ entities ≠ [] ∧ triples ≠ [])).
  assert (meets answer (info_extract (3 + extra) ner rdf paragraph)
            calls_and_pauses good (λ _, False)) as H.
  { unfold info_extract_from_str. eapply meets_bind.
    - apply (meets_retry_loop _ _ _ _ (meets_entity_extract ner paragraph)); lia.
    - intros r [->|(entities & -> & response & Hents)].
      { apply meets_ret. exists (None, None). eauto. }
      eapply meets_bind.
      + apply (meets_retry_loop _ _ _ _
                 (meets_rdf_triple_extract rdf paragraph entities)); lia.
      + intros r [->|(triples & -> & response' & Htriples)].
        { apply meets_ret. exists (None, None). eauto. }
        apply meets_ret. eexists. split; [done|]. right.
        exists entities, triples. split; [done|]. split.
        * by eapply entities_of_ok.
        * by eapply triples_of_ok. }
  destruct (H w) as [_ Hres].
  destruct ((run answer (info_extract (3 + extra) ner rdf paragraph) w).1.1)
    as [r|o]; [|done].
  destruct Hres as (res & -> & Hres). eauto.
Qed.

(** C2. When the entity step fails three times in a row,
    [info_extract_from_str] has made exactly those three attempts, has
    paused for 5 between the first and the second and between the second
    and the third, and returns [(None, None)].  When the entity step has
    succeeded, after however many attempts, and the relation step then
    fails three times in a row, the same holds of the relation step: its
    count starts again at 0.  Fuel beyond three rounds changes nothing. *)
Theorem info_extract_retry_budget (extra : nat) (ner rdf : LLMRequest)
    (paragraph : pystr) :
  (∀ w e1 a1 w1 e2 a2 w2 e3 a3 w3,
     run answer (entity_extract ner paragraph) w = (inr (Crashed e1), a1, w1) →
     run answer (entity_extract ner paragraph) w1 = (inr (Crashed e2), a2, w2) →
     run answer (entity_extract ner paragraph) w2 = (inr (Crashed e3), a3, w3) →
     run answer (info_extract (3 + extra) ner rdf paragraph) w
     = (inl (Some (None, None)),
        a1 ++ Told (Sleep 5) :: a2 ++ Told (Sleep 5) :: a3, w3)
     ∧ Forall is_call (a1 ++ a2 ++ a3))
  ∧ (∀ w entities t0 w0 e1 b1 w1 e2 b2 w2 e3 b3 w3,
       run answer
         (retry_loop LLMRequest (3 + extra) 0 (entity_extract ner paragraph)) w
       = (inl (Some (Some entities)), t0, w0) →
       run answer (rdf_triple_extract rdf paragraph entities) w0
       = (inr (Crashed e1), b1, w1) →
       run answer (rdf_triple_extract rdf paragraph entities) w1
       = (inr (Crashed e2), b2, w2) →
       run answer (rdf_triple_extract rdf paragraph entities) w2
       = (inr (Crashed e3), b3, w3) →
       run answer (info_extract (3 + extra) ner rdf paragraph) w
       = (inl (Some (None, None)),
          t0 ++ b1 ++ Told (Sleep 5) :: b2 ++ Told (Sleep 5) :: b3, w3)
       ∧ Forall is_call (b1 ++ b2 ++ b3)).
Proof.
  split.
  - intros w e1 a1 w1 e2 a2 w2 e3 a3 w3 H1 H2 H3. split.
    + unfold info_extract_from_str.
      rewrite run_bind,
        (retry_loop_three_failures _ extra _ _ _ _ _ _ _ _ _ _ H1 H2 H3).
      simpl. by rewrite app_nil_r.
    + pose proof (meets_entity_extract ner paragraph) as Hm.
      destruct (Hm w) as [T1 _], (Hm w1) as [T2 _], (Hm w2) as [T3 _].
      rewrite H1 in T1. rewrite H2 in T2. rewrite H3 in T3.
      by rewrite !Forall_app.
  - intros w entities t0 w0 e1 b1 w1 e2 b2 w2 e3 b3 w3 H0 H1 H2 H3. split.
    + unfold info_extract_from_str. rewrite run_bind, H0, run_bind.
      rewrite (retry_loop_three_failures _ extra _ _ _ _ _ _ _ _ _ _ H1 H2 H3).
      simpl. by rewrite app_nil_r.
    + pose proof (meets_rdf_triple_extract rdf paragraph entities) as Hm.
      destruct (Hm w0) as [T1 _], (Hm w1) as [T2 _], (Hm w2) as [T3 _].
      rewrite H1 in T1. rewrite H2 in T2. rewrite H3 in T3.
      by rewrite !Forall_app.
Qed.

End IeRunFacts.

(** ** The statements on the sample outside *)

Section SampleRuns.

Import IeProcess Sample.

Abbreviation sample_entity_extract :=
  (_entity_extract unit runtime_error_subclass
       INVALID_ENTITY repair_json json_loads entity_prompt).
Abbreviation sample_rdf_triple_extract :=
  (_rdf_triple_extract unit runtime_error_subclass
       repair_json json_loads json_dumps rdf_prompt).
Abbreviation sample_info_extract :=
  (info_extract_from_str unit runtime_error_subclass
       INVALID_ENTITY repair_json json_loads json_dumps
     entity_prompt rdf_prompt).

(** A text nothing is recovered from gives the empty list, and a wrapped
    list is unwrapped. *)
Lemma extract_json_from_text_total_witness :
  _extract_json_from_text repair_json json_loads (Some (u "garbage"))
  = Ok (JList [])
  ∧ _extract_json_from_text repair_json json_loads (Some (u "{entities: [猫]}"))
    = Ok (JList [JStr cat]).
Proof.
  split.
  - apply (proj1 (proj2 (proj2 (extract_json_from_text_total repair_json json_loads)))
             (u "garbage") ValueError).
    vm_compute. reflexivity.
  - apply (proj2 (proj2 (proj2 (extract_json_from_text_total repair_json json_loads)))
             (u "{entities: [猫]}") {[ u "entities" := JList [JStr cat] ]}
             (u "entities") [JStr cat]).
    + vm_compute. reflexivity.
    + vm_compute. reflexivity.
    + vm_compute. reflexivity.
Defined.

(** A clean answer is returned as it is; of an answer with a placeholder
    and a [null] the clean entity is returned; an answer that holds
    nothing else makes the attempt raise. *)
Lemma entity_extract_filtered_witness :
  ([JStr cat; JStr animal] ≠ []
   ∧ Forall (λ entity, entity ≠ JNull ∧ entity ≠ JStr []
                       ∧ ∀ s, entity = JStr s → s ∉ INVALID_ENTITY)
       [JStr cat; JStr animal])
  ∧ run llm_answer (sample_entity_extract tt cat) [says "[猫, 它, null]"]
    = (inl [JStr cat], attempt_trace (entity_prompt cat) (says "[猫, 它, null]"), [])
  ∧ run llm_answer (sample_entity_extract tt cat) [says "[它, null]"]
    = (inr (Crashed ValueError),
       attempt_trace (entity_prompt cat) (says "[它, null]"), []).
Proof.
  split; [|split].
  - apply (proj1 (entity_extract_filtered unit runtime_error_subclass INVALID_ENTITY
                    repair_json json_loads entity_prompt llm_answer)
             tt cat [says "[猫, 动物]"] [JStr cat; JStr animal]
             (attempt_trace (entity_prompt cat) (says "[猫, 动物]")) []).
    vm_compute. reflexivity.
  - refine (proj2 (entity_extract_filtered unit runtime_error_subclass INVALID_ENTITY
                     repair_json json_loads entity_prompt llm_answer)
              tt cat [says "[猫, 它, null]"] (Some (u "[猫, 它, null]"))
              (attempt_trace (entity_prompt cat) (says "[猫, 它, null]")) []
              (JList [JStr cat; JStr (u "它"); JNull])
              [JStr cat; JStr (u "它"); JNull] _ _ _).
    + vm_compute. reflexivity.
    + vm_compute. reflexivity.
    + vm_compute. reflexivity.
  - refine (proj2 (entity_extract_filtered unit runtime_error_subclass INVALID_ENTITY
                     repair_json json_loads entity_prompt llm_answer)
              tt cat [says "[它, null]"] (Some (u "[它, null]"))
              (attempt_trace (entity_prompt cat) (says "[它, null]")) []
              (JList [JStr (u "它"); JNull]) [JStr (u "它"); JNull] _ _ _).
    + vm_compute. reflexivity.
    + vm_compute. reflexivity.
    + vm_compute. reflexivity.
Defined.

(** An empty list of triples from the model is replaced by the rule's. *)
Lemma fallback_rdf_triples_cat_witness :
  triples_of_response repair_json json_loads cat_paragraph cat_entities
    (Some (u "[]"))
  = Ok cat_triples.
Proof.
  apply (proj2 (proj2 (proj2 (fallback_rdf_triples_cat repair_json json_loads)))
           (Some (u "[]")) (JList [])).
  - vm_compute. reflexivity.
  - vm_compute. reflexivity.
Defined.

(** Three useless answers to the entity request; and two useless answers
    and a good one to the entity request, followed by three useless
    answers to the relation request on a paragraph the rule has nothing to
    say about. *)
Lemma info_extract_retry_budget_witness :
  let ner := entity_prompt cat in
  let rdf := rdf_prompt cat (json_dumps [JStr cat; JStr animal]) in
  run llm_answer (sample_info_extract 3 tt tt cat) [garbage; garbage; garbage]
  = (inl (Some (None, None)),
     attempt_trace ner garbage ++ Told (Sleep 5)
       :: attempt_trace ner garbage ++ Told (Sleep 5)
       :: attempt_trace ner garbage, [])
  ∧ run llm_answer (sample_info_extract 3 tt tt cat)
      [garbage; garbage; says "[猫, 动物]"; garbage; garbage; garbage]
    = (inl (Some (None, None)),
       (attempt_trace ner garbage ++ Told (Sleep 5)
          :: attempt_trace ner garbage ++ Told (Sleep 5)
          :: attempt_trace ner (says "[猫, 动物]"))
       ++ attempt_trace rdf garbage ++ Told (Sleep 5)
       :: attempt_trace rdf garbage ++ Told (Sleep 5)
       :: attempt_trace rdf garbage, []).
Proof.
  intros ner rdf. split.
  - refine (proj1 (proj1 (info_extract_retry_budget unit runtime_error_subclass
        INVALID_ENTITY repair_json
                     json_loads json_dumps entity_prompt rdf_prompt llm_answer
                     0 tt tt cat)
              [garbage; garbage; garbage]
              ValueError (attempt_trace ner garbage) [garbage; garbage]
              ValueError (attempt_trace ner garbage) [garbage]
              ValueError (attempt_trace ner garbage) [] _ _ _)).
    + vm_compute. reflexivity.
    + vm_compute. reflexivity.
    + vm_compute. reflexivity.
  - refine (proj1 (proj2 (info_extract_retry_budget unit runtime_error_subclass
        INVALID_ENTITY repair_json
                     json_loads json_dumps entity_prompt rdf_prompt llm_answer
                     0 tt tt cat)
              [garbage; garbage; says "[猫, 动物]"; garbage; garbage; garbage]
              [JStr cat; JStr animal]
              (attempt_trace ner garbage ++ Told (Sleep 5)
                 :: attempt_trace ner garbage ++ Told (Sleep 5)
                 :: attempt_trace ner (says "[猫, 动物]"))
              [garbage; garbage; garbage]
              ValueError (attempt_trace rdf garbage) [garbage; garbage]
              ValueError (attempt_trace rdf garbage) [garbage]
              ValueError (attempt_trace rdf garbage) [] _ _ _ _)).
    + vm_compute. reflexivity.
    + vm_compute. reflexivity.
    + vm_compute. reflexivity.
    + vm_compute. reflexivity.
Defined.



End SampleRuns.

(** ** [model_performance_cache.py]: loading the cache *)

Section LoadFacts.

Import ModelPerformanceCache.

Variable json_load : pystr → result json.

(** What the two loops keep of a dict: the values that are dicts. *)
Definition dict_part (v : json) : option (gmap pystr json) :=
  match v with JDict d => Some d | _ => None end.

Lemma convert_models_lookup (cache_value : gmap pystr json) (model_name : pystr) :
  convert_models cache_value !! model_name
  = cache_value !! model_name ≫= dict_part.
Proof.
  unfold convert_models.
  apply (map_fold_weak_ind
           (λ (converted : gmap pystr (gmap pystr json)) (m : gmap pystr json),
              converted !! model_name = m !! model_name ≫= dict_part)).
  - by rewrite !lookup_empty.
  - intros i x m r Hi IH.
    destruct (decide (i = model_name)) as [->|Hne].
    + rewrite lookup_insert_eq. simpl.
      destruct x; simpl; rewrite ?lookup_insert_eq; try done;
        by rewrite IH, Hi.
    + rewrite (lookup_insert_ne m) by done.
      destruct x; simpl; rewrite ?lookup_insert_ne by done; done.
Qed.

Lemma convert_lookup (data : gmap pystr json) (cache_key : pystr) :
  convert data !! cache_key
  = convert_models <$> (data !! cache_key ≫= dict_part).
Proof.
  unfold convert.
  apply (map_fold_weak_ind
           (λ (converted : gmap pystr (gmap pystr (gmap pystr json)))
              (m : gmap pystr json),
              converted !! cache_key
              = convert_models <$> (m !! cache_key ≫= dict_part))).
  - by rewrite !lookup_empty.
  - intros i x m r Hi IH.
    destruct (decide (i = cache_key)) as [->|Hne].
    + rewrite lookup_insert_eq. simpl.
      destruct x; simpl; rewrite ?lookup_insert_eq; try done;
        by rewrite IH, Hi.
    + rewrite (lookup_insert_ne m) by done.
      destruct x; simpl; rewrite ?lookup_insert_ne by done; done.
Qed.

Lemma load_ok (fs : disk) (cache_path : pystr) :
  ∃ cache, _load json_load fs cache_path = Ok cache.
Proof.
  unfold _load. destruct (exists_ fs cache_path); simpl; [|eauto].
  unfold except.
  match goal with |- ∃ c, match ?r with _ => _ end = _ => destruct r end; eauto.
Qed.

(** C9. [_load] never raises.  It returns the empty dict when the cache
    file is missing, when it cannot be read, when its text does not parse
    and when the parsed document is no dict.  From a parsed dict it keeps
    the entries whose value is a dict and drops the others without a
    word, and within a kept entry it keeps the models whose metrics are
    a dict. *)
Theorem load_never_fails (fs : disk) (cache_path : pystr) :
  (∃ cache, _load json_load fs cache_path = Ok cache)
  ∧ (exists_ fs cache_path = false → _load json_load fs cache_path = Ok ∅)
  ∧ (∀ err, read fs cache_path = Raise err →
       _load json_load fs cache_path = Ok ∅)
  ∧ (∀ text err, read fs cache_path = Ok text → json_load text = Raise err →
       _load json_load fs cache_path = Ok ∅)
  ∧ (∀ text data, read fs cache_path = Ok text → json_load text = Ok data →
       is_dict data = false → _load json_load fs cache_path = Ok ∅)
  ∧ (∀ text data, exists_ fs cache_path = true →
       read fs cache_path = Ok text → json_load text = Ok (JDict data) →
       ∃ cache, _load json_load fs cache_path = Ok cache
         ∧ (∀ cache_key value, data !! cache_key = Some value →
              is_dict value = false → cache !! cache_key = None)
         ∧ (∀ cache_key models, data !! cache_key = Some (JDict models) →
              ∃ kept, cache !! cache_key = Some kept
                ∧ ∀ model_name,
                    kept !! model_name = models !! model_name ≫= dict_part)).
Proof.
  split; [apply load_ok|]. unfold _load.
  split; [by intros ->|]. split; [|split; [|split]].
  - intros err H. destruct (exists_ fs cache_path); simpl; [|done]. by rewrite H.
  - intros text err H1 H2. destruct (exists_ fs cache_path); simpl; [|done].
    rewrite H1. simpl. by rewrite H2.
  - intros text data H1 H2 H3. destruct (exists_ fs cache_path); simpl; [|done].
    rewrite H1. simpl. rewrite H2. simpl. by destruct data.
  - intros text data -> H1 H2. simpl. rewrite H1. simpl. rewrite H2. simpl.
    eexists. split; [done|]. split.
    + intros cache_key value Hv Hnd. rewrite convert_lookup, Hv. simpl.
      by destruct value.
    + intros cache_key models Hv. rewrite convert_lookup, Hv. simpl.
      eexists. split; [done|]. intros model_name. apply convert_models_lookup.
Qed.

End LoadFacts.

Section LoadSample.

Import ModelPerformanceCache Sample.

(** A missing file, an unreadable one, one that does not parse, one that
    holds a list, and one with a well-formed and an ill-formed entry. *)
Lemma load_never_fails_witness :
  _load json_load (disk_with None) (u "stats.json") = Ok ∅
  ∧ _load json_load
      {| exists_ := λ _, true; read := λ _, Raise (OtherError (u "PermissionError")) |}
      (u "stats.json") = Ok ∅
  ∧ _load json_load (disk_with (Some (u "{"))) (u "stats.json") = Ok ∅
  ∧ _load json_load (disk_with (Some (u "list"))) (u "stats.json") = Ok ∅
  ∧ ∃ cache,
      _load json_load (disk_with (Some (u "cache"))) (u "stats.json") = Ok cache
      ∧ cache !! u "stale" = None
      ∧ ∃ kept, cache !! u "chat" = Some kept
          ∧ kept !! u "model-a" = Some metrics
          ∧ kept !! u "model-b" = None.
Proof.
  split; [|split; [|split; [|split]]].
  - apply (proj1 (proj2 (load_never_fails json_load (disk_with None) (u "stats.json")))).
    vm_compute. reflexivity.
  - apply (proj1 (proj2 (proj2 (load_never_fails json_load _ (u "stats.json"))))
             (OtherError (u "PermissionError"))).
    vm_compute. reflexivity.
  - apply (proj1 (proj2 (proj2 (proj2
             (load_never_fails json_load (disk_with (Some (u "{"))) (u "stats.json")))))
             (u "{") ValueError).
    + vm_compute. reflexivity.
    + vm_compute. reflexivity.
  - apply (proj1 (proj2 (proj2 (proj2 (proj2
             (load_never_fails json_load (disk_with (Some (u "list"))) (u "stats.json"))))))
             (u "list") (JList [])).
    + vm_compute. reflexivity.
    + vm_compute. reflexivity.
    + vm_compute. reflexivity.
  - destruct (proj2 (proj2 (proj2 (proj2 (proj2
               (load_never_fails json_load (disk_with (Some (u "cache")))
                  (u "stats.json"))))))
               (u "cache")
               {[ u "chat" := JDict {[ u "model-a" := JDict metrics;
                                        u "model-b" := JInt 7 ]};
                  u "stale" := JStr (u "n/a") ]})
      as (cache & Hload & Hdrop & Hkeep).
    + vm_compute. reflexivity.
    + vm_compute. reflexivity.
    + vm_compute. reflexivity.
    + exists cache. split; [exact Hload|]. split.
      * apply (Hdrop (u "stale") (JStr (u "n/a"))); vm_compute; reflexivity.
      * destruct (Hkeep (u "chat")
                    {[ u "model-a" := JDict metrics; u "model-b" := JInt 7 ]})
          as (kept & Hk & Hmodels).
        { vm_compute. reflexivity. }
        exists kept. split; [exact Hk|]. split.
        -- rewrite Hmodels. vm_compute. reflexivity.
        -- rewrite Hmodels. vm_compute. reflexivity.
Defined.

End LoadSample.

(** ** [message_recorder.py]: the list of participants *)

Section RecorderFacts.

Import MessageRecorder.

Variable Time : Type.
Variable now : Time.
Variable Person : pystr → pystr → result (option pystr).

Abbreviation person_dict' := (list (pystr * PersonInfo Time)).
Abbreviation update := (update_person Time now Person).
Abbreviation update_list := (_update_person_list Time now Person).

Implicit Types (d : person_dict') (key : pystr).

Lemma touch_keys key (t : Time) d : (touch Time key t d).*1 = d.*1.
Proof.
  unfold touch. rewrite <- list_fmap_compose. apply list_fmap_ext.
  intros i [k v] _. simpl. by destruct (decide (k = key)).
Qed.

Lemma filter_ne_notin key (l : list pystr) :
  key ∉ l → filter (λ k, k ≠ key) l = l.
Proof.
  induction l as [|k l IH]; intros Hk; [done|].
  apply not_elem_of_cons in Hk as [Hne Hk].
  rewrite filter_cons_True by done. by rewrite IH.
Qed.

Lemma del_keys key d :
  NoDup d.*1 → (del Time key d).*1 = filter (λ k, k ≠ key) d.*1.
Proof.
  induction d as [|[k v] d IH]; intros Hnd; [done|].
  rewrite fmap_cons in Hnd. apply NoDup_cons in Hnd as [Hk Hnd].
  cbn [del fst]. rewrite fmap_cons. cbn [fst].
  destruct (decide (k = key)) as [->|Hne].
  - rewrite filter_cons_False by (intros H; by apply H).
    by rewrite filter_ne_notin.
  - rewrite filter_cons_True by done. by rewrite fmap_cons, IH.
Qed.

Lemma get_is_Some key d : key ∈ d.*1 → is_Some (get Time key d).
Proof.
  induction d as [|[k v] d IH]; [by intros ?%elem_of_nil|].
  rewrite fmap_cons. cbn [get fst snd].
  intros [Heq|H]%elem_of_cons; destruct (decide (k = key)); eauto; congruence.
Qed.

Lemma move_to_end_keys key d :
  NoDup d.*1 → key ∈ d.*1 →
  (move_to_end Time key d).*1 = filter (λ k, k ≠ key) d.*1 ++ [key].
Proof.
  intros Hnd Hin. unfold move_to_end.
  destruct (get_is_Some key d Hin) as [v ->].
  by rewrite fmap_app, del_keys.
Qed.

Lemma length_filter_ne key (l : list pystr) :
  NoDup l → key ∈ l → S (length (filter (λ k, k ≠ key) l)) = length l.
Proof.
  induction l as [|k l IH]; intros Hnd Hin; [by apply elem_of_nil in Hin|].
  apply NoDup_cons in Hnd as [Hk Hnd].
  destruct (decide (k = key)) as [->|Hne].
  - rewrite filter_cons_False by (intros H; by apply H). simpl. f_equal.
    by rewrite filter_ne_notin.
  - rewrite filter_cons_True by done. simpl. f_equal. apply IH; [done|].
    apply elem_of_cons in Hin as [->|]; done.
Qed.

Lemma NoDup_filter_snoc key (l : list pystr) :
  NoDup l → NoDup (filter (λ k, k ≠ key) l ++ [key]).
Proof.
  intros Hnd. apply NoDup_app. split; [by apply NoDup_filter|]. split.
  - intros x [Hx _]%list_elem_of_filter ->%list_elem_of_singleton. done.
  - apply NoDup_singleton.
Qed.

(** The key under which a message counts: none when the sender's id or
    platform is missing or empty. *)
Definition participant (msg : Message Time) : option pystr :=
  let user_id := default [] (sender_id (sender_of Time msg)) in
  let user_platform := default [] (sender_platform (sender_of Time msg)) in
  if is_empty user_id || is_empty user_platform then None
  else Some (user_platform ++ u ":" ++ user_id).

Definition keys_of (self : recorder Time) : list pystr := (_person_list Time self).*1.

Lemma update_skip (self : recorder Time) msg :
  participant msg = None → update self msg = Ok self.
Proof.
  unfold participant, update_person.
  by destruct (is_empty _ || is_empty _).
Qed.

Lemma update_known (self : recorder Time) msg key :
  participant msg = Some key → key ∈ keys_of self →
  update self msg
  = Ok {| _person_list :=
            move_to_end Time key
              (touch Time key (time_of Time now msg) (_person_list Time self));
          _max_person_count := _max_person_count Time self |}.
Proof.
  unfold participant, update_person, keys_of, has_key.
  destruct (is_empty _ || is_empty _); [done|].
  intros [= <-] Hin. by rewrite bool_decide_eq_true_2.
Qed.

Lemma update_new_room (self : recorder Time) msg key :
  participant msg = Some key → key ∉ keys_of self →
  len (_person_list Time self) < _max_person_count Time self →
  ∃ info, last_seen_time Time info = time_of Time now msg
    ∧ update self msg
      = Ok {| _person_list := _person_list Time self ++ [(key, info)];
              _max_person_count := _max_person_count Time self |}.
Proof.
  unfold participant, update_person, keys_of, has_key.
  destruct (is_empty _ || is_empty _); [done|].
  intros [= <-] Hin Hlen. rewrite bool_decide_eq_false_2 by done.
  apply Z.leb_gt in Hlen. rewrite Z.geb_leb, Hlen. simpl.
  eexists. split; [|reflexivity]. done.
Qed.

Lemma update_new_full (self : recorder Time) msg key oldest_key oldest rest :
  participant msg = Some key → key ∉ keys_of self →
  _max_person_count Time self ≤ len (_person_list Time self) →
  _person_list Time self = (oldest_key, oldest) :: rest →
  ∃ info, last_seen_time Time info = time_of Time now msg
    ∧ update self msg
      = Ok {| _person_list := rest ++ [(key, info)];
              _max_person_count := _max_person_count Time self |}.
Proof.
  unfold participant, update_person, keys_of, has_key.
  destruct (is_empty _ || is_empty _); [done|].
  intros [= <-] Hin Hlen Hd. rewrite bool_decide_eq_false_2 by done.
  apply Z.leb_le in Hlen. rewrite Z.geb_leb, Hlen. rewrite Hd. cbn [del fst].
  rewrite decide_True by done. simpl.
  eexists. split; [|reflexivity]. done.
Qed.

(** What holds of every recorder that [__init__] and
    [_update_person_list] can produce. *)
Definition well_kept (self : recorder Time) : Prop :=
  _max_person_count Time self = 30
  ∧ (length (_person_list Time self) ≤ 30)%nat
  ∧ NoDup (keys_of self).

(** The keys after one message, on the keys before it. *)
Definition step_keys (ks : list pystr) (participant : option pystr) : list pystr :=
  match participant with
  | None => ks
  | Some key =>
    if decide (key ∈ ks) then filter (λ k, k ≠ key) ks ++ [key]
    else (if decide (30 ≤ length ks)%nat then tail ks else ks) ++ [key]
  end.

Lemma update_well_kept (self : recorder Time) msg :
  well_kept self →
  ∃ self', update self msg = Ok self'
    ∧ well_kept self'
    ∧ keys_of self' = step_keys (keys_of self) (participant msg).
Proof.
  intros (Hmax & Hlen & Hnd).
  destruct (participant msg) as [key|] eqn:Hp.
  - unfold step_keys. destruct (decide (key ∈ keys_of self)) as [Hin|Hnin].
    + rewrite (update_known self msg key Hp Hin). eexists. split; [done|].
      set (d' := move_to_end Time key
                   (touch Time key (time_of Time now msg) (_person_list Time self))).
      assert (d'.*1 = filter (λ k, k ≠ key) (keys_of self) ++ [key]) as Hkeys.
      { unfold d', keys_of. rewrite move_to_end_keys; rewrite touch_keys; done. }
      split; [|exact Hkeys]. split; [done|]. split.
      * cbn [_person_list]. rewrite <- (length_fmap fst d'), Hkeys, length_app.
        simpl.
        pose proof (length_filter_ne key (keys_of self) Hnd Hin) as Hl.
        unfold keys_of in Hl at 2. rewrite length_fmap in Hl. lia.
      * unfold keys_of at 1. cbn [_person_list]. rewrite Hkeys.
        by apply NoDup_filter_snoc.
    + destruct (decide (30 ≤ length (keys_of self))%nat) as [Hfull|Hroom].
      * unfold keys_of in Hfull. rewrite length_fmap in Hfull.
        destruct (_person_list Time self) as [|[k0 v0] rest] eqn:Hd;
          [simpl in Hfull; lia|].
        destruct (update_new_full self msg key k0 v0 rest Hp Hnin) as (info & _ & ->);
          [rewrite Hmax, Hd; unfold len; lia | done |].
        eexists. split; [done|].
        unfold well_kept, keys_of in *. rewrite Hd in *.
        cbn [_person_list _max_person_count length] in *.
        rewrite fmap_cons in *. rewrite fmap_app, length_app. cbn [tail length].
        split; [|done]. split; [done|]. split; [lia|].
        apply NoDup_cons in Hnd as [_ Hnd].
        apply NoDup_app. split; [done|]. split; [|apply NoDup_singleton].
        intros x Hx ->%list_elem_of_singleton. apply Hnin. by right.
      * unfold keys_of in Hroom. rewrite length_fmap in Hroom.
        destruct (update_new_room self msg key Hp Hnin) as (info & _ & ->);
          [rewrite Hmax; unfold len; lia|].
        eexists. split; [done|].
        unfold well_kept, keys_of in *.
        cbn [_person_list _max_person_count] in *.
        rewrite fmap_app, length_app. cbn [length].
        split; [|done]. split; [done|]. split; [lia|].
        apply NoDup_app. split; [done|]. split; [|apply NoDup_singleton].
        by intros x Hx ->%list_elem_of_singleton.
  - rewrite (update_skip self msg Hp). by eexists.
Qed.

(** The order of last appearance: the distinct keys seen so far, the one
    seen last at the end. *)
Definition seen (r : list pystr) (participant : option pystr) : list pystr :=
  match participant with
  | None => r
  | Some key => filter (λ k, k ≠ key) r ++ [key]
  end.

Definition recency (participants : list (option pystr)) : list pystr :=
  foldl seen [] participants.

(** The [n] keys seen last. *)
Definition most_recent (n : nat) (r : list pystr) : list pystr :=
  drop (length r - n) r.

Lemma NoDup_seen r p : NoDup r → NoDup (seen r p).
Proof. destruct p as [key|]; [apply NoDup_filter_snoc | done]. Qed.

Lemma lru_step (r : list pystr) (p : option pystr) :
  NoDup r → step_keys (most_recent 30 r) p = most_recent 30 (seen r p).
Proof.
  intros Hnd. destruct p as [key|]; [|done]. unfold step_keys, seen, most_recent.
  set (n := (length r - 30)%nat).
  assert (r = take n r ++ drop n r) as Hr by (by rewrite take_drop).
  set (pre := take n r) in *. set (ks := drop n r) in *.
  assert (length pre = n) as Hpre by (unfold pre; rewrite length_take; lia).
  assert (length ks = (length r - n)%nat) as Hks by (unfold ks; apply length_drop).
  assert (NoDup pre ∧ (∀ x, x ∈ pre → x ∉ ks) ∧ NoDup ks) as (Hnd1 & Hdisj & Hnd2).
  { apply NoDup_app. by rewrite <- Hr. }
  assert (filter (λ k, k ≠ key) r
          = filter (λ k, k ≠ key) pre ++ filter (λ k, k ≠ key) ks) as Hf.
  { rewrite Hr at 1. apply filter_app. }
  rewrite Hf.
  destruct (decide (key ∈ ks)) as [Hin|Hnin].
  - assert (key ∉ pre) as Hnp by (intros Hp; by apply (Hdisj key Hp)).
    rewrite (filter_ne_notin key pre Hnp).
    pose proof (length_filter_ne key ks Hnd2 Hin) as Hl.
    rewrite <- app_assoc. symmetry. apply drop_app_length'.
    rewrite !length_app. simpl. lia.
  - rewrite (filter_ne_notin key ks Hnin).
    destruct (decide (30 ≤ length ks)%nat) as [Hfull|Hroom].
    + destruct ks as [|k0 ks'] eqn:Eks; [simpl in Hfull; lia|]. cbn [tail].
      destruct (decide (key ∈ pre)) as [Hp|Hnp].
      * pose proof (length_filter_ne key pre Hnd1 Hp) as Hl.
        rewrite <- app_assoc.
        rewrite drop_app_ge by (rewrite !length_app; simpl in *; lia).
        replace (_ - _)%nat with 1%nat by (rewrite !length_app; simpl in *; lia).
        done.
      * rewrite (filter_ne_notin key pre Hnp). rewrite <- app_assoc.
        rewrite drop_app_ge by (rewrite !length_app; simpl in *; lia).
        replace (_ - _)%nat with 1%nat by (rewrite !length_app; simpl in *; lia).
        done.
    + assert (n = 0%nat) as Hn by lia.
      assert (pre = []) as -> by (apply length_zero_iff_nil; lia).
      rewrite filter_nil. simpl.
      replace (_ - _)%nat with 0%nat by (rewrite length_app; simpl; lia).
      done.
Qed.

Lemma update_list_well_kept (messages : list (Message Time)) (self : recorder Time) :
  well_kept self →
  ∃ self', update_list self messages = Ok self'
    ∧ well_kept self'
    ∧ keys_of self' = foldl step_keys (keys_of self) (participant <$> messages).
Proof.
  revert self. induction messages as [|msg messages IH]; intros self Hself.
  - by exists self.
  - destruct (update_well_kept self msg Hself) as (self1 & Hupd & Hkept & Hkeys).
    destruct (IH self1 Hkept) as (self' & Hrest & Hkept' & Hkeys').
    exists self'. cbn [_update_person_list]. rewrite Hupd. cbn [mbind result_bind].
    split; [done|]. split; [done|]. rewrite fmap_cons. cbn [foldl].
    by rewrite <- Hkeys.
Qed.

Lemma after_batches_well_kept (batches : list (list (Message Time)))
    (self : recorder Time) :
  well_kept self →
  ∃ self', after_batches Time now Person self batches = Ok self'
    ∧ well_kept self'
    ∧ keys_of self'
      = foldl step_keys (keys_of self) (participant <$> concat batches).
Proof.
  revert self. induction batches as [|messages batches IH]; intros self Hself.
  - by exists self.
  - destruct (update_list_well_kept messages self Hself)
      as (self1 & Hupd & Hkept & Hkeys).
    destruct (IH self1 Hkept) as (self' & Hrest & Hkept' & Hkeys').
    exists self'. cbn [after_batches]. rewrite Hupd. cbn [mbind result_bind].
    split; [done|]. split; [done|]. cbn [concat].
    by rewrite fmap_app, foldl_app, <- Hkeys.
Qed.

Lemma foldl_step_keys_lru (ps : list (option pystr)) (r : list pystr) :
  NoDup r →
  foldl step_keys (most_recent 30 r) ps = most_recent 30 (foldl seen r ps).
Proof.
  revert r. induction ps as [|p ps IH]; intros r Hnd; [done|]. cbn [foldl].
  rewrite lru_step by done. apply IH. by apply NoDup_seen.
Qed.

Lemma init_well_kept : well_kept (init Time).
Proof. split; [done|]. split; [simpl; lia|]. apply NoDup_nil_2. Qed.

(** C8. The list of participants is a least-recently-seen cache of 30
    entries.  Starting from [__init__], after any sequence of calls of
    [_update_person_list] the list holds at most 30 participants, each
    once, and they are the 30 participants seen last, in the order in
    which they were last seen; a call never raises, and keeps the bound
    whenever it held before.  A new participant arriving at a full list
    takes the place of the entry at the front, which goes; a participant
    already listed moves to the end. *)
Theorem person_list_bounded_lru :
  (∀ batches, ∃ self,
     after_batches Time now Person (init Time) batches = Ok self
     ∧ (length (_person_list Time self) ≤ 30)%nat
     ∧ NoDup (keys_of self)
     ∧ keys_of self = most_recent 30 (recency (participant <$> concat batches)))
  ∧ (∀ self messages, well_kept self →
       ∃ self', update_list self messages = Ok self'
         ∧ (length (_person_list Time self') ≤ 30)%nat)
  ∧ (∀ self msg key oldest_key oldest rest,
       well_kept self → participant msg = Some key → key ∉ keys_of self →
       _person_list Time self = (oldest_key, oldest) :: rest →
       length (_person_list Time self) = 30%nat →
       ∃ info, update self msg
               = Ok {| _person_list := rest ++ [(key, info)];
                       _max_person_count := 30 |})
  ∧ (∀ self msg key,
       well_kept self → participant msg = Some key → key ∈ keys_of self →
       ∃ self', update self msg = Ok self'
         ∧ keys_of self' = filter (λ k, k ≠ key) (keys_of self) ++ [key]).
Proof.
  split; [|split; [|split]].
  - intros batches.
    destruct (after_batches_well_kept batches (init Time) init_well_kept)
      as (self & Hrun & (Hmax & Hlen & Hnd) & Hkeys).
    exists self. split; [done|]. split; [done|]. split; [done|].
    rewrite Hkeys. apply (foldl_step_keys_lru _ []). apply NoDup_nil_2.
  - intros self messages Hself.
    destruct (update_list_well_kept messages self Hself)
      as (self' & Hrun & (Hmax & Hlen & Hnd) & _).
    by exists self'.
  - intros self msg key oldest_key oldest rest (Hmax & _ & _) Hp Hnin Hd Hlen.
    destruct (update_new_full self msg key oldest_key oldest rest Hp Hnin)
      as (info & _ & Hupd); [unfold len; lia | done |].
    exists info. by rewrite Hupd, Hmax.
  - intros self msg key Hself Hp Hin.
    destruct (update_well_kept self msg Hself) as (self' & Hupd & _ & Hkeys).
    exists self'. split; [done|]. rewrite Hkeys, Hp. unfold step_keys.
    by rewrite decide_True.
Qed.

End RecorderFacts.

Section RecorderSample.

Import MessageRecorder Sample.

Lemma full_house_reached :
  _update_person_list Z 0 no_person (init Z) (message <$> seq 0 30) = Ok full_house.
Proof. vm_compute. reflexivity. Qed.

Lemma full_house_well_kept : well_kept Z full_house.
Proof.
  split; [reflexivity|]. split; [vm_compute; lia|].
  apply (bool_decide_unpack (NoDup (keys_of Z full_house))).
  vm_compute. exact I.
Defined.

(** Thirty participants fill the list; the thirty-first takes the place
    of participant 0, and participant 5 writing again moves to the end. *)
Lemma person_list_bounded_lru_witness :
  (∃ self', _update_person_list Z 0 no_person full_house [message 30; message 5]
            = Ok self'
      ∧ (length (_person_list Z self') ≤ 30)%nat)
  ∧ (∃ info, update_person Z 0 no_person full_house (message 30)
             = Ok {| _person_list :=
                       ((λ i, (key i, person i (Z.of_nat i))) <$> seq 1 29)
                       ++ [(key 30, info)];
                     _max_person_count := 30 |})
  ∧ (∃ self', update_person Z 0 no_person full_house (message 5) = Ok self'
      ∧ keys_of Z self'
        = filter (λ k, k ≠ key 5) (keys_of Z full_house) ++ [key 5]).
Proof.
  split; [|split].
  - apply (proj1 (proj2 (person_list_bounded_lru Z 0 no_person))).
    exact full_house_well_kept.
  - apply (proj1 (proj2 (proj2 (person_list_bounded_lru Z 0 no_person)))
             full_house (message 30) (key 30) (key 0) (person 0 0)).
    + exact full_house_well_kept.
    + vm_compute. reflexivity.
    + apply (bool_decide_unpack (key 30 ∉ keys_of Z full_house)).
      vm_compute. exact I.
    + vm_compute. reflexivity.
    + vm_compute. reflexivity.
  - apply (proj2 (proj2 (proj2 (person_list_bounded_lru Z 0 no_person)))).
    + exact full_house_well_kept.
    + vm_compute. reflexivity.
    + apply (bool_decide_unpack (key 5 ∈ keys_of Z full_house)).
      vm_compute. exact I.
Defined.

End RecorderSample.

(** ** [delete_lpmm_items.py]: the guard on large deletions *)

Section MainFacts.

Import DeleteLpmmItems.

Variable get_sha256 : pystr → pystr.
Variable json_loads : pystr → result json.
Variable str_of_tuple : list json → pystr.
Variable int_of_str : pystr → option Z.

Context {W : Type}.
Variable answer : ∀ X, event X → W → result X * W.

Abbreviation gather' := (gather get_sha256 json_loads str_of_tuple int_of_str).
Abbreviation execute' := (execute get_sha256).
Abbreviation main' := (main get_sha256 json_loads str_of_tuple int_of_str).

(** The calls that change a collection, the graph, an index or a file. *)
Definition mutates {X} (e : event X) : Prop :=
  match e with
  | DeleteItems _ _ | SyncStoredHashes | DeleteParagraphs _ _ _
  | RebuildFaissIndex | SaveEmbeddings | SaveGraph => True
  | _ => False
  end.

(** The calls that load the collections or the graph. *)
Definition loads {X} (e : event X) : Prop :=
  match e with
  | LoadEmbeddings _ | LoadGraph => True
  | _ => False
  end.

(** What gathering the identifiers may do: report, look at files, and,
    for [--search-text] alone, load the collections into a manager of its
    own, list the paragraphs and ask for a choice. *)
Definition gathers (search : bool) (en : entry event (level * report)) : Prop :=
  match en with
  | Told _ => True
  | Called e _ =>
    match e with
    | PathExists _ | ReadText _ => True
    | NewEmbeddingManager SearchManager | LoadEmbeddings SearchManager
    | ParagraphItems | Input AskChoice => search = true
    | _ => False
    end
  end.

Lemma gathers_quiet search en :
  gathers search en →
  match en with
  | Told _ => True
  | Called e _ => ¬ mutates e ∧ (loads e → search = true)
  end.
Proof.
  destruct en as [o|X e r]; [done|].
  destruct e as [| | | m | | m | | | | | | | | |]; simpl; try done;
    try (destruct m); try done; intros H; (split; [tauto | try done]).
Qed.

Ltac walk :=
  repeat first
    [ progress cbn [mbind prog_bind bind mret prog_ret tell call attempt lift
                    log exit Prog.raise when item]
    | apply meets_ret; done
    | apply meets_halt; done
    | apply meets_tell; [done|]
    | apply meets_vis; [intros; done | intros [?|?]]
    | match goal with
      | |- meets _ (if ?c then _ else _) _ _ _ => destruct c eqn:?
      | |- meets _ (match ?x with _ => _ end) _ _ _ => destruct x eqn:?
      | |- meets _ (bind (if ?c then _ else _) _) _ _ _ => destruct c eqn:?
      | |- meets _ (bind (match ?x with _ => _ end) _) _ _ _ => destruct x eqn:?
      | |- meets _ (let '(_, _) := ?x in _) _ _ _ => destruct x eqn:?
      | |- meets _ (bind (for_each _ _ _) _) _ _ _ =>
        eapply meets_bind;
        [apply (meets_for_each _ _ _ _ (λ _, True)); [intros|done] | intros]
      | |- meets _ (for_each _ _ _ ≫= _) _ _ _ =>
        eapply meets_bind;
        [apply (meets_for_each _ _ _ _ (λ _, True)); [intros|done] | intros]
      | |- meets _ (item _ _ ≫= _) _ _ _ => unfold item
      | |- meets _ ((if ?c then _ else _) ≫= _) _ _ _ => destruct c eqn:?
      | |- meets _ (match ?x with _ => _ end ≫= _) _ _ _ => destruct x eqn:?
      | |- meets _ (for_each _ _ _) _ _ _ =>
        apply (meets_for_each _ _ _ _ (λ _, True)); [intros|done]
      | |- context [lift ?r] => destruct r eqn:?
      end ].

Lemma meets_from_hash_file args raw_hashes search :
  meets answer (from_hash_file args raw_hashes) (gathers search)
    (λ _, True) (λ _, True).
Proof. unfold from_hash_file, read_hashes. walk. Qed.

Lemma meets_from_openie_file args raw_hashes search :
  meets answer (from_openie_file json_loads str_of_tuple args raw_hashes)
    (gathers search) (λ _, True) (λ _, True).
Proof. unfold from_openie_file, read_openie_hashes. walk. Qed.

Lemma meets_from_raw_file args raw_hashes search :
  meets answer (from_raw_file get_sha256 int_of_str args raw_hashes)
    (gathers search) (λ _, True) (λ _, True).
Proof. unfold from_raw_file. walk. Qed.

Lemma meets_from_search_text args raw_hashes :
  meets answer (from_search_text int_of_str args raw_hashes)
    (gathers (given (search_text args))) (λ _, True) (λ _, True).
Proof.
  unfold from_search_text. destruct (given (search_text args)); walk.
Qed.

Lemma meets_gather args :
  meets answer (gather' args) (gathers (given (search_text args)))
    (λ _, True) (λ _, True).
Proof.
  unfold gather.
  destruct (negb _); [walk|].
  eapply meets_bind; [apply meets_from_hash_file|]. intros raw_hashes _.
  eapply meets_bind; [apply meets_from_openie_file|].
  intros [[raw_hashes' raw_entities] raw_relations] _.
  eapply meets_bind; [apply meets_from_raw_file|]. intros raw_hashes'' _.
  eapply meets_bind; [apply meets_from_search_text|]. intros raw_hashes''' _.
  by apply meets_ret.
Qed.

(** The count of line 256 for the identifiers gathered. *)
Definition candidate_total (args : Args)
    (raw : list pystr * list pystr * list pystr) : Z :=
  total_nodes_to_delete args
    (normalize_paragraph_keys (dedup_from ∅ raw.1.1)).2
    (ent_hashes_of get_sha256 args raw.1.2).

(** How [main] ends when it refuses: without any identifier it reports
    that and exits; in a dry run it reports the preview and returns; else
    it reports the count and the threshold and exits. *)
Definition refusal (args : Args) (raw : list pystr * list pystr * list pystr)
  : outcome * (level * report) :=
  if is_empty raw.1.1 then (Exited 1, (Error, NothingToDelete))
  else if dry_run args then (Returned, (Info, DryRunDone))
  else (Exited 1,
        (Error, ThresholdExceeded (candidate_total args raw) (max_delete_nodes args))).

(** The reports of lines 247 to 257 for the identifiers gathered. *)
Definition preview (args : Args) (raw : list pystr * list pystr * list pystr)
  : list (level * report) :=
  let keys := (normalize_paragraph_keys (dedup_from ∅ raw.1.1)).1 in
  let ent_hashes := ent_hashes_of get_sha256 args raw.1.2 in
  let rel_hashes := rel_hashes_of get_sha256 args raw.2 in
  [(Info, Preparing); (Info, BackupAdvice);
   (Info, ParagraphCount (len keys)); (Info, KeySample (take 5 keys))]
  ++ (if is_empty ent_hashes then [] else [(Info, EntityCount (len ent_hashes))])
  ++ (if is_empty rel_hashes then [] else [(Info, RelationCount (len rel_hashes))])
  ++ [(Info, TotalNodes (candidate_total args raw))].

(** All that [main] reports when it refuses: its last report alone
    without any identifier, the preview followed by its last report
    otherwise. *)
Definition refusal_reports (args : Args)
    (raw : list pystr * list pystr * list pystr) : list (level * report) :=
  (if is_empty raw.1.1 then [] else preview args raw) ++ [(refusal args raw).2].

Lemma preview_info args raw : Forall (λ r, r.1 = Info) (preview args raw).
Proof.
  unfold preview. repeat (apply Forall_cons; split; [done|]).
  destruct (is_empty (ent_hashes_of _ _ _)), (is_empty (rel_hashes_of _ _ _));
    by repeat constructor.
Qed.

Lemma run_execute_refused args raw (w : W) :
  yes args = false →
  candidate_total args raw > max_delete_nodes args →
  run answer (execute' args raw) w
  = (inr (refusal args raw).1, Told <$> refusal_reports args raw, w).
Proof.
  intros Hyes Htotal. destruct raw as [[raw_hashes raw_entities] raw_relations].
  unfold refusal_reports, preview, refusal, candidate_total in *.
  cbn [fst snd] in *. unfold execute.
  destruct raw_hashes as [|h raw_hashes]; [done|].
  cbn [dedup_from is_empty] in *.
  rewrite decide_False in * by apply not_elem_of_empty. cbn [is_empty].
  destruct (normalize_paragraph_keys _) as [keys pg_hashes].
  cbn [fst snd] in *. apply Z.gt_lt, Z.gtb_lt in Htotal.
  rewrite Htotal, Hyes.
  destruct (is_empty (ent_hashes_of get_sha256 args raw_entities));
    destruct (is_empty (rel_hashes_of get_sha256 args raw_relations));
    destruct (dry_run args); reflexivity.
Qed.

(** C1, as the code has it.  Take a request without [--yes] for which the
    identifiers were gathered and the count of line 256 exceeds
    [max_delete_nodes].  From there on [main] calls nothing and only
    reports: no manager for the deletion is built, nothing is loaded and
    nothing is changed.  Outside a dry run it ends with exit status 1 and
    its last report is an error that carries the count and the
    threshold; in a dry run it returns after the preview, and none of its
    reports from the count on is an error.  Every report before the last
    is a line of the preview, at level [Info].  While gathering, [main]
    only reports, looks for files and reads them and, for
    [--search-text] alone, builds a manager of its own, loads the
    collections into it, lists the paragraphs and asks for a choice: it
    builds no manager for the deletion, loads no graph, reads no
    statistics, asks for no confirmation and changes nothing there
    either. *)
Theorem threshold_refusal (args : Args) (w : W) raw t1 w1 :
  run answer (gather' args) w = (inl raw, t1, w1) →
  yes args = false →
  candidate_total args raw > max_delete_nodes args →
  run answer (main' args) w
  = (inr (refusal args raw).1, t1 ++ (Told <$> refusal_reports args raw), w1)
  ∧ Forall (gathers (given (search_text args))) t1
  ∧ Forall (λ en, match en with
                  | Told _ => True
                  | Called e _ =>
                    ¬ mutates e ∧ (loads e → given (search_text args) = true)
                  end) t1
  ∧ (∃ earlier,
       refusal_reports args raw = earlier ++ [(refusal args raw).2]
       ∧ Forall (λ r, r.1 = Info) earlier)
  ∧ (is_empty raw.1.1 = false → dry_run args = true →
     (refusal args raw).1 = Returned
     ∧ Forall (λ r, r.1 = Info) (refusal_reports args raw))
  ∧ (dry_run args = false →
     (refusal args raw).1 = Exited 1 ∧ (refusal args raw).2.1 = Error).
Proof.
  intros Hgather Hyes Htotal.
  pose proof (run_execute_refused args raw w1 Hyes Htotal) as Hrun.
  destruct (meets_gather args w) as [Ht _]. rewrite Hgather in Ht.
  cbn [fst snd] in Ht.
  assert (Forall (λ r : level * report, r.1 = Info)
            (if is_empty raw.1.1 then [] else preview args raw)) as Hearlier.
  { destruct (is_empty raw.1.1); [done|apply preview_info]. }
  split; [|split; [|split; [|split; [|split]]]].
  - unfold main. by rewrite run_bind, Hgather, Hrun.
  - exact Ht.
  - eapply Forall_impl; [exact Ht|]. apply gathers_quiet.
  - eexists. split; [reflexivity|exact Hearlier].
  - intros Hsome Hdry. unfold refusal_reports, refusal in *.
    rewrite Hsome, Hdry in *. split; [done|].
    apply Forall_app. split; [exact Hearlier|by repeat constructor].
  - intros Hdry. unfold refusal. rewrite Hdry. by destruct (is_empty raw.1.1).
Qed.

End MainFacts.

Section MainSample.

Import DeleteLpmmItems Sample.

Abbreviation sample_gather := (gather sha no_json tuple_text int_of_str).
Abbreviation sample_main := (main sha no_json tuple_text int_of_str).

(** Three identifiers against a threshold of 2: [main] reads the file,
    reports the preview and the error, and exits with status 1; the
    outside is as it was. *)
Lemma threshold_refusal_witness :
  run main_answer (sample_main by_file) house
  = (inr (Exited 1),
     reads_ids
     ++ (Told <$> [(Info, Preparing); (Info, BackupAdvice);
                   (Info, ParagraphCount 3);
                   (Info, KeySample [u "paragraph-a"; u "paragraph-b";
                                     u "paragraph-c"]);
                   (Info, TotalNodes 3);
                   (Error, ThresholdExceeded 3 2)]),
     house)
  ∧ Forall (gathers false) reads_ids.
Proof.
  pose proof (threshold_refusal sha no_json tuple_text int_of_str main_answer
                by_file house ([u "a"; u "b"; u "paragraph-c"], [], [])
                reads_ids house) as H.
  destruct H as (Hrun & Hgathers & _).
  - vm_compute. reflexivity.
  - reflexivity.
  - vm_compute. reflexivity.
  - split; [exact Hrun|exact Hgathers].
Defined.

Definition is_error (en : entry event (level * report)) : Prop :=
  match en with Told (Error, _) => True | _ => False end.

(** C1 as stated fails.  In a dry run over the same three identifiers
    [main] returns without any error report; and with [--search-text] it
    has loaded the collections before it refuses. *)
Lemma threshold_refusal_counterexample :
  (yes by_file_dry = false
   ∧ candidate_total sha by_file_dry ([u "a"; u "b"; u "paragraph-c"], [], [])
     > max_delete_nodes by_file_dry
   ∧ (run main_answer (sample_main by_file_dry) house).1.1 = inr Returned
   ∧ Forall (λ en, ¬ is_error en)
       (run main_answer (sample_main by_file_dry) house).1.2)
  ∧ (yes by_search = false
     ∧ (run main_answer (sample_main by_search) house).1.1 = inr (Exited 1)
     ∧ (run main_answer (sample_main by_search) house).1.2 !! 2%nat
       = Some (Called (LoadEmbeddings SearchManager) (Ok tt))
     ∧ last (run main_answer (sample_main by_search) house).1.2
       = Some (Told (Error, ThresholdExceeded 3 2))).
Proof.
  split.
  - split; [reflexivity|]. split; [vm_compute; reflexivity|].
    split; [vm_compute; reflexivity|].
    assert ((run main_answer (sample_main by_file_dry) house).1.2
            = reads_ids
              ++ (Told <$> [(Info, Preparing); (Info, BackupAdvice);
                            (Info, ParagraphCount 3);
                            (Info, KeySample [u "paragraph-a"; u "paragraph-b";
                                              u "paragraph-c"]);
                            (Info, TotalNodes 3); (Info, DryRunDone)])) as ->
      by (vm_compute; reflexivity).
    repeat constructor; intros [].
  - split; [reflexivity|]. split; [vm_compute; reflexivity|].
    split; vm_compute; reflexivity.
Qed.

End MainSample.

(** * Further properties of the same sources *)

Local Set Warnings "-clear-no-such-hyp".

(** ** The keys and identifiers of [delete_lpmm_items.py] *)

Section KeyFacts.

Import DeleteLpmmItems.

Lemma normalize_one_again (h : pystr) :
  normalize_one (normalize_one h).1 = normalize_one h.
Proof.
  unfold normalize_one at 2 3.
  destruct (startswith paragraph_prefix h) eqn:E; cbn [fst].
  - unfold normalize_one. by rewrite E.
  - unfold normalize_one. rewrite startswith_app.
    rewrite replace_prefix_once by (done || apply startswith_app).
    by rewrite drop_app_length.
Qed.

(** X1. Feeding the keys that [normalize_paragraph_keys] returns back into it
    gives the same keys and the same hashes: a full key and the bare hash
    it was made from name the same paragraph. *)
Theorem normalize_paragraph_keys_again (raw_hashes : list pystr) :
  normalize_paragraph_keys (normalize_paragraph_keys raw_hashes).1
  = normalize_paragraph_keys raw_hashes.
Proof.
  unfold normalize_paragraph_keys. rewrite !normalize_loop_eq. cbn [fst app].
  rewrite <- !list_fmap_compose. f_equal.
  - apply list_fmap_ext. intros i h _. cbn. by rewrite normalize_one_again.
  - apply list_fmap_ext. intros i h _. cbn. by rewrite normalize_one_again.
Qed.

Lemma dedup_from_elem (seen : gset pystr) (l : list pystr) (x : pystr) :
  x ∈ dedup_from seen l ↔ x ∈ l ∧ x ∉ seen.
Proof.
  revert seen. induction l as [|h l IH]; intros seen; cbn [dedup_from].
  - split; [by intros ?%elem_of_nil | by intros [?%elem_of_nil _]].
  - destruct (decide (h ∈ seen)) as [Hin|Hnin].
    + rewrite IH, elem_of_cons. split; [naive_solver|].
      intros [[->|?] ?]; [done|by split].
    + rewrite !elem_of_cons, IH. split.
      * intros [->|[? ?]]; [by split; [left|]|]. split; [by right|]. set_solver.
      * intros [[->|?] ?]; [by left|].
        destruct (decide (x = h)) as [->|]; [by left|]. right. set_solver.
Qed.

Lemma dedup_from_NoDup (seen : gset pystr) (l : list pystr) :
  NoDup (dedup_from seen l).
Proof.
  revert seen. induction l as [|h l IH]; intros seen; cbn [dedup_from].
  - constructor.
  - destruct (decide (h ∈ seen)); [apply IH|].
    constructor; [|apply IH]. rewrite dedup_from_elem. set_solver.
Qed.

Lemma dedup_from_sublist (seen : gset pystr) (l : list pystr) :
  dedup_from seen l `sublist_of` l.
Proof.
  revert seen. induction l as [|h l IH]; intros seen; cbn [dedup_from]; [done|].
  destruct (decide (h ∈ seen)).
  - by apply sublist_cons.
  - by apply sublist_skip.
Qed.

Lemma dedup_from_id (seen : gset pystr) (l : list pystr) :
  NoDup l → (∀ x, x ∈ l → x ∉ seen) → dedup_from seen l = l.
Proof.
  revert seen. induction l as [|h l IH]; intros seen Hnd Hseen; [done|].
  apply NoDup_cons in Hnd as [Hh Hnd]. cbn [dedup_from].
  rewrite decide_False by (apply Hseen; by left). f_equal. apply IH; [done|].
  intros x Hx. specialize (Hseen x (list_elem_of_further _ _ _ Hx)).
  set_solver.
Qed.

Lemma dedup_from_app (seen : gset pystr) (l1 l2 : list pystr) :
  dedup_from seen (l1 ++ l2)
  = dedup_from seen l1 ++ dedup_from (seen ∪ list_to_set l1) l2.
Proof.
  revert seen. induction l1 as [|h l1 IH]; intros seen.
  - cbn [app dedup_from list_to_set]. f_equal. set_solver.
  - cbn [app dedup_from]. destruct (decide (h ∈ seen)) as [Hin|Hnin].
    + rewrite IH. f_equal. f_equal. set_solver.
    + rewrite IH. cbn [app]. f_equal. f_equal. f_equal. set_solver.
Qed.

(** X2. The identifiers [main] goes on with after line 232 hold every
    identifier that was read exactly once, each at the place of its first
    occurrence: what stands before an identifier in the result is what
    the identifiers read before its first occurrence give, so that one
    more identifier at the end of the input is dropped when it was read
    before and is put at the end otherwise.  A list without repetitions
    is left as it is. *)
Theorem dedup_keeps_each_once (raw_hashes : list pystr) :
  NoDup (dedup_from ∅ raw_hashes)
  ∧ (∀ h, h ∈ dedup_from ∅ raw_hashes ↔ h ∈ raw_hashes)
  ∧ dedup_from ∅ raw_hashes `sublist_of` raw_hashes
  ∧ (NoDup raw_hashes → dedup_from ∅ raw_hashes = raw_hashes)
  ∧ (∀ before h after,
       raw_hashes = before ++ h :: after → h ∉ before →
       ∃ rest, dedup_from ∅ raw_hashes = dedup_from ∅ before ++ h :: rest)
  ∧ (∀ h, dedup_from ∅ (raw_hashes ++ [h])
          = if decide (h ∈ raw_hashes) then dedup_from ∅ raw_hashes
            else dedup_from ∅ raw_hashes ++ [h]).
Proof.
  split; [apply dedup_from_NoDup|]. split; [|split; [|split; [|split]]].
  - intros h. rewrite dedup_from_elem. set_solver.
  - apply dedup_from_sublist.
  - intros Hnd. apply dedup_from_id; [done|]. set_solver.
  - intros before h after -> Hnew. rewrite dedup_from_app. cbn [dedup_from].
    rewrite decide_False by set_solver. by eexists.
  - intros h. rewrite dedup_from_app. cbn [dedup_from].
    destruct (decide (h ∈ raw_hashes)) as [Hin|Hnin].
    + rewrite decide_True by set_solver. by rewrite app_nil_r.
    + by rewrite decide_False by set_solver.
Qed.

Lemma search_candidates_length text limit items acc :
  len (search_candidates text limit items acc) ≤ Z.max limit (len acc + 1).
Proof.
  revert acc. induction items as [|[key str] items IH]; intros acc;
    cbn [search_candidates]; [unfold len; lia|].
  set (acc' := if contains text str then acc ++ [(key, str)] else acc).
  assert (len acc' ≤ len acc + 1) as Hacc.
  { unfold acc', len. destruct (contains text str); rewrite ?length_app; simpl; lia. }
  destruct (Z.geb_spec (len acc') limit) as [Hge|Hlt]; [lia|].
  specialize (IH acc'). lia.
Qed.

Lemma search_candidates_from text limit items acc :
  ∃ found, search_candidates text limit items acc = acc ++ found
    ∧ found `sublist_of` items
    ∧ Forall (λ kv, contains text kv.2 = true) found.
Proof.
  revert acc. induction items as [|[key str] items IH]; intros acc;
    cbn [search_candidates].
  - exists []. by rewrite app_nil_r.
  - destruct (contains text str) eqn:Hc.
    + destruct (len (acc ++ [(key, str)]) >=? limit).
      * exists [(key, str)]. split; [done|]. split.
        -- apply sublist_skip, sublist_nil_l.
        -- by repeat constructor.
      * destruct (IH (acc ++ [(key, str)])) as (found & -> & Hsub & Hall).
        exists ((key, str) :: found). rewrite <- app_assoc. split; [done|].
        split; [by apply sublist_skip | by constructor].
    + destruct (len acc >=? limit).
      * exists []. rewrite app_nil_r. split; [done|]. split; [|done].
        apply sublist_nil_l.
      * destruct (IH acc) as (found & -> & Hsub & Hall).
        exists found. split; [done|]. split; [by apply sublist_cons | done].
Qed.

Lemma search_candidates_take text limit items acc :
  len acc < limit →
  search_candidates text limit items acc
  = acc ++ take (Z.to_nat (limit - len acc))
             (List.filter (λ kv, contains text kv.2) items).
Proof.
  revert acc. induction items as [|[key str] items IH]; intros acc Hacc;
    cbn [search_candidates List.filter snd].
  - by rewrite take_nil, app_nil_r.
  - destruct (contains text str) eqn:Hc.
    + assert (len (acc ++ [(key, str)]) = len acc + 1) as Hlen
        by (unfold len; rewrite length_app; cbn; lia).
      destruct (Z.geb_spec (len (acc ++ [(key, str)])) limit) as [Hge|Hlt].
      * replace (Z.to_nat (limit - len acc)) with 1%nat by lia.
        reflexivity.
      * rewrite IH by done. rewrite <- app_assoc. cbn [app]. f_equal.
        replace (Z.to_nat (limit - len acc))
          with (S (Z.to_nat (limit - len (acc ++ [(key, str)])))) by lia.
        done.
    + destruct (Z.geb_spec (len acc) limit) as [Hge|Hlt]; [lia|].
      by apply IH.
Qed.

(** X3. The candidates of [--search-text] are paragraphs of the store, in
    its order, that contain the text.  With a limit of 1 or more they are
    the first [--search-limit] such paragraphs, or all of them when there
    are fewer.  With a limit below 1 the loop still looks at the first
    paragraph of the store, and at no other: this paragraph is the one
    candidate when it contains the text, because the limit is tested
    after a paragraph has been looked at. *)
Theorem search_candidates_bounded text limit (items : list (pystr * pystr)) :
  len (search_candidates text limit items []) ≤ Z.max limit 1
  ∧ search_candidates text limit items [] `sublist_of` items
  ∧ Forall (λ kv, contains text kv.2 = true) (search_candidates text limit items [])
  ∧ (1 ≤ limit →
     search_candidates text limit items []
     = take (Z.to_nat limit) (List.filter (λ kv, contains text kv.2) items))
  ∧ (limit < 1 →
     search_candidates text limit items []
     = List.filter (λ kv, contains text kv.2) (take 1 items)).
Proof.
  split; [apply (search_candidates_length text limit items [])|].
  destruct (search_candidates_from text limit items []) as (found & Hfound & ? & ?).
  rewrite Hfound. cbn [app]. split; [done|]. split; [done|].
  rewrite <- (app_nil_l found), <- Hfound. split.
  - intros Hlimit. rewrite search_candidates_take by (unfold len; cbn; lia).
    cbn [app]. unfold len. cbn [length]. by rewrite Z.sub_0_r.
  - intros Hlimit. destruct items as [|[key str] items]; [done|].
    cbn [search_candidates take List.filter snd].
    destruct (contains text str); cbn [app].
    + destruct (Z.geb_spec (len [(key, str)]) limit) as [Hge|Hlt]; [done|].
      unfold len in Hlt. cbn in Hlt. lia.
    + destruct (Z.geb_spec (len (@nil (pystr * pystr))) limit) as [Hge|Hlt];
        [done|]. unfold len in Hlt. cbn in Hlt. lia.
Qed.

End KeyFacts.

(** ** Traces of programs, symbolically *)

Section TraceFacts.

Context {E : Type → Type} {O W : Type}.
Variable answer : ∀ X, E X → W → result X * W.

(** [yields p L]: whatever the outside answers, the trace and the ending
    of [p] are related by [L]. *)
Definition yields {A} (p : prog E O A)
    (L : list (entry E O) → A + outcome → Prop) : Prop :=
  ∀ w, L (run answer p w).1.2 (run answer p w).1.1.

Lemma yields_ret {A} (a : A) (L : list (entry E O) → A + outcome → Prop) :
  L [] (inl a) → yields (mret a) L.
Proof. by intros H w. Qed.

Lemma yields_halt {A} o (L : list (entry E O) → A + outcome → Prop) :
  L [] (inr o) → yields (Halt o) L.
Proof. by intros H w. Qed.

Lemma yields_tell {A} o (k : prog E O A) L :
  yields k (λ t r, L (Told o :: t) r) → yields (Tell o k) L.
Proof.
  intros H w. specialize (H w). simpl.
  by destruct (run answer k w) as [[r t] w'].
Qed.

Lemma yields_vis {A X} (e : E X) (k : result X → prog E O A) L :
  (∀ r, yields (k r) (λ t res, L (Called e r :: t) res)) → yields (Vis e k) L.
Proof.
  intros H w. simpl. destruct (answer X e w) as [r w1]. specialize (H r w1).
  by destruct (run answer (k r) w1) as [[r' t] w'].
Qed.

Lemma yields_bind {A B} (p : prog E O A) (f : A → prog E O B) L :
  yields p (λ t1 r1,
              match r1 with
              | inl a => yields (f a) (λ t2 r2, L (t1 ++ t2) r2)
              | inr o => L t1 (inr o)
              end) →
  yields (p ≫= f) L.
Proof.
  intros H w. specialize (H w). rewrite run_bind.
  destruct (run answer p w) as [[[a|o] t1] w1]; simpl in *; [|done].
  specialize (H w1). by destruct (run answer (f a) w1) as [[r t2] w2].
Qed.

Lemma yields_weaken {A} (p : prog E O A) (L L' : list (entry E O) → A + outcome → Prop) :
  yields p L → (∀ t r, L t r → L' t r) → yields p L'.
Proof. intros H HL w. apply HL, H. Qed.

Lemma meets_yields {A} (p : prog E O A) T Φ Ψ :
  meets answer p T Φ Ψ →
  yields p (λ t r, Forall T t ∧ match r with inl a => Φ a | inr o => Ψ o end).
Proof. intros H w. apply H. Qed.

End TraceFacts.

(** ** What [main] changes, and when *)

Section MainOrderFacts.

Import DeleteLpmmItems.

Variable get_sha256 : pystr → pystr.
Variable json_loads : pystr → result json.
Variable str_of_tuple : list json → pystr.
Variable int_of_str : pystr → option Z.

Context {W : Type}.
Variable answer : ∀ X, event X → W → result X * W.

Abbreviation gather'' := (gather get_sha256 json_loads str_of_tuple int_of_str).
Abbreviation execute'' := (execute get_sha256).
Abbreviation main'' := (main get_sha256 json_loads str_of_tuple int_of_str).

(** The changing calls of a trace, in order, with their arguments. *)
Inductive mutation : Type :=
  | DropVectors (s : store) (keys : list pystr)
  | SyncHashes
  | DropGraph (pg_hashes : list pystr) (ent_hashes : option (list pystr))
      (remove_orphans : bool)
  | RebuildIndex
  | WriteEmbeddings
  | WriteGraph.

Definition mutation_of (en : entry event (level * report)) : option mutation :=
  match en with
  | Told _ => None
  | Called e _ =>
    match e with
    | DeleteItems s keys => Some (DropVectors s keys)
    | SyncStoredHashes => Some SyncHashes
    | DeleteParagraphs pg_hashes ent_hashes remove_orphans =>
      Some (DropGraph pg_hashes ent_hashes remove_orphans)
    | RebuildFaissIndex => Some RebuildIndex
    | SaveEmbeddings => Some WriteEmbeddings
    | SaveGraph => Some WriteGraph
    | _ => None
    end
  end.

Definition mutations (t : list (entry event (level * report))) : list mutation :=
  omap mutation_of t.

(** The answer [YES] to the question of line 273. *)
Definition is_consent (en : entry event (level * report)) : bool :=
  match en with
  | Told _ => false
  | Called e r =>
    match e in event X return result X → bool with
    | Input AskConfirm =>
      λ r, match r with
           | Ok s => bool_decide (strip s = u "YES")
           | Raise _ => false
           end
    | _ => λ _, false
    end r
  end.

(** A load for the deletion that went through. *)
Definition is_load_of (graph : bool) (en : entry event (level * report)) : bool :=
  match en with
  | Told _ => false
  | Called e r =>
    is_ok r
    && match e with
       | LoadEmbeddings DeleteManager => negb graph
       | LoadGraph => graph
       | _ => false
       end
  end.

(** The changes [main] is out to make for the identifiers gathered. *)
Definition plan (args : Args) (raw : list pystr * list pystr * list pystr)
  : list mutation :=
  let keys := (normalize_paragraph_keys (dedup_from ∅ raw.1.1)).1 in
  let pg_hashes := (normalize_paragraph_keys (dedup_from ∅ raw.1.1)).2 in
  let ent_hashes := ent_hashes_of get_sha256 args raw.1.2 in
  let rel_hashes := rel_hashes_of get_sha256 args raw.2 in
  [DropVectors Paragraphs keys; SyncHashes]
  ++ (if is_empty ent_hashes then []
      else [DropVectors Entities ((u "entity-" ++.) <$> ent_hashes)])
  ++ (if is_empty rel_hashes then []
      else [DropVectors Relations ((u "relation-" ++.) <$> rel_hashes)])
  ++ [DropGraph pg_hashes (if delete_entities args then Some ent_hashes else None)
        (remove_orphan_entities args);
      RebuildIndex; WriteEmbeddings; WriteGraph].

Ltac trace_walk :=
  repeat first
    [ progress cbn [mbind prog_bind bind mret prog_ret tell call attempt lift
                    log exit Prog.raise when item]
    | apply yields_tell
    | apply yields_vis; intros [?|?]
    | match goal with
      | |- yields _ (if ?c then _ else _) _ => destruct c eqn:?
      | |- yields _ (match ?x with _ => _ end) _ => destruct x eqn:?
      | |- yields _ (bind (if ?c then _ else _) _) _ => destruct c eqn:?
      | |- yields _ (bind (match ?x with _ => _ end) _) _ => destruct x eqn:?
      | |- yields _ (let '(_, _) := ?x in _) _ => destruct x eqn:?
      end ].

Lemma gathers_no_mutation search t :
  Forall (gathers search) t →
  mutations t = [] ∧ existsb is_consent t = false
  ∧ ∀ graph, existsb (is_load_of graph) t = false.
Proof.
  induction 1 as [|en t Hen _ (IH1 & IH2 & IH3)]; [done|].
  unfold mutations in *. cbn [omap list_omap existsb].
  destruct en as [o|X e r]; [done|].
  destruct e as [| |p|m| |m| | | | | | | | |]; try done;
    try (destruct p); try (destruct m); try done; cbn in *;
    rewrite ?IH1, ?IH2; (split; [done|]; split; [done|]);
    intros graph; rewrite ?andb_false_r; apply IH3.
Qed.

Definition is_told (en : entry event (level * report)) : Prop :=
  match en with Told _ => True | Called _ _ => False end.

(** What holds of the trace [t] and the ending [r] of lines 230 to 361. *)
Definition orderly (args : Args) (raw : list pystr * list pystr * list pystr)
    (t : list (entry event (level * report))) (r : unit + outcome) : Prop :=
  mutations t `prefix_of` plan args raw
  ∧ (r = inl tt → mutations t = plan args raw)
  ∧ (dry_run args = true → Forall is_told t ∧ r ≠ inl tt)
  ∧ (mutations t ≠ [] →
     (yes args = true ∨ existsb is_consent t = true)
     ∧ (yes args = true
        ∨ candidate_total get_sha256 args raw ≤ max_delete_nodes args)
     ∧ existsb (is_load_of false) t = true
     ∧ existsb (is_load_of true) t = true).

Lemma yields_execute args raw :
  yields answer (execute'' args raw) (orderly args raw).
Proof.
  destruct raw as [[raw_hashes raw_entities] raw_relations].
  unfold execute, orderly, plan, candidate_total. cbn [fst snd].
  destruct (is_empty (dedup_from ∅ raw_hashes)).
  { trace_walk. apply yields_halt. unfold mutations. cbn.
    split; [by eexists|]. split; [done|]. split; [|by intros []].
    intros _. split; [by repeat constructor | done]. }
  destruct (normalize_paragraph_keys (dedup_from ∅ raw_hashes)) as [keys pg_hashes].
  cbn [fst snd].
  set (ent_hashes := ent_hashes_of get_sha256 args raw_entities).
  set (rel_hashes := rel_hashes_of get_sha256 args raw_relations).
  set (total := total_nodes_to_delete args pg_hashes ent_hashes).
  destruct (is_empty ent_hashes), (is_empty rel_hashes), (dry_run args) eqn:Hdry,
    (yes args) eqn:Hyes, (Z.gtb_spec total (max_delete_nodes args));
    cbn [negb andb when];
    trace_walk.
  all: first [apply yields_ret | apply yields_halt];
    unfold mutations;
    cbn [omap list_omap mutation_of existsb is_consent is_load_of is_ok
         andb orb negb app];
    (split; [by eexists|]); (split; [try done|]);
    (split; [first [done | intros _; split; [by repeat constructor | done]]|]);
    try (intros Hm; by destruct Hm).
  all: intros _; rewrite ?bool_decide_eq_true_2 by done;
    repeat split; auto; try lia.
Qed.

Lemma mutations_app t1 t2 : mutations (t1 ++ t2) = mutations t1 ++ mutations t2.
Proof. apply omap_app. Qed.

Lemma told_no_mutation t : Forall is_told t → mutations t = [].
Proof.
  induction 1 as [|en t Hen _ IH]; [done|].
  destruct en; [|done]. unfold mutations in *. by cbn [omap list_omap mutation_of].
Qed.

(** Gathering and the rest, put together. *)
Lemma run_main_split args (w : W) :
  match run answer (gather'' args) w with
  | (inl raw, t1, w1) =>
    Forall (gathers (given (search_text args))) t1
    ∧ ∃ t2 r w2,
        run answer (main'' args) w = (r, t1 ++ t2, w2)
        ∧ orderly args raw t2 r
  | (inr o, t1, w1) =>
    Forall (gathers (given (search_text args))) t1
    ∧ run answer (main'' args) w = (inr o, t1, w1)
  end.
Proof.
  pose proof (meets_gather get_sha256 json_loads str_of_tuple int_of_str answer args w)
    as [Hg _].
  unfold main. rewrite run_bind.
  destruct (run answer (gather'' args) w) as [[[raw|o] t1] w1]; cbn [fst snd] in Hg.
  - split; [done|]. pose proof (yields_execute args raw w1) as Hx.
    destruct (run answer (execute'' args raw) w1) as [[r t2] w2].
    by exists t2, r, w2.
  - done.
Qed.

(** X8. In every run of [main] the changing calls come in one order: the
    paragraph vectors, the set of stored hashes, the entity vectors and
    the relation vectors when there are any, the graph, the index, the
    embedding files, the graph file.  A run that stops early has made a
    first part of this list and nothing else; a run that reaches the last
    line of [main] has made all of it.  A run that ends while gathering
    has changed nothing. *)
Theorem main_changes_in_order (args : Args) (w : W) :
  let t := (run answer (main'' args) w).1.2 in
  match (run answer (gather'' args) w).1.1 with
  | inl raw =>
    mutations t `prefix_of` plan args raw
    ∧ ((run answer (main'' args) w).1.1 = inl tt → mutations t = plan args raw)
  | inr _ => mutations t = []
  end.
Proof.
  pose proof (run_main_split args w) as H.
  destruct (run answer (gather'' args) w) as [[[raw|o] t1] w1]; cbn [fst snd].
  - destruct H as (Hg & t2 & r & w2 & -> & Hpre & Hall & _). cbn [fst snd].
    destruct (gathers_no_mutation _ _ Hg) as (Hm & _).
    by rewrite mutations_app, Hm.
  - destruct H as (Hg & ->). cbn [fst snd].
    by destruct (gathers_no_mutation _ _ Hg).
Qed.

(** X9. A dry run only gathers and reports: it makes none of the changing
    calls, builds and loads nothing for the deletion, and never runs
    [main] to its last line. *)
Theorem dry_run_only_reads (args : Args) (w : W) :
  dry_run args = true →
  Forall (gathers (given (search_text args))) (run answer (main'' args) w).1.2
  ∧ mutations (run answer (main'' args) w).1.2 = []
  ∧ (run answer (main'' args) w).1.1 ≠ inl tt.
Proof.
  intros Hdry. pose proof (run_main_split args w) as H.
  assert (Forall (gathers (given (search_text args)))
            (run answer (main'' args) w).1.2
          ∧ (run answer (main'' args) w).1.1 ≠ inl tt) as [Hall Hend].
  { destruct (run answer (gather'' args) w) as [[[raw|o] t1] w1].
    - destruct H as (Hg & t2 & r & w2 & -> & _ & _ & Hd & _). cbn [fst snd].
      destruct (Hd Hdry) as [Htold Hr]. split; [|done].
      apply Forall_app. split; [done|].
      eapply Forall_impl; [exact Htold|]. by intros [].
    - destruct H as (Hg & ->). done. }
  split; [done|]. split; [|done].
  by destruct (gathers_no_mutation _ _ Hall).
Qed.

(** X10. [main] changes something only with consent and a loaded knowledge
    base: if a run makes any changing call, then it is no dry run, [--yes]
    was given or the question of line 273 was answered [YES], the count
    of line 256 is within [--max-delete-nodes] unless [--yes] was given,
    and both the embeddings and the graph were loaded without error. *)
Theorem main_changes_need_consent (args : Args) (w : W) :
  let t := (run answer (main'' args) w).1.2 in
  mutations t ≠ [] →
  dry_run args = false
  ∧ (yes args = true ∨ existsb is_consent t = true)
  ∧ existsb (is_load_of false) t = true
  ∧ existsb (is_load_of true) t = true
  ∧ ∃ raw, (run answer (gather'' args) w).1.1 = inl raw
      ∧ (yes args = true
         ∨ candidate_total get_sha256 args raw ≤ max_delete_nodes args).
Proof.
  intros t Hm. subst t.
  pose proof (run_main_split args w) as H.
  destruct (run answer (gather'' args) w) as [[[raw|o] t1] w1].
  - destruct H as (Hg & t2 & r & w2 & Hrun & _ & _ & Hd & Hc).
    rewrite Hrun in *. cbn [fst snd] in *.
    destruct (gathers_no_mutation _ _ Hg) as (Hm1 & Hc1 & Hl1).
    rewrite mutations_app, Hm1 in Hm.
    destruct (Hc Hm) as (Hyes & Htotal & Hle & Hlg).
    assert (dry_run args = false) as Hdry.
    { destruct (dry_run args); [|done].
      destruct (Hd eq_refl) as [Htold _]. by apply told_no_mutation in Htold. }
    rewrite !existsb_app, Hc1, !Hl1. cbn [orb].
    split; [done|]. split; [done|]. split; [done|]. split; [done|].
    by exists raw.
  - destruct H as (Hg & Hrun). rewrite Hrun in Hm. cbn [fst snd] in Hm.
    by destruct (gathers_no_mutation _ _ Hg) as (Hm1 & _).
Qed.

End MainOrderFacts.

(** ** [ie_process.py]: the rule, and the cost of a run *)

Section IeMoreFacts.

Import IeProcess.

Variable LLMRequest : Type.
Variable runtime_error_subclass : pystr → bool.
Variable INVALID_ENTITY : list pystr.
Variable repair_json : pystr → result (pystr + json).
Variable json_loads : pystr → result json.
Variable json_dumps : list json → pystr.
Variable build_entity_extract_context : pystr → pystr.
Variable build_rdf_triple_extract_context : pystr → pystr → pystr.

Context {W : Type}.
Variable answer : ∀ X, event LLMRequest X → W → result X * W.

Abbreviation generate' := (generate LLMRequest runtime_error_subclass).
Abbreviation info_extract' :=
  (info_extract_from_str LLMRequest runtime_error_subclass INVALID_ENTITY
     repair_json json_loads json_dumps build_entity_extract_context
     build_rdf_triple_extract_context).

Lemma first_entity_Some test entities s :
  first_entity test entities = Ok (Some s) → JStr s ∈ entities ∧ test s = true.
Proof.
  induction entities as [|v entities IH]; [done|]. cbn [first_entity].
  destruct v as [| | | |s'| |]; try done.
  destruct (test s') eqn:Ht.
  - intros [= ->]. split; [by left|done].
  - intros H. destruct (IH H). split; [by right|done].
Qed.

Lemma first_entity_Raise test entities e :
  first_entity test entities = Raise e →
  e = TypeError ∧ ∃ v, v ∈ entities ∧ ∀ s, v ≠ JStr s.
Proof.
  induction entities as [|v entities IH]; [done|]. cbn [first_entity].
  destruct v as [| | | |s'| |];
    try (intros [= <-]; split; [done|]; eexists; split; [by left|done]).
  destruct (test s'); [done|]. intros H. destruct (IH H) as (-> & v & Hv & Hs).
  split; [done|]. exists v. split; [by right|done].
Qed.

Lemma startswith_contains (sub s : pystr) :
  startswith sub s = true → contains sub s = true.
Proof. intros H. unfold contains. by rewrite (find_from_prefix 0 sub s H). Qed.

Lemma pick_relation_in candidates relation remainder :
  (pick_relation candidates relation remainder).1 ∈ relation :: candidates.
Proof.
  induction candidates as [|rel candidates IH]; cbn [pick_relation]; [by left|].
  destruct (startswith rel remainder); cbn [fst]; [by right; left|].
  apply elem_of_cons in IH as [->|IH]; [by left | by right; right].
Qed.

Lemma length_lstrip_chars cs (s : pystr) :
  (length (lstrip_chars cs s) ≤ length s)%nat.
Proof.
  induction s as [|c s IH]; cbn [lstrip_chars]; [done|].
  destruct (mem c cs); simpl; lia.
Qed.

Lemma length_rstrip_chars cs (s : pystr) :
  (length (rstrip_chars cs s) ≤ length s)%nat.
Proof.
  unfold rstrip_chars. rewrite length_rev.
  etrans; [apply length_lstrip_chars|]. by rewrite length_rev.
Qed.

(** X12. Whatever the paragraph and the entities, the rule of
    [_fallback_rdf_triples] gives no triple or one triple of three
    strings: its subject is one of the entities and occurs in the
    paragraph, its relation is one of the six relation words, and its
    object has at most 120 characters.  It raises only a [TypeError], and
    only when an entity is no string; without entities it gives
    nothing. *)
Theorem fallback_rdf_triples_shape (paragraph : pystr) (entities : list json) :
  match _fallback_rdf_triples paragraph entities with
  | Ok [] => True
  | Ok [triple] =>
    ∃ subject relation object,
      triple = JList [JStr subject; JStr relation; JStr object]
      ∧ JStr subject ∈ entities
      ∧ contains subject (strip (replace [65279%N] [] (-1) paragraph)) = true
      ∧ relation ∈ relation_candidates
      ∧ (length object ≤ 120)%nat
  | Ok _ => False
  | Raise e => e = TypeError ∧ ∃ v, v ∈ entities ∧ ∀ s, v ≠ JStr s
  end
  ∧ _fallback_rdf_triples paragraph [] = Ok [].
Proof.
  split.
  2: { unfold _fallback_rdf_triples. by rewrite orb_true_r. }
  unfold _fallback_rdf_triples.
  set (text := strip (replace [65279%N] [] (-1) paragraph)).
  destruct (is_empty text || is_empty entities); [done|].
  destruct (first_entity (λ entity, startswith entity text) entities)
    as [[subject|]|e] eqn:H1; cbn [mbind result_bind].
  - apply first_entity_Some in H1 as [Hin Hs]. apply startswith_contains in Hs.
    destruct (is_empty _); [done|].
    destruct (pick_relation _ _ _) as [relation remainder] eqn:Hp.
    destruct (is_empty _); [done|].
    eexists _, _, _. split; [done|]. split; [done|]. split; [done|]. split.
    + pose proof (pick_relation_in relation_candidates (u "是")
                    (lstrip_chars subject_separators
                       (slice_from (find subject text + len subject) text))) as Hr.
      rewrite Hp in Hr. cbn [fst] in Hr.
      apply elem_of_cons in Hr as [->|Hr]; [by left|done].
    + destruct (Z.gtb_spec (len (strip_chars object_trim
                  (default [] (head (re_split_once_from sentence_terminators []
                     remainder))))) (Z.of_nat max_object_len)) as [Hgt|Hle].
      * etrans; [apply length_rstrip_chars|]. unfold slice_to.
        rewrite length_take. unfold max_object_len. lia.
      * unfold len, max_object_len in Hle. lia.
  - destruct (first_entity (λ entity, contains entity text) entities)
      as [[subject|]|e] eqn:H2; cbn [mbind result_bind].
    + apply first_entity_Some in H2 as [Hin Hs].
      destruct (is_empty _); [done|].
      destruct (pick_relation _ _ _) as [relation remainder] eqn:Hp.
      destruct (is_empty _); [done|].
      eexists _, _, _. split; [done|]. split; [done|]. split; [done|]. split.
      * pose proof (pick_relation_in relation_candidates (u "是")
                      (lstrip_chars subject_separators
                         (slice_from (find subject text + len subject) text))) as Hr.
        rewrite Hp in Hr. cbn [fst] in Hr.
        apply elem_of_cons in Hr as [->|Hr]; [by left|done].
      * destruct (Z.gtb_spec (len (strip_chars object_trim
                    (default [] (head (re_split_once_from sentence_terminators []
                       remainder))))) (Z.of_nat max_object_len)) as [Hgt|Hle].
        -- etrans; [apply length_rstrip_chars|]. unfold slice_to.
           rewrite length_take. unfold max_object_len. lia.
        -- unfold len, max_object_len in Hle. lia.
    + done.
    + by apply first_entity_Raise in H2.
  - by apply first_entity_Raise in H1.
Qed.

(** *** What a run costs *)

Abbreviation step := (entry (event LLMRequest) pause).
Abbreviation job' := (prog (event LLMRequest) pause).

(** The sum of a weight over a trace. *)
Definition cost (weight : step → nat) (t : list step) : nat :=
  sum_list (weight <$> t).

Lemma cost_app weight t1 t2 :
  cost weight (t1 ++ t2) = (cost weight t1 + cost weight t2)%nat.
Proof.
  unfold cost. induction t1 as [|en t1 IH]; [done|].
  rewrite <- app_comm_cons, !fmap_cons. cbn [sum_list sum_list_with]. rewrite IH. lia.
Qed.

(** [spends p weight n Φ]: in every run, [p] costs at most [n] and ends
    as [Φ] says. *)
Definition spends {A} (p : job' A) (weight : step → nat) (n : nat)
    (Φ : A + outcome → Prop) : Prop :=
  ∀ w, (cost weight (run answer p w).1.2 ≤ n)%nat ∧ Φ (run answer p w).1.1.

Lemma spends_ret {A} (a : A) weight n (Φ : A + outcome → Prop) :
  Φ (inl a) → spends (Ret a) weight n Φ.
Proof. intros H w. split; [cbn; lia|done]. Qed.

Lemma spends_halt {A} o weight n (Φ : A + outcome → Prop) :
  Φ (inr o) → spends (Halt o) weight n Φ.
Proof. intros H w. split; [cbn; lia|done]. Qed.

Lemma spends_lift {A} (r : result A) weight n :
  spends (lift r) weight n (λ r, match r with inl _ => True | inr o => raised o end).
Proof. destruct r; [by apply spends_ret|apply spends_halt; by eexists]. Qed.

Lemma spends_tell {A} o (k : job' A) weight n Φ :
  spends k weight n Φ → spends (Tell o k) weight (weight (Told o) + n) Φ.
Proof.
  intros H w. destruct (H w) as [Hc Hr]. simpl.
  destruct (run answer k w) as [[r t] w']. cbn in *. split; [lia|done].
Qed.

Lemma spends_vis {A X} (e : event LLMRequest X) (k : result X → job' A)
    weight c n Φ :
  (∀ r, (weight (Called e r) ≤ c)%nat) → (∀ r, spends (k r) weight n Φ) →
  spends (Vis e k) weight (c + n) Φ.
Proof.
  intros He Hk w. simpl. destruct (answer X e w) as [r w1].
  destruct (Hk r w1) as [Hc Hr]. specialize (He r).
  destruct (run answer (k r) w1) as [[r' t] w']. cbn in *. split; [lia|done].
Qed.

Lemma spends_bind {A B} (p : job' A) (f : A → job' B) weight n m Φ1
    (Φ : B + outcome → Prop) :
  spends p weight n Φ1 →
  (∀ a, Φ1 (inl a) → spends (f a) weight m Φ) →
  (∀ o, Φ1 (inr o) → Φ (inr o)) →
  spends (p ≫= f) weight (n + m) Φ.
Proof.
  intros Hp Hf Ho w. rewrite run_bind. destruct (Hp w) as [Hc Hr].
  destruct (run answer p w) as [[[a|o] t1] w1]; cbn [fst snd] in *.
  - destruct (Hf a Hr w1) as [Hc2 Hr2].
    destruct (run answer (f a) w1) as [[r t2] w2]. cbn [fst snd] in *.
    rewrite cost_app. split; [lia|done].
  - split; [lia|by apply Ho].
Qed.

Lemma spends_catch {A} (p : job' A) (h : exn → job' A) weight n m
    (Φ1 Φ : A + outcome → Prop) :
  spends p weight n Φ1 →
  (∀ err, Φ1 (inr (Crashed err)) → spends (h err) weight m Φ) →
  (∀ r, (∀ err, r ≠ inr (Crashed err)) → Φ1 r → Φ r) →
  spends (catch p h) weight (n + m) Φ.
Proof.
  intros Hp Hh Ho w. rewrite run_catch. destruct (Hp w) as [Hc Hr].
  destruct (run answer p w) as [[[a|[| |err]] t1] w1]; cbn [fst snd] in *;
    try (split; [lia|by apply Ho]).
  destruct (Hh err Hr w1) as [Hc2 Hr2].
  destruct (run answer (h err) w1) as [[r t2] w2]. cbn [fst snd] in *.
  rewrite cost_app. split; [lia|done].
Qed.

Lemma spends_weaken {A} (p : job' A) weight n n' (Φ Φ' : A + outcome → Prop) :
  spends p weight n Φ → (n ≤ n')%nat → (∀ r, Φ r → Φ' r) →
  spends p weight n' Φ'.
Proof. intros H Hn HΦ w. destruct (H w). split; [lia|auto]. Qed.

(** The weights: a call that asks for the running loop opens an attempt,
    a call that reaches the model is a request, and a pause weighs its
    seconds. *)
Definition opens_attempt (en : step) : nat :=
  match en with
  | Called e _ => match e with GetRunningLoop => 1 | _ => 0 end
  | Told _ => 0
  end.

Definition is_request (en : step) : nat :=
  match en with
  | Called e _ =>
    match e with SubmitToLoop _ _ | AsyncioRun _ _ => 1 | GetRunningLoop => 0 end
  | Told _ => 0
  end.

Definition pause_seconds (en : step) : nat :=
  match en with
  | Told (Sleep seconds) => Z.to_nat seconds
  | Called _ _ => 0
  end.

Definition returns_or_raises {A} (r : A + outcome) : Prop :=
  match r with inl _ => True | inr o => raised o end.

Definition returns {A} (r : A + outcome) : Prop :=
  match r with inl _ => True | inr _ => False end.

Section Weighted.

(** A weight with its bounds on the three calls and on a pause of 5. *)
Variable weight : step → nat.
Variables (c_loop c_submit c_run c_pause : nat).
Hypothesis weight_loop : ∀ r, (weight (Called GetRunningLoop r) ≤ c_loop)%nat.
Hypothesis weight_submit :
  ∀ llm prompt r, (weight (Called (SubmitToLoop llm prompt) r) ≤ c_submit)%nat.
Hypothesis weight_run :
  ∀ llm prompt r, (weight (Called (AsyncioRun llm prompt) r) ≤ c_run)%nat.
Hypothesis weight_pause : (weight (Told (Sleep 5)) ≤ c_pause)%nat.

Definition c_attempt : nat := (c_loop + c_submit + c_run)%nat.

Lemma spends_generate llm_req prompt :
  spends (generate' llm_req prompt) weight c_attempt returns_or_raises.
Proof.
  unfold generate, c_attempt.
  eapply (spends_catch _ _ _ (c_loop + c_submit) c_run returns_or_raises).
  - cbn [mbind prog_bind bind call].
    apply spends_vis; [done|]. intros [[]|err]; cbn.
    + eapply spends_weaken;
        [apply (spends_vis _ _ _ c_submit 0); [done|] | lia | done].
      intros [x|err]; [by apply spends_ret|apply spends_halt; by eexists].
    + apply spends_halt. by eexists.
  - intros err _. destruct (is_runtime_error runtime_error_subclass err);
      [|apply spends_halt; by eexists].
    eapply spends_weaken;
      [apply (spends_vis _ _ _ c_run 0); [done|] | lia | done].
    intros [x|err2]; [by apply spends_ret|apply spends_halt; by eexists].
  - intros [a|o] Hne Hr; [done|]. destruct Hr as [err ->]. by destruct (Hne err).
Qed.

Lemma spends_request {A} llm_req prompt (parse : option pystr → result A) :
  spends (response ← generate' llm_req prompt; lift (parse response))
    weight c_attempt returns_or_raises.
Proof.
  eapply spends_weaken;
    [eapply (spends_bind _ _ _ c_attempt 0 returns_or_raises) | lia | done].
  - apply spends_generate.
  - intros response _. apply spends_lift.
  - done.
Qed.

Lemma spends_guarded {A} (attempt_once : job' A) :
  spends attempt_once weight c_attempt returns_or_raises →
  spends (guarded LLMRequest attempt_once) weight c_attempt returns.
Proof.
  intros H. unfold guarded.
  eapply spends_weaken;
    [eapply (spends_catch _ _ _ c_attempt 0 returns_or_raises) | lia | done].
  - eapply spends_weaken;
      [eapply (spends_bind _ _ _ c_attempt 0 returns_or_raises) | lia | done].
    + exact H.
    + intros a _. by apply spends_ret.
    + done.
  - intros err _. by apply spends_ret.
  - intros [a|o] Hne Hr; [done|]. destruct Hr as [err ->]. by destruct (Hne err).
Qed.

Definition attempts_left (try_count : Z) : nat :=
  Z.to_nat (Z.max 1 (3 - try_count)).
Definition pauses_left (try_count : Z) : nat :=
  Z.to_nat (Z.max 0 (2 - try_count)).

Lemma spends_retry_loop {A} (attempt_once : job' A) fuel try_count :
  spends attempt_once weight c_attempt returns_or_raises →
  spends (retry_loop LLMRequest fuel try_count attempt_once) weight
    (attempts_left try_count * c_attempt + pauses_left try_count * c_pause)
    returns.
Proof.
  intros Hbody. revert try_count.
  induction fuel as [|fuel IH]; intros try_count.
  { by apply spends_ret. }
  rewrite retry_loop_unfold.
  destruct (Z.ltb_spec (try_count + 1) 3) as [Hlt|Hge].
  - eapply spends_weaken;
      [eapply (spends_bind _ _ _ c_attempt
                 (weight (Told (Sleep 5))
                  + (attempts_left (try_count + 1) * c_attempt
                     + pauses_left (try_count + 1) * c_pause))
                 returns)
      | | done].
    + by apply spends_guarded.
    + intros [x|] _; [by apply spends_ret|].
      apply spends_tell, IH.
    + done.
    + unfold attempts_left, pauses_left.
      replace (Z.to_nat (Z.max 1 (3 - try_count)))
        with (S (Z.to_nat (Z.max 1 (3 - (try_count + 1))))) by lia.
      replace (Z.to_nat (Z.max 0 (2 - try_count)))
        with (S (Z.to_nat (Z.max 0 (2 - (try_count + 1))))) by lia.
      lia.
  - eapply spends_weaken;
      [eapply (spends_bind _ _ _ c_attempt 0 returns) | | done].
    + by apply spends_guarded.
    + intros [x|] _; by apply spends_ret.
    + done.
    + unfold attempts_left.
      assert (1 ≤ Z.to_nat (Z.max 1 (3 - try_count)))%nat by lia. nia.
Qed.

Lemma spends_info_extract fuel ner rdf paragraph :
  spends (info_extract' fuel ner rdf paragraph) weight
    (2 * (3 * c_attempt + 2 * c_pause)) returns.
Proof.
  unfold info_extract_from_str.
  eapply spends_weaken;
    [eapply (spends_bind _ _ _ (3 * c_attempt + 2 * c_pause)
               (3 * c_attempt + 2 * c_pause) returns)
    | lia | done].
  - apply (spends_retry_loop _ fuel 0). apply spends_request.
  - intros [[entities|]|] _; try by apply spends_ret.
    eapply spends_weaken;
      [eapply (spends_bind _ _ _ (3 * c_attempt + 2 * c_pause) 0 returns)
      | lia | done].
    + apply (spends_retry_loop _ fuel 0). apply spends_request.
    + intros [[triples|]|] _; by apply spends_ret.
    + done.
  - done.
Qed.

End Weighted.

(** X13. Whatever the model answers, one call of [info_extract_from_str] makes
    at most 6 attempts, sends at most 12 requests to the model and pauses
    for at most 20 seconds in all. *)
Theorem info_extract_cost (fuel : nat) (ner rdf : LLMRequest)
    (paragraph : pystr) (w : W) :
  let t := (run answer (info_extract' fuel ner rdf paragraph) w).1.2 in
  (cost opens_attempt t ≤ 6)%nat
  ∧ (cost is_request t ≤ 12)%nat
  ∧ (cost pause_seconds t ≤ 20)%nat.
Proof.
  split; [|split].
  - by apply (spends_info_extract opens_attempt 1 0 0 0).
  - by apply (spends_info_extract is_request 0 1 1 0).
  - by apply (spends_info_extract pause_seconds 0 0 0 5).
Qed.

(** *** What a successful run hands back *)

Lemma guarded_result {A} (attempt_once : job' A) w x t w' :
  run answer (guarded LLMRequest attempt_once) w = (inl (Some x), t, w') →
  run answer attempt_once w = (inl x, t, w').
Proof.
  unfold guarded. rewrite run_catch, run_bind.
  destruct (run answer attempt_once w) as [[[x'|[| |err]] t1] w1];
    cbn; intros H; simplify_eq.
  by rewrite app_nil_r.
Qed.

Lemma retry_loop_result {A} (attempt_once : job' A) (Φ : A → Prop) :
  (∀ w x t w', run answer attempt_once w = (inl x, t, w') → Φ x) →
  ∀ fuel try_count w x t w',
    run answer (retry_loop LLMRequest fuel try_count attempt_once) w
    = (inl (Some (Some x)), t, w') →
    Φ x.
Proof.
  intros Hbody fuel.
  induction fuel as [|fuel IH]; intros try_count w x t w'; [done|].
  rewrite retry_loop_unfold, run_bind.
  destruct (run answer (guarded LLMRequest attempt_once) w)
    as [[[[x'|]|o] t1] w1] eqn:Hg; [| |done].
  - cbn. intros H. simplify_eq. apply guarded_result in Hg. eauto.
  - destruct (try_count + 1 <? 3); [|done].
    cbn [mbind prog_bind bind tell run].
    destruct (run answer (retry_loop LLMRequest fuel (try_count + 1) attempt_once) w1)
      as [[r t2] w2] eqn:Hrec.
    cbn. intros H. simplify_eq. eauto.
Qed.

(** X14. Whatever [info_extract_from_str] returns besides [(None, None)] is a
    pair of lists that went through both filters: the entities are not
    empty, none of them is [None], the empty string or a string of
    [INVALID_ENTITY]; the triples are not empty and each one is a list of
    exactly 3 items, none of them [None] or the empty string.  It holds
    however many attempts each stage took. *)
Theorem info_extract_result_clean (fuel : nat) (ner rdf : LLMRequest)
    (paragraph : pystr) (w : W) entities triples :
  (run answer (info_extract' fuel ner rdf paragraph) w).1.1
  = inl (Some (entities, triples)) →
  (entities = None ∧ triples = None)
  ∨ ∃ es ts,
      entities = Some es ∧ triples = Some ts
      ∧ es ≠ [] ∧ Forall (clean_entity INVALID_ENTITY) es
      ∧ ts ≠ [] ∧ Forall checked_triple ts.
Proof.
  unfold info_extract_from_str. rewrite run_bind.
  destruct (run answer (retry_loop _ fuel 0 (_entity_extract _ _ _ _ _ _ ner paragraph)) w)
    as [[[[[es|]|]|o] t1] w1] eqn:H1; cbn [fst snd]; try done.
  - rewrite run_bind.
    destruct (run answer (retry_loop _ fuel 0 (_rdf_triple_extract _ _ _ _ _ _ rdf paragraph es)) w1)
      as [[[[[ts|]|]|o] t2] w2] eqn:H2; cbn [fst snd]; try done.
    + cbn. intros H. simplify_eq. right. exists es, ts.
      split; [done|]. split; [done|].
      assert (es ≠ [] ∧ Forall (clean_entity INVALID_ENTITY) es) as [? ?].
      { eapply (retry_loop_result _ (λ es, es ≠ [] ∧ Forall (clean_entity INVALID_ENTITY) es));
          [|exact H1].
        intros w0 x t w' Hrun.
        destruct (meets_entity_extract LLMRequest runtime_error_subclass
            INVALID_ENTITY repair_json
                    json_loads build_entity_extract_context answer ner paragraph w0)
          as [_ Hm].
        rewrite Hrun in Hm. destruct Hm as [response Hm].
        exact (entities_of_ok INVALID_ENTITY repair_json json_loads response x Hm). }
      assert (ts ≠ [] ∧ Forall checked_triple ts) as [? ?].
      { eapply (retry_loop_result _ (λ ts, ts ≠ [] ∧ Forall checked_triple ts));
          [|exact H2].
        intros w0 x t w' Hrun.
        destruct (meets_rdf_triple_extract LLMRequest runtime_error_subclass
            repair_json json_loads
                    json_dumps build_rdf_triple_extract_context answer rdf
                    paragraph es w0) as [_ Hm].
        rewrite Hrun in Hm. destruct Hm as [response Hm].
        exact (triples_of_ok repair_json json_loads paragraph es response x Hm). }
      done.
    + cbn. intros H. simplify_eq. by left.
  - cbn. intros H. simplify_eq. by left.
Qed.

End IeMoreFacts.

(** ** [delete_lpmm_items.py]: what is read from the files *)

Section StripFacts.

Lemma mem_spec (c : N) (cs : list N) : mem c cs = true ↔ c ∈ cs.
Proof.
  unfold mem. rewrite existsb_exists. split.
  - intros (x & Hin & Heq). apply N.eqb_eq in Heq as ->. by apply list_elem_of_In.
  - intros Hin. exists c. split; [by apply list_elem_of_In|apply N.eqb_refl].
Qed.

Lemma mem_false (c : N) (cs : list N) : mem c cs = false ↔ c ∉ cs.
Proof. rewrite <- mem_spec. by destruct (mem c cs). Qed.

Lemma lstrip_chars_suffix cs s :
  ∃ p, s = p ++ lstrip_chars cs s ∧ Forall (λ c, c ∈ cs) p.
Proof.
  induction s as [|c s (p & IH & Hp)]; [by exists []|]. cbn [lstrip_chars].
  destruct (mem c cs) eqn:Hc; [|by exists []].
  exists (c :: p). split; [by rewrite IH at 1|].
  constructor; [by apply mem_spec|done].
Qed.

Lemma lstrip_chars_head cs s c :
  head (lstrip_chars cs s) = Some c → c ∉ cs.
Proof.
  induction s as [|c' s IH]; [done|]. cbn [lstrip_chars].
  destruct (mem c' cs) eqn:Hc; [done|].
  cbn. intros [= <-]. by apply mem_false.
Qed.

Lemma lstrip_chars_nil cs s :
  lstrip_chars cs s = [] ↔ Forall (λ c, c ∈ cs) s.
Proof.
  induction s as [|c s IH]; [done|]. cbn [lstrip_chars].
  destruct (mem c cs) eqn:Hc.
  - rewrite IH, Forall_cons. apply mem_spec in Hc. tauto.
  - split; [done|]. intros H. apply Forall_cons in H as [H _].
    apply mem_spec in H. congruence.
Qed.

Lemma rstrip_chars_prefix cs s :
  ∃ q, s = rstrip_chars cs s ++ q ∧ Forall (λ c, c ∈ cs) q.
Proof.
  destruct (lstrip_chars_suffix cs (rev s)) as (p & Hs & Hp).
  exists (rev p). split.
  - unfold rstrip_chars. rewrite <- rev_app_distr, <- Hs. by rewrite rev_involutive.
  - apply Forall_forall. intros c Hc. rewrite Forall_forall in Hp. apply Hp.
    apply list_elem_of_In. apply list_elem_of_In in Hc. by apply in_rev.
Qed.

Lemma last_rev {A} (l : list A) : last (rev l) = head l.
Proof. destruct l as [|x l]; [done|]. cbn [rev]. by rewrite last_snoc. Qed.

Lemma rstrip_chars_last cs s c :
  last (rstrip_chars cs s) = Some c → c ∉ cs.
Proof. unfold rstrip_chars. rewrite last_rev. apply lstrip_chars_head. Qed.

Lemma rstrip_chars_nil cs s :
  rstrip_chars cs s = [] ↔ Forall (λ c, c ∈ cs) s.
Proof.
  unfold rstrip_chars. split.
  - intros H. apply (f_equal (@rev N)) in H. rewrite rev_involutive in H.
    cbn in H. apply lstrip_chars_nil in H.
    apply Forall_forall. intros c Hc. rewrite Forall_forall in H. apply H.
    apply list_elem_of_In. apply list_elem_of_In in Hc. by apply in_rev in Hc.
  - intros H.
    assert (lstrip_chars cs (rev s) = []) as ->; [|done].
    apply lstrip_chars_nil.
    apply Forall_forall. intros c Hc. rewrite Forall_forall in H. apply H.
    apply list_elem_of_In. apply list_elem_of_In in Hc. by apply in_rev.
Qed.

(** What [strip] leaves is the text between a run of stripped characters
    on each side. *)
Lemma strip_chars_infix cs s :
  ∃ p q, s = p ++ strip_chars cs s ++ q
         ∧ Forall (λ c, c ∈ cs) p ∧ Forall (λ c, c ∈ cs) q.
Proof.
  destruct (lstrip_chars_suffix cs s) as (p & Hs & Hp).
  destruct (rstrip_chars_prefix cs (lstrip_chars cs s)) as (q & Hq & Hq').
  exists p, q. unfold strip_chars. by rewrite <- Hq.
Qed.

Lemma strip_chars_nil cs s :
  strip_chars cs s = [] ↔ Forall (λ c, c ∈ cs) s.
Proof.
  unfold strip_chars. rewrite rstrip_chars_nil.
  destruct (lstrip_chars_suffix cs s) as (p & Hs & Hp). split.
  - intros H. rewrite Hs. by apply Forall_app.
  - intros H. rewrite Hs in H. by apply Forall_app in H as [_ H].
Qed.

Lemma strip_chars_ends cs s c :
  head (strip_chars cs s) = Some c ∨ last (strip_chars cs s) = Some c → c ∉ cs.
Proof.
  intros [H|H]; [|by apply rstrip_chars_last in H].
  unfold strip_chars in H.
  destruct (rstrip_chars_prefix cs (lstrip_chars cs s)) as (q & Hq & _).
  apply (lstrip_chars_head cs s). rewrite Hq.
  by destruct (rstrip_chars cs (lstrip_chars cs s)).
Qed.

(** A text that is not empty and neither starts nor ends with white
    space. *)
Definition trimmed (s : pystr) : Prop :=
  s ≠ [] ∧ ∀ c, head s = Some c ∨ last s = Some c → c ∉ whitespace.

Lemma strip_trimmed s : strip s ≠ [] → trimmed (strip s).
Proof. intros H. split; [done|]. intros c. apply strip_chars_ends. Qed.

Lemma trimmed_strip s : trimmed s → strip s = s.
Proof.
  intros [Hne Hends]. unfold strip, strip_chars.
  assert (lstrip_chars whitespace s = s) as ->.
  { destruct s as [|c s]; [done|]. cbn [lstrip_chars].
    destruct (mem c whitespace) eqn:Hc; [|done].
    apply mem_spec in Hc. destruct (Hends c); [by left|done]. }
  unfold rstrip_chars.
  assert (lstrip_chars whitespace (rev s) = rev s) as ->;
    [|apply rev_involutive].
  destruct (rev s) as [|c r] eqn:Hr; [done|]. cbn [lstrip_chars].
  destruct (mem c whitespace) eqn:Hc; [|done].
  apply mem_spec in Hc. destruct (Hends c); [|done]. right.
  rewrite <- (rev_involutive s), Hr. by rewrite last_rev.
Qed.

(** [strip] does nothing more the second time. *)
Lemma strip_strip s : strip (strip s) = strip s.
Proof.
  destruct (strip s) as [|c r] eqn:Hs; [done|].
  rewrite <- Hs. apply trimmed_strip, strip_trimmed. by rewrite Hs.
Qed.

Definition unbroken (s : pystr) : Prop := Forall (λ c, c ∉ line_breaks) s.

Lemma splitlines_from_unbroken n cur s :
  (length s ≤ n)%nat → unbroken cur → Forall unbroken (splitlines_from cur s).
Proof.
  revert cur s. induction n as [|n IH]; intros cur s Hn Hcur.
  { destruct s; [|cbn in Hn; lia]. cbn. destruct (is_empty cur); by repeat constructor. }
  destruct s as [|c s]; cbn [splitlines_from].
  { destruct (is_empty cur); by repeat constructor. }
  cbn in Hn. assert (unbroken []) as Hnil by constructor.
  destruct (c =? 13)%N.
  - destruct s as [|c' s'].
    + constructor; [done|]. apply IH; [cbn; lia|done].
    + destruct (c' =? 10)%N; (constructor; [done|]);
        (apply IH; [cbn in *; lia|done]).
  - destruct (mem c line_breaks) eqn:Hc.
    + constructor; [done|]. apply IH; [lia|done].
    + apply IH; [lia|]. apply Forall_app. split; [done|].
      constructor; [by apply mem_false|done].
Qed.

Lemma strip_unbroken s : unbroken s → unbroken (strip s).
Proof.
  intros H. destruct (strip_chars_infix whitespace s) as (p & q & Hs & _).
  unfold unbroken in *. rewrite Hs in H.
  apply Forall_app in H as [_ H]. by apply Forall_app in H as [H _].
Qed.

Lemma non_empty_forall (P : pystr → Prop) l :
  (∀ x, x ∈ l → x ≠ [] → P x) → Forall P (DeleteLpmmItems.non_empty l).
Proof.
  intros H. apply Forall_forall. intros x Hx.
  apply list_elem_of_In, filter_In in Hx as [Hx Hne].
  apply H; [by apply list_elem_of_In|]. by destruct x.
Qed.

End StripFacts.

Section ReadFacts.

Import DeleteLpmmItems.

Variable get_sha256 : pystr → pystr.
Variable json_loads : pystr → result json.
Variable str_of_tuple : list json → pystr.
Variable int_of_str : pystr → option Z.

Context {W : Type}.
Variable answer : ∀ X, event X → W → result X * W.

(** X4. [read_hashes] reads the file once; every identifier it returns is
    not empty, neither starts nor ends with white space and holds no line
    break, and there are no more identifiers than lines.  An error of the
    read is passed on. *)
Theorem read_hashes_trimmed (file_path : pystr) (w : W) :
  let r := (answer _ (ReadText file_path) w).1 in
  (run answer (read_hashes file_path) w).1.2 = [Called (ReadText file_path) r]
  ∧ match r with
    | Ok text =>
      ∃ hashes,
        (run answer (read_hashes file_path) w).1.1 = inl hashes
        ∧ Forall (λ h, trimmed h ∧ unbroken h) hashes
        ∧ (length hashes ≤ length (splitlines text))%nat
    | Raise e =>
      (run answer (read_hashes file_path) w).1.1 = inr (Crashed e)
    end.
Proof.
  unfold read_hashes. cbn [mbind prog_bind bind call run].
  destruct (answer _ (ReadText file_path) w) as [[text|e] w1]; cbn; [|done].
  split; [done|]. eexists. split; [done|]. split.
  - apply non_empty_forall. intros x Hx Hne.
    apply list_elem_of_fmap in Hx as (line & -> & Hline). split.
    + by apply strip_trimmed.
    + apply strip_unbroken.
      pose proof (splitlines_from_unbroken (length text) [] text) as H.
      rewrite Forall_forall in H. apply H; [lia|constructor|done].
  - unfold non_empty. etrans; [apply List.filter_length_le|]. by rewrite length_fmap.
Qed.

Lemma join_parts (P : N → Prop) sep parts :
  Forall P (join sep parts) → Forall (Forall P) parts.
Proof.
  induction parts as [|x [|y rest] IH]; [done| |].
  - intros H. by repeat constructor.
  - cbn [join]. intros H. apply Forall_app in H as [Hx H].
    apply Forall_app in H as [_ H]. constructor; [done|]. by apply IH.
Qed.

Definition not_blank (line : pystr) : Prop := strip line ≠ [].

Lemma close_paragraph_trimmed buf paragraphs :
  buf ≠ [] → Forall not_blank buf → Forall trimmed paragraphs →
  Forall trimmed (close_paragraph buf paragraphs).
Proof.
  intros Hne Hbuf Hps. unfold close_paragraph.
  apply Forall_app. split; [done|]. constructor; [|done].
  apply strip_trimmed. intros Hnil. apply strip_chars_nil, join_parts in Hnil.
  destruct buf as [|line buf]; [done|].
  apply Forall_cons in Hnil as [Hline _]. apply Forall_cons in Hbuf as [Hb _].
  by apply strip_chars_nil in Hline.
Qed.

Lemma split_paragraphs_from_trimmed lines buf paragraphs :
  Forall not_blank buf → Forall trimmed paragraphs →
  Forall trimmed (split_paragraphs_from lines buf paragraphs).
Proof.
  revert buf paragraphs.
  induction lines as [|line rest IH]; intros buf paragraphs Hbuf Hps;
    cbn [split_paragraphs_from].
  - destruct buf; [done|]. by apply close_paragraph_trimmed.
  - destruct (is_empty (strip line)) eqn:Hline.
    + destruct buf as [|b buf]; cbn [is_empty]; [by apply IH|].
      apply IH; [done|]. by apply close_paragraph_trimmed.
    + apply IH; [|done]. apply Forall_app. split; [done|].
      constructor; [|done]. unfold not_blank. by destruct (strip line).
Qed.

Lemma split_paragraphs_from_blank lines paragraphs :
  Forall (λ line, strip line = []) lines →
  split_paragraphs_from lines [] paragraphs = paragraphs.
Proof.
  induction 1 as [|line rest Hline _ IH]; [done|].
  cbn [split_paragraphs_from]. by rewrite Hline.
Qed.

(** X6. The paragraphs of a raw corpus (lines 146 to 158): each one is not
    empty and neither starts nor ends with white space, and lines that
    are all blank give no paragraph at all. *)
Theorem raw_paragraphs_trimmed (lines : list pystr) :
  Forall trimmed (split_paragraphs_from lines [] [])
  ∧ (Forall (λ line, strip line = []) lines →
     split_paragraphs_from lines [] [] = []).
Proof.
  split; [by apply split_paragraphs_from_trimmed|].
  apply split_paragraphs_from_blank.
Qed.

Definition in_range (n idx : Z) : bool := (1 <=? idx) && (idx <=? n).

Lemma run_check_indices (n : Z) (idx_list : list Z) (w : W) :
  ∃ t,
    run answer
      (for_each idx_list
         (λ idx (_ : unit),
            if (idx <? 1) || (idx >? n)
            then log Error (RawIndexInvalid idx n);; exit 1
            else mret tt) tt) w
    = (if forallb (in_range n) idx_list then inl tt else inr (Exited 1), t, w)
    ∧ Forall is_told t.
Proof.
  induction idx_list as [|idx rest (t & IH & Ht)]; [by exists []|].
  cbn [for_each forallb].
  assert ((idx <? 1) || (idx >? n) = negb (in_range n idx)) as ->.
  { unfold in_range.
    destruct (Z.ltb_spec idx 1), (Z.gtb_spec idx n), (Z.leb_spec 1 idx),
      (Z.leb_spec idx n); cbn; try done; lia. }
  destruct (in_range n idx); cbn [negb andb].
  - exists t. split; [|done]. exact IH.
  - eexists. split; [reflexivity|by repeat constructor].
Qed.

Lemma run_select_paragraphs (paragraphs : list pystr) (idx_list : list Z)
    (hs : list pystr) (w : W) :
  forallb (in_range (len paragraphs)) idx_list = true →
  ∃ paras t,
    Forall2 (λ idx para, paragraphs !! Z.to_nat (idx - 1) = Some para)
      idx_list paras
    ∧ run answer
        (for_each idx_list
           (λ idx hs,
              para ← item paragraphs (idx - 1);
              let h := get_sha256 para in
              log Info (RawSelected idx h);;
              mret (hs ++ [h])) hs) w
      = (inl (hs ++ (get_sha256 <$> paras)), t, w)
    ∧ Forall is_told t.
Proof.
  revert hs. induction idx_list as [|idx rest IH]; intros hs Hok.
  { exists [], []. rewrite app_nil_r. by repeat split. }
  cbn [forallb] in Hok. apply andb_true_iff in Hok as [Hidx Hok].
  unfold in_range in Hidx. apply andb_true_iff in Hidx as [H1 H2].
  apply Z.leb_le in H1, H2. unfold len in H2.
  destruct (lookup_lt_is_Some_2 paragraphs (Z.to_nat (idx - 1))) as [para Hpara];
    [lia|].
  destruct (IH (hs ++ [get_sha256 para]) Hok) as (paras & t & Hparas & Hrun & Ht).
  exists (para :: paras), (Told (Info, RawSelected idx (get_sha256 para)) :: t).
  split; [by constructor|]. split; [|by constructor].
  match goal with |- context [for_each _ ?b] => set (body := b) in * end.
  change (for_each (idx :: rest) body hs)
    with (body idx hs ≫= for_each rest body).
  rewrite run_bind.
  assert (run answer (body idx hs) w
          = (inl (hs ++ [get_sha256 para]),
             [Told (Info, RawSelected idx (get_sha256 para))], w)) as ->.
  { unfold body, item. by rewrite Hpara. }
  rewrite Hrun. by rewrite <- app_assoc.
Qed.

(** X7. [--raw-file] with [--raw-index], on a file that is there, can be read
    and has a paragraph: when every index is between 1 and the number of
    paragraphs, the hashes of the paragraphs at these indices, counted
    from 1, are added in the order given, a repeated index adding its
    hash again; when one index is out of this range, the script exits
    with status 1 without having selected anything. *)
Theorem raw_index_selection (args : Args) (raw_hashes : list pystr)
    (text : pystr) (idx_list : list Z) (w w1 w2 : W) :
  let raw_path := default [] (raw_file args) in
  let paragraphs := split_paragraphs_from (splitlines text) [] [] in
  given (raw_file args) = true →
  given (raw_index args) = true →
  answer _ (PathExists raw_path) w = (Ok true, w1) →
  answer _ (ReadText raw_path) w1 = (Ok text, w2) →
  paragraphs ≠ [] →
  parse_indices int_of_str (default [] (raw_index args)) = Some idx_list →
  let r := (run answer (from_raw_file get_sha256 int_of_str args raw_hashes) w).1.1 in
  if forallb (in_range (len paragraphs)) idx_list then
    ∃ paras,
      Forall2 (λ idx para, paragraphs !! Z.to_nat (idx - 1) = Some para)
        idx_list paras
      ∧ r = inl (raw_hashes ++ (get_sha256 <$> paras))
  else r = inr (Exited 1).
Proof.
  intros raw_path paragraphs Hfile Hindex Hexists Hread Hne Hparse r.
  subst r. unfold from_raw_file. rewrite Hfile, Hindex.
  fold raw_path. cbn [mbind prog_bind bind call run].
  rewrite Hexists. cbn [negb bind run]. rewrite Hread. cbn [bind].
  fold paragraphs. destruct paragraphs as [|p ps] eqn:Hps; [done|].
  cbn [is_empty negb]. rewrite Hparse. rewrite <- Hps. clear Hps Hne.
  rewrite run_bind.
  destruct (run_check_indices (len paragraphs) idx_list w2) as (t & -> & Ht).
  destruct (forallb (in_range (len paragraphs)) idx_list) eqn:Hok; [|done].
  rewrite run_bind. cbn [log tell run].
  destruct (run_select_paragraphs paragraphs idx_list raw_hashes w2 Hok)
    as (paras & t' & Hparas & Hrun & Ht').
  match goal with
  | |- context [run answer (for_each idx_list ?b raw_hashes) ?w'] =>
    set (selected := run answer (for_each idx_list b raw_hashes) w')
  end.
  assert (selected = (inl (raw_hashes ++ (get_sha256 <$> paras)), t', w2)) as ->
    by exact Hrun.
  by exists paras.
Qed.

End ReadFacts.

Section OpenieFacts.

Import DeleteLpmmItems.

Variable get_sha256 : pystr → pystr.
Variable json_loads : pystr → result json.
Variable str_of_tuple : list json → pystr.
Variable int_of_str : pystr → option Z.

Context {W : Type}.
Variable answer : ∀ X, event X → W → result X * W.

Lemma doc_idx_trimmed (docs : list json) : Forall trimmed (omap doc_idx docs).
Proof.
  apply Forall_forall. intros h Hh.
  apply list_elem_of_omap in Hh as (doc & _ & Hdoc).
  unfold doc_idx in Hdoc.
  destruct doc as [| | | | | |d]; try done.
  destruct (d !! u "idx") as [[| | | |idx| |]|]; try done.
  destruct (is_empty (strip idx)) eqn:Hidx; [done|].
  injection Hdoc as <-. apply strip_trimmed. by destruct (strip idx).
Qed.

(** X5. [--openie-file] on a file that is there and reads the same both
    times.  When the text parses and its [docs] can be iterated, the
    identifiers added are the stripped, non-empty [idx] strings of the
    documents, and entities and relations come from the same documents.
    When the text does not parse, or [docs] cannot be iterated, the
    exception leaves [read_openie_hashes] and ends the script, after the
    first read: the error report and the exit with status 1 of lines 136
    to 139 are not reached. *)
Theorem openie_file_parsed_or_crash (args : Args) (raw_hashes : list pystr)
    (text : pystr) (w w1 w2 w3 : W) :
  let openie_path := default [] (openie_file args) in
  given (openie_file args) = true →
  answer _ (PathExists openie_path) w = (Ok true, w1) →
  answer _ (ReadText openie_path) w1 = (Ok text, w2) →
  answer _ (ReadText openie_path) w2 = (Ok text, w3) →
  match json_loads text ≫= (λ data, iterate (docs_of data)) with
  | Ok docs =>
    run answer (from_openie_file json_loads str_of_tuple args raw_hashes) w
    = (inl (raw_hashes ++ omap doc_idx docs,
            (foldl (doc_items str_of_tuple) ([], []) docs).1,
            (foldl (doc_items str_of_tuple) ([], []) docs).2),
       [Called (PathExists openie_path) (Ok true);
        Called (ReadText openie_path) (Ok text);
        Called (ReadText openie_path) (Ok text)], w3)
    ∧ Forall trimmed (omap doc_idx docs)
  | Raise e =>
    run answer (from_openie_file json_loads str_of_tuple args raw_hashes) w
    = (inr (Crashed e),
       [Called (PathExists openie_path) (Ok true);
        Called (ReadText openie_path) (Ok text)], w2)
  end.
Proof.
  intros openie_path Hgiven Hexists Hread1 Hread2.
  unfold from_openie_file, read_openie_hashes, openie_items.
  rewrite Hgiven. fold openie_path.
  cbn [mbind prog_bind bind call attempt run]. rewrite Hexists.
  cbn [negb bind run]. rewrite Hread1. cbn [bind run].
  destruct (json_loads text) as [data|e] eqn:Hparse;
    cbn [mbind result_bind prog_bind bind lift run]; [|done].
  destruct (iterate (docs_of data)) as [docs|e] eqn:Hiter;
    cbn [mbind result_bind prog_bind bind lift run mret prog_ret]; [|done].
  rewrite Hread2. cbn [mbind result_bind]. rewrite Hparse.
  cbn [mbind result_bind]. rewrite Hiter.
  cbn [mbind result_bind mret result_ret].
  destruct (foldl (doc_items str_of_tuple) ([], []) docs)
    as [raw_entities raw_relations].
  cbn. split; [done|]. apply doc_idx_trimmed.
Qed.

End OpenieFacts.

Section ChoiceFacts.

Import DeleteLpmmItems.

Variable get_sha256 : pystr → pystr.
Variable json_loads : pystr → result json.
Variable str_of_tuple : list json → pystr.
Variable int_of_str : pystr → option Z.

Context {W : Type}.
Variable answer : ∀ X, event X → W → result X * W.

(** What the number [i] picks among the candidates shown: the hash of
    candidate [i], counted from 1, when its key is a paragraph key. *)
Definition picked (candidates : list (pystr * pystr)) (i : Z) : option pystr :=
  if (1 <=? i) && (i <=? len candidates) then
    c ← candidates !! Z.to_nat (i - 1);
    if startswith paragraph_prefix c.1
    then Some (drop (length paragraph_prefix) c.1) else None
  else None.

Lemma run_show_candidates (l : list (Z * (pystr * pystr))) (w : W) :
  ∃ t,
    run answer
      (for_each l (λ c (_ : unit), log Info (SearchCandidate c.1 c.2.1)) tt) w
    = (inl tt, t, w).
Proof.
  induction l as [|c l (t & IH)]; [by exists []|].
  eexists. cbn [for_each log tell bind run]. by rewrite IH.
Qed.

Lemma split_once_prefix (key : pystr) :
  startswith paragraph_prefix key = true →
  split_once paragraph_prefix key !! 1%nat
  = Some (drop (length paragraph_prefix) key).
Proof.
  intros H. unfold split_once.
  destruct key as [|c key]; [done|]. cbn [find_from]. by rewrite H.
Qed.

Lemma run_pick (candidates : list (pystr * pystr)) (idxs : list Z)
    (hs : list pystr) (w : W) :
  ∃ t,
    run answer
      (for_each idxs
         (λ i hs,
            if (1 <=? i) && (i <=? len candidates) then
              c ← item candidates (i - 1);
              if startswith paragraph_prefix c.1 then
                h ← item (split_once paragraph_prefix c.1) 1;
                mret (hs ++ [h])
              else mret hs
            else log Warning (ChoiceIgnored i);; mret hs) hs) w
    = (inl (hs ++ omap (picked candidates) idxs), t, w).
Proof.
  revert hs. induction idxs as [|i idxs IH]; intros hs.
  { exists []. by rewrite app_nil_r. }
  match goal with |- context [for_each _ ?b] => set (body := b) in * end.
  change (for_each (i :: idxs) body hs) with (body i hs ≫= for_each idxs body).
  assert (∃ t, run answer (body i hs) w
               = (inl (hs ++ from_option (λ h, [h]) [] (picked candidates i)), t, w))
    as (t1 & Hstep).
  { unfold body, picked.
    destruct (1 <=? i) eqn:H1, (i <=? len candidates) eqn:H2; cbn [andb];
      try (eexists; rewrite app_nil_r; reflexivity).
    apply Z.leb_le in H1, H2. unfold len in H2.
    destruct (lookup_lt_is_Some_2 candidates (Z.to_nat (i - 1))) as [c Hc]; [lia|].
    unfold item. rewrite Hc.
    cbn [mbind option_bind prog_bind bind mret prog_ret option_ret].
    destruct (startswith paragraph_prefix c.1) eqn:Hp.
    - change (Z.to_nat 1) with 1%nat.
      match goal with
      | |- context [match ?l with Some _ => _ | None => _ end ≫= _] =>
        replace l with (Some (drop (length paragraph_prefix) c.1))
          by (symmetry; exact (split_once_prefix _ Hp))
      end.
      by eexists.
    - eexists. by rewrite app_nil_r. }
  destruct (IH (hs ++ from_option (λ h, [h]) [] (picked candidates i))) as (t2 & Hrest).
  exists (t1 ++ t2). rewrite run_bind, Hstep, Hrest. cbn [omap list_omap].
  destruct (picked candidates i) as [h|]; cbn [from_option].
  - by rewrite <- app_assoc.
  - by rewrite app_nil_r.
Qed.

(** X21. [--search-text], once the store has been loaded and holds a
    paragraph with the text: the answer typed in decides what is added.
    A blank answer and an answer that is no list of numbers add nothing.
    Otherwise each number between 1 and the number of candidates adds the
    hash of the candidate it names, in the order typed, when the key of
    this candidate is a paragraph key; every other number is passed over.
    No number, however large or small, makes the script fail. *)
Theorem search_choice_selection (args : Args) (raw_hashes : list pystr)
    (items : list (pystr * pystr)) (typed : pystr) (w w1 w2 w3 w4 : W) :
  let text := strip (default [] (search_text args)) in
  let candidates := search_candidates text (search_limit args) items [] in
  given (search_text args) = true →
  text ≠ [] →
  answer _ (NewEmbeddingManager SearchManager) w = (Ok tt, w1) →
  answer _ (LoadEmbeddings SearchManager) w1 = (Ok tt, w2) →
  answer _ ParagraphItems w2 = (Ok items, w3) →
  answer _ (Input AskChoice) w3 = (Ok typed, w4) →
  candidates ≠ [] →
  (run answer (from_search_text int_of_str args raw_hashes) w).1.1
  = inl (raw_hashes
         ++ if is_empty (strip typed) then []
            else match parse_indices int_of_str (strip typed) with
                 | Some idxs => omap (picked candidates) idxs
                 | None => []
                 end).
Proof.
  intros text candidates Hgiven Htext Hnew Hload Hitems Hinput Hcand.
  subst candidates. unfold from_search_text. rewrite Hgiven. fold text.
  clearbody text.
  destruct text as [|c0 text0] eqn:Etext; [done|]. cbn [is_empty].
  rewrite <- Etext in *. clear Etext c0 text0.
  rewrite run_bind. cbn [log tell run].
  rewrite run_bind. cbn [call run]. rewrite Hnew. cbn [run].
  rewrite run_bind. cbn [attempt run]. rewrite Hload. cbn [run].
  rewrite run_bind. cbn [call run]. rewrite Hitems. cbn [run].
  remember (search_candidates text (search_limit args) items []) as candidates
    eqn:Ecandidates.
  destruct candidates as [|cand rest] eqn:Ecand; [done|]. cbn [is_empty].
  rewrite <- Ecand. clear Hcand.
  rewrite run_bind. cbn [log tell run].
  rewrite run_bind.
  destruct (run_show_candidates (enumerate1 candidates) w3) as (t & ->).
  rewrite run_bind. cbn [call run]. rewrite Hinput. cbn [run].
  destruct (strip typed) as [|c1 typed1] eqn:Etyped; cbn [is_empty].
  { cbn. by rewrite app_nil_r. }
  rewrite <- Etyped.
  destruct (parse_indices int_of_str (strip typed)) as [idxs|].
  - destruct (run_pick candidates idxs raw_hashes w4) as (t' & Hrun).
    match goal with
    | |- context [run answer (for_each idxs ?b raw_hashes) ?w'] =>
      set (chosen := run answer (for_each idxs b raw_hashes) w')
    end.
    assert (chosen = (inl (raw_hashes ++ omap (picked candidates) idxs), t', w4))
      as -> by exact Hrun.
    done.
  - cbn. by rewrite app_nil_r.
Qed.

End ChoiceFacts.

(** ** [message_recorder.py]: the names a recorder knows *)

Section RecorderNameFacts.

Import MessageRecorder.

Variable Time : Type.
Variable now : Time.
Variable Person : pystr → pystr → result (option pystr).
Variable lower : pystr → pystr.

(** The empty string has no capitals. *)
Hypothesis lower_nil : lower [] = [].

Abbreviation update_person' := (update_person Time now Person).
Abbreviation contains_person_name' := (contains_person_name (Time := Time) lower).

(** What the recorder holds of a participant besides the time. *)
Definition names (kv : pystr * PersonInfo Time)
  : pystr * (pystr * pystr * pystr * option pystr * pystr) :=
  (kv.1, (user_id Time kv.2, user_platform Time kv.2, user_nickname Time kv.2,
          user_cardname Time kv.2, person_name Time kv.2)).

Lemma names_touch key t (d : person_dict Time) :
  names <$> touch Time key t d = names <$> d.
Proof.
  unfold touch. rewrite <- list_fmap_compose. apply list_fmap_ext.
  intros _ kv _. cbn. by destruct (decide (kv.1 = key)).
Qed.

Lemma touch_times key t (d : person_dict Time) :
  Forall (λ kv, kv.1 = key → last_seen_time Time kv.2 = t) (touch Time key t d).
Proof.
  unfold touch. apply Forall_fmap, Forall_forall. intros kv _. cbn.
  by destruct (decide (kv.1 = key)).
Qed.

Lemma get_Forall (P : PersonInfo Time → Prop) key (d : person_dict Time) v :
  Forall (λ kv, kv.1 = key → P kv.2) d → get Time key d = Some v → P v.
Proof.
  induction 1 as [|kv d Hkv _ IH]; [done|]. cbn [get].
  destruct (decide (kv.1 = key)); [|done]. intros [= <-]. by apply Hkv.
Qed.

Lemma get_del_perm key (d : person_dict Time) v :
  get Time key d = Some v → d ≡ₚ del Time key d ++ [(key, v)].
Proof.
  induction d as [|kv d IH]; [done|]. cbn [get del].
  destruct (decide (kv.1 = key)) as [Heq|Hne].
  - intros [= <-]. destruct kv as [k v']. cbn in Heq. subst k.
    by rewrite <- Permutation_cons_append.
  - intros H. cbn [app]. by rewrite <- IH.
Qed.

Lemma move_to_end_perm key (d : person_dict Time) :
  move_to_end Time key d ≡ₚ d.
Proof.
  unfold move_to_end. destruct (get Time key d) as [v|] eqn:Hget; [|done].
  symmetry. by apply get_del_perm.
Qed.

Lemma existsb_perm {A} (f : A → bool) (l1 l2 : list A) :
  l1 ≡ₚ l2 → existsb f l1 = existsb f l2.
Proof.
  intros H. apply eq_true_iff_eq. rewrite !existsb_exists.
  split; intros (x & Hx & Hf); exists x; (split; [|done]);
    apply list_elem_of_In; apply list_elem_of_In in Hx; by rewrite ?H in *.
Qed.

Lemma existsb_names content_lower (d1 d2 : person_dict Time) :
  names <$> d1 ≡ₚ names <$> d2 →
  existsb (λ kv, mentions lower content_lower kv.2) d1
  = existsb (λ kv, mentions lower content_lower kv.2) d2.
Proof.
  intros H.
  assert (∀ d : person_dict Time,
            existsb (λ kv, mentions lower content_lower kv.2) d
            = existsb (λ n, mentions lower content_lower
                              {| user_id := n.2.1.1.1.1; user_platform := n.2.1.1.1.2;
                                 user_nickname := n.2.1.1.2; user_cardname := n.2.1.2;
                                 person_name := n.2.2;
                                 last_seen_time := now |})
                (names <$> d)) as Hd.
  { intros d. induction d as [|kv d IH]; [done|].
    rewrite fmap_cons. cbn [existsb]. by rewrite IH. }
  rewrite !Hd. by apply existsb_perm.
Qed.

(** X15. A message of a participant the recorder already holds changes the
    time stored for this participant and nothing else: the identifiers
    and the three names of every participant stay what they were when
    the participant was first seen, whatever nickname or card name the
    message carries, and [contains_person_name] answers as before on
    every content. *)
Theorem known_participant_keeps_names (self : recorder Time)
    (msg : Message Time) (key : pystr) :
  participant Time msg = Some key →
  key ∈ keys_of Time self →
  ∃ self',
    update_person' self msg = Ok self'
    ∧ names <$> _person_list Time self' ≡ₚ names <$> _person_list Time self
    ∧ (last_seen_time Time <$> get Time key (_person_list Time self')
       = Some (time_of Time now msg))
    ∧ ∀ content,
        contains_person_name' self' content = contains_person_name' self content.
Proof.
  intros Hkey Hin. eexists. split; [by apply update_known|].
  cbn [_person_list].
  set (d := _person_list Time self).
  set (t := time_of Time now msg).
  assert (names <$> move_to_end Time key (touch Time key t d) ≡ₚ names <$> d)
    as Hperm.
  { rewrite move_to_end_perm. by rewrite names_touch. }
  split; [done|]. split.
  - unfold keys_of in Hin. fold d in Hin.
    assert (Forall (λ kv, kv.1 = key → last_seen_time Time kv.2 = t)
              (move_to_end Time key (touch Time key t d))) as Hall.
    { rewrite move_to_end_perm. apply touch_times. }
    assert (is_Some (get Time key (move_to_end Time key (touch Time key t d))))
      as [v Hv].
    { apply get_is_Some. rewrite move_to_end_perm. by rewrite touch_keys. }
    rewrite Hv. cbn. f_equal.
    exact (get_Forall (λ v, last_seen_time Time v = t) key _ v Hall Hv).
  - intros content. unfold contains_person_name. cbn [_person_list]. fold d.
    assert (is_empty (move_to_end Time key (touch Time key t d)) = is_empty d)
      as ->.
    { apply Permutation_length in Hperm. rewrite !length_fmap in Hperm.
      destruct (move_to_end _ _ _), d; done. }
    destruct (is_empty content || is_empty d); [done|]. cbn zeta.
    destruct (is_empty (lower (strip content))); [done|].
    by apply existsb_names.
Qed.

Lemma or_str_nil (a : pystr) : or_str a [] = a.
Proof. by destruct a. Qed.

(** What a message of a participant the recorder does not hold adds. *)
Lemma update_new (self : recorder Time) (msg : Message Time) (key : pystr) :
  0 < _max_person_count Time self →
  participant Time msg = Some key → key ∉ keys_of Time self →
  ∃ d' info,
    update_person' self msg
    = Ok {| _person_list := d' ++ [(key, info)];
            _max_person_count := _max_person_count Time self |}
    ∧ user_nickname Time info
      = default [] (sender_nickname (sender_of Time msg))
    ∧ user_cardname Time info = sender_cardname (sender_of Time msg).
Proof.
  unfold participant, update_person, keys_of, has_key.
  destruct (is_empty _ || is_empty _); [done|].
  intros Hmax [= <-] Hin. rewrite bool_decide_eq_false_2 by done.
  destruct (len (_person_list Time self) >=? _max_person_count Time self) eqn:Hfull.
  - destruct (_person_list Time self) as [|[oldest_key oldest] rest] eqn:Hd.
    { rewrite Z.geb_leb in Hfull. apply Z.leb_le in Hfull.
      rewrite ?Hd in Hfull. unfold len in Hfull. cbn in Hfull. lia. }
    cbn [mbind result_bind]. eexists _, _. split; [reflexivity|].
    cbn. by rewrite or_str_nil.
  - cbn [mbind result_bind]. eexists _, _. split; [reflexivity|].
    cbn. by rewrite or_str_nil.
Qed.

Lemma name_in_intro content_lower name :
  lower (strip name) ≠ [] →
  contains (lower (strip name)) content_lower = true →
  name_in lower content_lower name = true.
Proof.
  unfold name_in. intros Hne Hc.
  destruct name as [|c name];
    [change (strip []) with (@nil N) in Hne; by rewrite lower_nil in Hne|].
  cbn [is_empty negb andb]. rewrite Hc.
  by destruct (lower (strip (c :: name))).
Qed.

(** X16. After a message of a participant the recorder did not hold, a content
    in which the nickname or the card name of this message occurs, both
    stripped and in lower case, is recognised by [contains_person_name];
    the name must not be blank. *)
Theorem new_participant_recognised (self : recorder Time)
    (msg : Message Time) (key name content : pystr) :
  0 < _max_person_count Time self →
  participant Time msg = Some key →
  key ∉ keys_of Time self →
  sender_nickname (sender_of Time msg) = Some name
  ∨ sender_cardname (sender_of Time msg) = Some name →
  lower (strip name) ≠ [] →
  contains (lower (strip name)) (lower (strip content)) = true →
  ∃ self',
    update_person' self msg = Ok self'
    ∧ last (keys_of Time self') = Some key
    ∧ contains_person_name' self' content = true.
Proof.
  intros Hmax Hkey Hnew Hname Hne Hin.
  destruct (update_new self msg key Hmax Hkey Hnew)
    as (d' & info & Hrun & Hnick & Hcard).
  eexists. split; [exact Hrun|].
  unfold keys_of, contains_person_name. cbn [_person_list].
  split; [rewrite fmap_app; exact (last_snoc key (d'.*1))|].
  assert (lower (strip content) ≠ []) as Hcontent.
  { intros Hnil. rewrite Hnil in Hin. by destruct (lower (strip name)). }
  destruct content as [|c content];
    [change (strip []) with (@nil N) in Hcontent; by rewrite lower_nil in Hcontent|].
  assert (is_empty (d' ++ [(key, info)]) = false) as -> by by destruct d'.
  cbn [is_empty orb]. cbn zeta.
  destruct (lower (strip (c :: content))) as [|c' content_lower] eqn:Hlower;
    [done|]. cbn [is_empty].
  rewrite existsb_app. cbn [existsb snd]. rewrite orb_false_r.
  apply orb_true_iff. right. unfold mentions.
  destruct Hname as [Hname|Hname].
  - rewrite Hnick, Hname. cbn [default from_option id].
    rewrite (name_in_intro _ name Hne Hin). by rewrite orb_true_r.
  - rewrite Hcard, Hname.
    rewrite (name_in_intro _ name Hne Hin). by rewrite !orb_true_r.
Qed.

End RecorderNameFacts.

(** ** [model_performance_cache.py]: writing the cache and reading it back *)

Section FlushFacts.

Import ModelPerformanceCache.

Variable Time : Type.
Variable due : Time → Time → bool.
Variable is_oserror : exn → bool.

Context {W : Type}.
Variable answer : ∀ X, event Time X → W → result X * W.

Abbreviation cleanup' := (cleanup Time is_oserror).
Abbreviation flush_locked' := (_flush_locked Time is_oserror).
Abbreviation mark_dirty_locked' := (_mark_dirty_locked Time due is_oserror).
Abbreviation io_step := (entry (event Time) Empty_set).

Definition tmp_path (self : cache Time) : pystr :=
  cache_path Time self ++ u ".tmp".

(** Every call is about the temporary file, except the one that moves it
    onto the cache file; what is dumped is the data of the cache. *)
Definition its_own (self : cache Time) (en : io_step) : Prop :=
  match en with
  | Told _ => False
  | Called e _ =>
    match e with
    | OpenWrite path | PathExists path | Remove path => path = tmp_path self
    | JsonDump data => data = _data Time self
    | Replace src dst => src = tmp_path self ∧ dst = cache_path Time self
    | CloseFile | TimeNow => True
    end
  end.

(** The calls by name, each with whether it went through. *)
Inductive call_name : Type :=
  Opened | Dumped | Closed | Replaced | Checked | Removed | Stamped.

Definition shape (en : io_step) : option (call_name * bool) :=
  match en with
  | Told _ => None
  | Called e r =>
    Some (match e with
          | OpenWrite _ => Opened
          | JsonDump _ => Dumped
          | CloseFile => Closed
          | Replace _ _ => Replaced
          | PathExists _ => Checked
          | Remove _ => Removed
          | TimeNow => Stamped
          end, is_ok r)
  end.

Definition shapes (t : list io_step) : list (call_name * bool) := omap shape t.

(** The data were dumped into the temporary file, the file was closed and
    moved onto the cache file, each step without an error. *)
Definition written (t : list io_step) : Prop :=
  take 4 (shapes t)
  = [(Opened, true); (Dumped, true); (Closed, true); (Replaced, true)].

(** How [cleanup] can go. *)
Definition cleaned (self : cache Time) (t : list io_step) (r : cache Time + outcome)
  : Prop :=
  Forall (its_own self) t
  ∧ ((shapes t = [(Checked, true)] ∧ r = inl self)
     ∨ (shapes t = [(Checked, true); (Removed, true)] ∧ r = inl self)
     ∨ (∃ e, shapes t = [(Checked, true); (Removed, false)]
             ∧ r = if is_oserror e then inl self else inr (Crashed e))
     ∨ (∃ e, shapes t = [(Checked, false)] ∧ r = inr (Crashed e))).

Lemma yields_cleanup (self : cache Time) L :
  (∀ t r, cleaned self t r → L t r) →
  yields answer (cleanup' (tmp_path self) self) L.
Proof.
  intros HL. unfold cleanup.
  cbn [mbind prog_bind bind call attempt].
  apply yields_vis. intros [[|]|e]; cbn [bind].
  - apply yields_vis. intros [[]|e]; cbn [bind].
    + apply yields_ret, HL. split; [by repeat constructor|]. right. by left.
    + destruct (is_oserror e) eqn:He; [apply yields_ret|apply yields_halt];
        apply HL; (split; [by repeat constructor|]); right; right; left;
        exists e; by rewrite He.
  - apply yields_ret, HL. split; [by repeat constructor|]. by left.
  - apply yields_halt, HL. split; [by repeat constructor|].
    right. right. right. by exists e.
Qed.

(** What holds of the trace [t] and the ending [r] of [_flush_locked]. *)
Definition flushed (self : cache Time) (t : list io_step)
    (r : cache Time + outcome) : Prop :=
  Forall (its_own self) t
  ∧ (∀ self', r = inl self' →
       cache_path Time self' = cache_path Time self
       ∧ _data Time self' = _data Time self
       ∧ (written t ↔ _dirty Time self' = false)
       ∧ (¬ written t → self' = self))
  ∧ (∀ o, r = inr o →
       ∃ e, o = Crashed e
            ∧ (last (shapes t) = Some (Checked, false)
               ∨ (last (shapes t) = Some (Removed, false)
                  ∧ is_oserror e = false))).

Ltac flushed_leaf Hdirty :=
  match goal with
  | Hc : cleaned _ _ _ |- _ =>
    let Hown := fresh "Hown" in
    let Hs := fresh "Hs" in
    let e := fresh "e" in
    destruct Hc as [Hown [[Hs ->]|[[Hs ->]|[(e & Hs & ->)|(e & Hs & ->)]]]];
    unfold flushed, written, shapes in *;
    cbn [omap list_omap shape is_ok mbind option_bind];
    rewrite Hs;
    (split; [repeat (constructor; [done|]); exact Hown|]);
    try (destruct (is_oserror e) eqn:?);
    split;
    first
      [ solve [ intros ? [= <-]; cbn;
                (split; [done|]); (split; [done|]);
                (split; [split; [intros [=]|congruence] | try done]) ]
      | solve [ intros ? [= <-]; eexists; split; [done|]; cbn; auto ] ]
  end.

Lemma yields_flush_locked (self : cache Time) :
  _dirty Time self = true →
  yields answer (flush_locked' self) (flushed self).
Proof.
  intros Hdirty. unfold _flush_locked. rewrite Hdirty. cbn [negb].
  change (cache_path Time self ++ u ".tmp") with (tmp_path self).
  cbn [mbind prog_bind bind attempt].
  apply yields_vis. intros [[]|e1]; cbn [bind].
  2: { apply yields_cleanup. intros t r Hc. flushed_leaf Hdirty. }
  apply yields_vis. intros [[]|e2]; cbn [bind];
    (apply yields_vis; intros [[]|e3]; cbn [bind]).
  2-4: apply yields_cleanup; intros t r Hc; flushed_leaf Hdirty.
  apply yields_vis. intros [[]|e4]; cbn [bind].
  2: { apply yields_cleanup. intros t r Hc. flushed_leaf Hdirty. }
  apply yields_vis. intros [stamp|e5]; cbn [bind].
  - apply yields_ret. unfold flushed, written, shapes. cbn.
    split; [by repeat constructor|]. split; [|done].
    intros self' [= <-]. cbn. repeat split; done.
  - set (self1 := {| cache_path := cache_path Time self; _data := _data Time self;
                     _last_dump_ts := _last_dump_ts Time self; _dirty := false |}).
    apply (yields_cleanup self1). intros t r Hc.
    destruct Hc as [Hown [[Hs ->]|[[Hs ->]|[(e & Hs & ->)|(e & Hs & ->)]]]];
      unfold flushed, written, shapes in *;
      cbn [omap list_omap shape is_ok mbind option_bind];
      rewrite Hs;
      (split; [repeat (constructor; [done|]); exact Hown|]);
      try (destruct (is_oserror e) eqn:?);
      split;
      first
        [ solve [ intros ? [= <-]; cbn; repeat split; try done;
                  intros H; by destruct H ]
        | solve [ intros ? [= <-]; eexists; split; [done|]; cbn; auto ] ].
Qed.

Lemma tmp_path_other (self : cache Time) : tmp_path self ≠ cache_path Time self.
Proof.
  unfold tmp_path. intros H. apply (f_equal length) in H.
  rewrite length_app in H. vm_compute (length (u ".tmp")) in H. lia.
Qed.

(** X19. [_flush_locked] never opens, writes or removes the cache file
    itself: it works on the temporary file beside it and changes the
    cache file only by moving the temporary file onto it.  A clean cache
    is left alone without a call.  The data and the path of the cache
    never change; the cache comes back clean exactly when the data were
    dumped, the file closed and moved into place without an error, and
    it comes back as it was when one of these steps failed.  The only
    exceptions that leave [_flush_locked] are one of [os.path.exists] and
    one of [os.remove] that is no [OSError]. *)
Theorem flush_locked_keeps_cache_file_whole (self : cache Time) (w : W) :
  let r := (run answer (flush_locked' self) w).1.1 in
  let t := (run answer (flush_locked' self) w).1.2 in
  tmp_path self ≠ cache_path Time self
  ∧ Forall (its_own self) t
  ∧ (_dirty Time self = false → t = [] ∧ r = inl self)
  ∧ (∀ self', r = inl self' →
       cache_path Time self' = cache_path Time self
       ∧ _data Time self' = _data Time self
       ∧ (_dirty Time self = true → (written t ↔ _dirty Time self' = false))
       ∧ (¬ written t → self' = self))
  ∧ (∀ o, r = inr o →
       ∃ e, o = Crashed e
            ∧ (last (shapes t) = Some (Checked, false)
               ∨ (last (shapes t) = Some (Removed, false)
                  ∧ is_oserror e = false))).
Proof.
  intros r t. split; [apply tmp_path_other|].
  destruct (_dirty Time self) eqn:Hdirty.
  - destruct (yields_flush_locked self Hdirty w) as (Hown & Hret & Hcrash).
    fold r t in Hown, Hret, Hcrash.
    split; [done|]. split; [done|]. split; [|done].
    intros self' Hr. destruct (Hret self' Hr) as (? & ? & ? & ?). done.
  - subst r t. unfold _flush_locked. rewrite Hdirty. cbn.
    split; [done|]. split; [done|]. split; [|done].
    intros self' [= <-]. done.
Qed.

(** X20. [_mark_dirty_locked] asks for the time once and goes on to write only
    when 5 seconds have passed since the last dump.  Whenever it returns,
    the data and the path are unchanged, and the cache is clean exactly
    when this call has dumped the data and moved them into place: an
    update is never marked as written without having been written. *)
Theorem mark_dirty_written_or_dirty (self : cache Time) (w : W) :
  let r := (run answer (mark_dirty_locked' self) w).1.1 in
  let t := (run answer (mark_dirty_locked' self) w).1.2 in
  match (answer _ TimeNow w).1 with
  | Raise e => t = [Called TimeNow (Raise e)] ∧ r = inr (Crashed e)
  | Ok now =>
    head t = Some (Called TimeNow (Ok now))
    ∧ (due now (_last_dump_ts Time self) = false → length t = 1%nat)
    ∧ Forall (its_own self) (drop 1 t)
    ∧ ∀ self', r = inl self' →
        cache_path Time self' = cache_path Time self
        ∧ _data Time self' = _data Time self
        ∧ (written (drop 1 t) ↔ _dirty Time self' = false)
  end.
Proof.
  intros r t. subst r t. unfold _mark_dirty_locked.
  cbn [mbind prog_bind bind call run].
  destruct (answer _ TimeNow w) as [[now|e] w1]; cbn [fst snd bind run]; [|done].
  cbn [_last_dump_ts].
  set (self1 := {| cache_path := cache_path Time self; _data := _data Time self;
                   _last_dump_ts := _last_dump_ts Time self; _dirty := true |}).
  destruct (due now (_last_dump_ts Time self)).
  - destruct (yields_flush_locked self1 eq_refl w1) as (Hown & Hret & _).
    destruct (run answer (flush_locked' self1) w1) as [[r t] w2].
    cbn [fst snd head drop] in *.
    split; [done|]. split; [done|]. split; [exact Hown|].
    intros self' Hr. destruct (Hret self' Hr) as (? & ? & ? & _). done.
  - cbn. split; [done|]. split; [done|]. split; [constructor|].
    intros self' [= <-]. cbn. repeat split; done.
Qed.

End FlushFacts.

Section CacheDataFacts.

Import ModelPerformanceCache.

Variable json_load : pystr → result json.

(** The document [json.dump] writes for the data of a cache. *)
Definition document (data : gmap pystr (gmap pystr (gmap pystr json))) : json :=
  JDict ((λ models : gmap pystr (gmap pystr json), JDict (JDict <$> models))
           <$> data).

Lemma convert_models_document (models : gmap pystr (gmap pystr json)) :
  convert_models (JDict <$> models) = models.
Proof.
  apply map_eq. intros model_name.
  rewrite convert_models_lookup, lookup_fmap.
  by destruct (models !! model_name).
Qed.

Lemma convert_document (data : gmap pystr (gmap pystr (gmap pystr json))) :
  convert ((λ models : gmap pystr (gmap pystr json), JDict (JDict <$> models))
             <$> data) = data.
Proof.
  apply map_eq. intros cache_key.
  rewrite convert_lookup, lookup_fmap.
  destruct (data !! cache_key) as [models|]; [|done].
  cbn. by rewrite convert_models_document.
Qed.

(** X17. [_load] gives back the data of a cache from the document written for
    them: every cache key, every model and every metric is there again,
    and nothing else. *)
Theorem load_restores_document (fs : disk) (path text : pystr)
    (data : gmap pystr (gmap pystr (gmap pystr json))) :
  exists_ fs path = true →
  read fs path = Ok text →
  json_load text = Ok (document data) →
  _load json_load fs path = Ok data.
Proof.
  intros Hexists Hread Hparse. unfold _load. rewrite Hexists. cbn [negb].
  rewrite Hread. cbn [mbind result_bind]. rewrite Hparse.
  unfold document. cbn [mbind result_bind except]. by rewrite convert_document.
Qed.

(** X18. [_get_or_create_entry] returns the entry the data then hold for the
    model; it keeps an entry that is there and creates one with zero
    counts otherwise; it changes nothing under another cache key or
    another model; and a second call returns the same entry and changes
    nothing more. *)
Theorem get_or_create_entry_spec
    (data : gmap pystr (gmap pystr (gmap pystr json)))
    (cache_key model_name : pystr) :
  let data' := (_get_or_create_entry data cache_key model_name).1 in
  let entry := (_get_or_create_entry data cache_key model_name).2 in
  get_stats data' cache_key !! model_name = Some entry
  ∧ entry = default new_entry (get_stats data cache_key !! model_name)
  ∧ (∀ other, other ≠ cache_key → data' !! other = data !! other)
  ∧ (∀ other, other ≠ model_name →
       get_stats data' cache_key !! other = get_stats data cache_key !! other)
  ∧ _get_or_create_entry data' cache_key model_name = (data', entry).
Proof.
  unfold _get_or_create_entry, get_stats.
  destruct (default ∅ (data !! cache_key) !! model_name) as [entry|] eqn:Hentry;
    cbn [fst snd default from_option id].
  - rewrite !lookup_insert_eq. cbn [default from_option id]. rewrite Hentry.
    split; [done|]. split; [done|]. split; [|split].
    + intros other Hne. by rewrite lookup_insert_ne.
    + done.
    + by rewrite insert_insert_eq.
  - rewrite !lookup_insert_eq. cbn [default from_option id].
    rewrite !lookup_insert_eq.
    split; [done|]. split; [done|]. split; [|split].
    + intros other Hne. by rewrite lookup_insert_ne.
    + intros other Hne. by rewrite lookup_insert_ne.
    + by rewrite insert_insert_eq.
Qed.

End CacheDataFacts.

(** ** The further statements on sample runs *)

Section MoreRuns.

Import Sample MoreSample.

(** A dry run on three identifiers. *)
Lemma dry_run_only_reads_witness :
  Forall (gathers (DeleteLpmmItems.given (DeleteLpmmItems.search_text by_file_dry)))
    (run main_answer
       (DeleteLpmmItems.main sha no_json tuple_text int_of_str by_file_dry) house).1.2
  ∧ mutations
      (run main_answer
         (DeleteLpmmItems.main sha no_json tuple_text int_of_str by_file_dry) house).1.2
    = []
  ∧ (run main_answer
       (DeleteLpmmItems.main sha no_json tuple_text int_of_str by_file_dry) house).1.1
    ≠ inl tt.
Proof.
  apply (dry_run_only_reads sha no_json tuple_text int_of_str main_answer
           by_file_dry house).
  reflexivity.
Defined.

(** Three identifiers deleted after the user has typed [YES]. *)
Lemma main_changes_need_consent_witness :
  let t :=
    (run main_answer
       (DeleteLpmmItems.main sha no_json tuple_text int_of_str by_file_wide)
       willing_house).1.2 in
  DeleteLpmmItems.dry_run by_file_wide = false
  ∧ (DeleteLpmmItems.yes by_file_wide = true ∨ existsb is_consent t = true)
  ∧ existsb (is_load_of false) t = true
  ∧ existsb (is_load_of true) t = true
  ∧ ∃ raw,
      (run main_answer
         (DeleteLpmmItems.gather sha no_json tuple_text int_of_str by_file_wide)
         willing_house).1.1 = inl raw
      ∧ (DeleteLpmmItems.yes by_file_wide = true
         ∨ candidate_total sha by_file_wide raw
           ≤ DeleteLpmmItems.max_delete_nodes by_file_wide).
Proof.
  apply (main_changes_need_consent sha no_json tuple_text int_of_str main_answer
           by_file_wide willing_house).
  vm_compute. discriminate.
Defined.

(** Two good answers of the model. *)
Lemma info_extract_result_clean_witness :
  (Some [JStr cat; JStr animal] = None ∧ Some [cat_is_animal] = None)
  ∨ ∃ es ts,
      Some [JStr cat; JStr animal] = Some es ∧ Some [cat_is_animal] = Some ts
      ∧ es ≠ [] ∧ Forall (clean_entity INVALID_ENTITY) es
      ∧ ts ≠ [] ∧ Forall checked_triple ts.
Proof.
  apply (info_extract_result_clean unit runtime_error_subclass
      INVALID_ENTITY repair_json json_loads
           json_dumps entity_prompt rdf_prompt llm_answer 3 tt tt (u "猫是动物")
           [says "[猫, 动物]"; says "[[猫, 是, 动物]]"]).
  vm_compute. reflexivity.
Defined.

(** The second and the first paragraph of a corpus of two. *)
Lemma raw_index_selection_witness :
  ∃ paras,
    Forall2 (λ idx para,
               [u "猫是动物"; u "猫吃鱼" ++ [10%N] ++ u "黑猫"] !! Z.to_nat (idx - 1)
               = Some para) [2; 1] paras
    ∧ (run main_answer
         (DeleteLpmmItems.from_raw_file sha int_of_str by_raw []) library).1.1
      = inl ([] ++ (sha <$> paras)).
Proof.
  refine (raw_index_selection sha int_of_str main_answer by_raw [] corpus [2; 1]
            library library library _ _ _ _ _ _).
  - reflexivity.
  - reflexivity.
  - vm_compute. reflexivity.
  - vm_compute. reflexivity.
  - vm_compute. discriminate.
  - vm_compute. reflexivity.
Defined.

(** Participant 5 writes again as [Tom]: the recorder still knows this
    participant as [nick]. *)
Lemma known_participant_keeps_names_witness :
  ∃ self',
    MessageRecorder.update_person Z 0 no_person full_house renamed = Ok self'
    ∧ names Z <$> MessageRecorder._person_list Z self'
      ≡ₚ names Z <$> MessageRecorder._person_list Z full_house
    ∧ (MessageRecorder.last_seen_time Z
         <$> MessageRecorder.get Z (key 5) (MessageRecorder._person_list Z self')
       = Some (MessageRecorder.time_of Z 0 renamed))
    ∧ ∀ content,
        MessageRecorder.contains_person_name lower self' content
        = MessageRecorder.contains_person_name lower full_house content.
Proof.
  apply (known_participant_keeps_names Z 0 no_person lower full_house renamed (key 5)).
  - vm_compute. reflexivity.
  - apply (bool_decide_unpack (key 5 ∈ keys_of Z full_house)).
    vm_compute. exact I.
Defined.

(** A newcomer called [Tom] is recognised in [ask TOM]. *)
Lemma new_participant_recognised_witness :
  ∃ self',
    MessageRecorder.update_person Z 0 no_person (MessageRecorder.init Z) newcomer
    = Ok self'
    ∧ last (keys_of Z self') = Some (key 40)
    ∧ MessageRecorder.contains_person_name lower self' (u "ask TOM") = true.
Proof.
  apply (new_participant_recognised Z 0 no_person lower eq_refl
           (MessageRecorder.init Z) newcomer (key 40) (u " Tom ") (u "ask TOM")).
  - vm_compute. reflexivity.
  - vm_compute. reflexivity.
  - vm_compute. apply not_elem_of_nil.
  - left. vm_compute. reflexivity.
  - vm_compute. discriminate.
  - vm_compute. reflexivity.
Defined.

(** An OpenIE file that parses, and one that holds a lone brace. *)
Lemma openie_file_parsed_or_crash_witness :
  (run main_answer
     (DeleteLpmmItems.from_openie_file openie_loads tuple_text by_openie [])
     (desk (u "openie"))
   = (inl ([] ++ omap DeleteLpmmItems.doc_idx openie_docs,
           (foldl (DeleteLpmmItems.doc_items tuple_text) ([], []) openie_docs).1,
           (foldl (DeleteLpmmItems.doc_items tuple_text) ([], []) openie_docs).2),
      [Called (DeleteLpmmItems.PathExists (u "openie.json")) (Ok true);
       Called (DeleteLpmmItems.ReadText (u "openie.json")) (Ok (u "openie"));
       Called (DeleteLpmmItems.ReadText (u "openie.json")) (Ok (u "openie"))],
      desk (u "openie"))
   ∧ Forall trimmed (omap DeleteLpmmItems.doc_idx openie_docs))
  ∧ run main_answer
      (DeleteLpmmItems.from_openie_file openie_loads tuple_text by_openie [])
      (desk (u "{"))
    = (inr (Crashed ValueError),
       [Called (DeleteLpmmItems.PathExists (u "openie.json")) (Ok true);
        Called (DeleteLpmmItems.ReadText (u "openie.json")) (Ok (u "{"))],
       desk (u "{")).
Proof.
  split.
  - refine (openie_file_parsed_or_crash openie_loads tuple_text main_answer
              by_openie [] (u "openie") (desk (u "openie")) (desk (u "openie"))
              (desk (u "openie")) (desk (u "openie")) _ _ _ _).
    + reflexivity.
    + vm_compute. reflexivity.
    + vm_compute. reflexivity.
    + vm_compute. reflexivity.
  - refine (openie_file_parsed_or_crash openie_loads tuple_text main_answer
              by_openie [] (u "{") (desk (u "{")) (desk (u "{"))
              (desk (u "{")) (desk (u "{")) _ _ _ _).
    + reflexivity.
    + vm_compute. reflexivity.
    + vm_compute. reflexivity.
    + vm_compute. reflexivity.
Defined.

(** Of the numbers 2, 9 and 1 typed at three candidates, 2 and 1 pick
    their paragraphs and 9 is passed over. *)
Lemma search_choice_selection_witness :
  (run main_answer (DeleteLpmmItems.from_search_text int_of_str by_search [])
     choosy_house).1.1
  = inl ([] ++ [u "2"; u "1"]).
Proof.
  refine (search_choice_selection int_of_str main_answer by_search []
            (stored house) (u "2, 9, 1")
            choosy_house choosy_house choosy_house choosy_house quiet_house
            _ _ _ _ _ _ _).
  - reflexivity.
  - vm_compute. discriminate.
  - reflexivity.
  - reflexivity.
  - reflexivity.
  - reflexivity.
  - vm_compute. discriminate.
Defined.

(** The document of a cache with one model is read back. *)
Lemma load_restores_document_witness :
  ModelPerformanceCache._load (λ _, Ok (document chat_data))
    {| ModelPerformanceCache.exists_ := λ _, true;
       ModelPerformanceCache.read := λ _, Ok (u "{...}") |}
    (u "stats.json")
  = Ok chat_data.
Proof.
  apply (load_restores_document (λ _, Ok (document chat_data)) _
           (u "stats.json") (u "{...}") chat_data).
  - reflexivity.
  - reflexivity.
  - reflexivity.
Defined.

End MoreRuns.
